(** * py_server.py: the query engine of the TELCO sales demo

    A shallow embedding of [py_server.py]: the text normaliser [_norm], the
    period-label parser [_periodo_key], the ES/AR number formatters, the
    standing aggregates built by [_build_caches], the month-over-month
    helper [_mom_simple] and the keyword dispatcher [ask].

    Python values are modelled as follows.
    - [str] is a list of Unicode code points ([pystr]).  What CPython takes
      from the Unicode character database (case mappings, canonical
      decompositions, categories) is a record [UCD] the program is
      parameterised by; [latin1] instantiates it for U+0000..U+00FF and the
      combining diacritical marks U+0300..U+036F.
    - [float] is IEEE 754 binary64, through [SpecFloat] with [prec = 53] and
      [emax = 1024].
    - a pandas frame is the list of its rows, a missing cell (NaN/None) of a
      text column is [None].
    - the three regular expressions of the source are sequences of
      quantified character classes; [re_here] is a greedy backtracking
      matcher for such sequences. *)

From Stdlib Require Import Ascii String.
From Stdlib Require Import List ZArith NArith Bool Lia.
From Stdlib Require Import Permutation Sorted.
From Stdlib Require Import Floats.SpecFloat.
Import ListNotations.

Set Implicit Arguments.

(* ================================================================== *)
(** * Strings *)

(** A code point, and a [str]. *)
Abbreviation cp := N (only parsing).
Abbreviation pystr := (list N) (only parsing).

(** String literals are written in UTF-8; [py] decodes them. *)
Fixpoint utf8_go (s : string) (need : nat) (acc : N) : pystr :=
  match s with
  | EmptyString => []
  | String a s' =>
      let b := N_of_ascii a in
      if (b <? 128)%N then b :: utf8_go s' 0 0%N
      else if (b <? 192)%N then
        let acc' := (acc * 64 + (b - 128))%N in
        match need with
        | 0 => utf8_go s' 0 0%N
        | 1 => acc' :: utf8_go s' 0 0%N
        | S n => utf8_go s' n acc'
        end
      else if (b <? 224)%N then utf8_go s' 1 (b - 192)%N
      else if (b <? 240)%N then utf8_go s' 2 (b - 224)%N
      else utf8_go s' 3 (b - 240)%N
  end.

Definition py (s : string) : pystr := utf8_go s 0 0%N.
Arguments py s%_string.

Definition cp_eqb : cp -> cp -> bool := N.eqb.

Fixpoint str_eqb (a b : pystr) : bool :=
  match a, b with
  | [], [] => true
  | x :: a', y :: b' => cp_eqb x y && str_eqb a' b'
  | _, _ => false
  end.

(** Python orders strings by code point, lexicographically. *)
Fixpoint str_compare (a b : pystr) : comparison :=
  match a, b with
  | [], [] => Eq
  | [], _ :: _ => Lt
  | _ :: _, [] => Gt
  | x :: a', y :: b' =>
      match N.compare x y with
      | Eq => str_compare a' b'
      | c => c
      end
  end.

Fixpoint startswith (p s : pystr) : bool :=
  match p, s with
  | [], _ => true
  | x :: p', y :: s' => cp_eqb x y && startswith p' s'
  | _ :: _, [] => false
  end.

(** [p in s] *)
Fixpoint str_in (p s : pystr) : bool :=
  startswith p s ||
  match s with
  | [] => false
  | _ :: s' => str_in p s'
  end.

(** [s.replace(a, new)] for a one-character [a]. *)
Definition str_replace (a : cp) (new : pystr) (s : pystr) : pystr :=
  flat_map (fun c => if cp_eqb c a then new else [c]) s.

Fixpoint dropwhile (f : cp -> bool) (s : pystr) : pystr :=
  match s with
  | [] => []
  | c :: s' => if f c then dropwhile f s' else s
  end.

Fixpoint takewhile (f : cp -> bool) (s : pystr) : pystr :=
  match s with
  | [] => []
  | c :: s' => if f c then c :: takewhile f s' else []
  end.

(** [sep.join(parts)] *)
Fixpoint str_join (sep : pystr) (parts : list pystr) : pystr :=
  match parts with
  | [] => []
  | [p] => p
  | p :: rest => p ++ sep ++ str_join sep rest
  end.

(** [f"{s:<{w}}"]: pad with spaces on the right up to width [w]. *)
Definition ljust (w : nat) (s : pystr) : pystr :=
  s ++ repeat 32%N (w - length s).

(** Decimal numerals of non-negative integers, least significant digit
    first in [digits_rev]. *)
Fixpoint digits_rev (fuel : nat) (n : N) : pystr :=
  match fuel with
  | 0 => []
  | S fuel' =>
      if (n <? 10)%N then [(48 + n)%N]
      else (48 + n mod 10)%N :: digits_rev fuel' (n / 10)%N
  end.

Definition str_of_N (n : N) : pystr :=
  rev (digits_rev (S (N.to_nat (N.log2 n))) n).

(** [str(z)] for an [int]. *)
Definition str_of_Z (z : Z) : pystr :=
  match z with
  | Zneg p => 45%N :: str_of_N (Npos p)
  | _ => str_of_N (Z.to_N z)
  end.

(* ================================================================== *)
(** * The Unicode character database *)

(** What [str.lower], [str.strip], [unicodedata] and the [re] module read
    from the character database. *)
Record UCD := {
  lower_full : cp -> list cp;      (* full lower-case mapping of a character *)
  cased : cp -> bool;              (* property Cased *)
  case_ignorable : cp -> bool;     (* property Case_Ignorable *)
  decomp : cp -> list cp;          (* full canonical decomposition *)
  ccc : cp -> N;                   (* canonical combining class *)
  is_Mn : cp -> bool;              (* unicodedata.category(ch) == "Mn" *)
  is_alnum : cp -> bool;           (* str.isalnum on one character *)
  is_space : cp -> bool;           (* str.isspace on one character *)
  decimal : cp -> option N;        (* value of a decimal digit *)
  ci_eq : cp -> cp -> bool         (* re.IGNORECASE: pattern literal against
                                      a character of the subject *)
}.

Section Text.

Variable U : UCD.

(** ** [str.lower]

    CPython lower-cases character by character with the full mapping,
    except for capital sigma (U+03A3), which becomes the final sigma U+03C2
    when preceded by a cased letter and not followed by one, case-ignorable
    characters being skipped on both sides. *)
Definition final_sigma (before_rev after : pystr) : bool :=
  match dropwhile (case_ignorable U) before_rev with
  | [] => false
  | c :: _ =>
      cased U c &&
      match dropwhile (case_ignorable U) after with
      | [] => true
      | d :: _ => negb (cased U d)
      end
  end.

Fixpoint lower_go (before_rev s : pystr) : pystr :=
  match s with
  | [] => []
  | c :: s' =>
      (if cp_eqb c 931%N
       then [if final_sigma before_rev s' then 962%N else 963%N]
       else lower_full U c)
      ++ lower_go (c :: before_rev) s'
  end.

Definition str_lower (s : pystr) : pystr := lower_go [] s.

(** ** [str.strip]: white space is removed at both ends. *)
Definition str_lstrip (s : pystr) : pystr := dropwhile (is_space U) s.

Fixpoint str_rstrip (s : pystr) : pystr :=
  match s with
  | [] => []
  | c :: s' =>
      match str_rstrip s' with
      | [] => if is_space U c then [] else [c]
      | r => c :: r
      end
  end.

Definition str_strip (s : pystr) : pystr := str_rstrip (str_lstrip s).

(** ** [unicodedata.normalize("NFD", s)]

    Every character is replaced by its full canonical decomposition, then
    each character of non-zero combining class is moved to the left past
    the characters of greater class that precede it. *)
Fixpoint reorder_insert (c : cp) (acc_rev : pystr) : pystr :=
  match acc_rev with
  | [] => [c]
  | p :: r =>
      if (ccc U c <? ccc U p)%N then p :: reorder_insert c r
      else c :: acc_rev
  end.

Definition reorder_step (acc_rev : pystr) (c : cp) : pystr :=
  if (ccc U c =? 0)%N then c :: acc_rev else reorder_insert c acc_rev.

Definition canonical_order (s : pystr) : pystr :=
  rev (fold_left reorder_step s []).

Definition nfd (s : pystr) : pystr :=
  canonical_order (flat_map (decomp U) s).

(** ** [int(s)] on a string of decimal digits *)
Definition digit_value (c : cp) : N :=
  match decimal U c with
  | Some v => v
  | None => 0%N
  end.

Definition py_int (s : pystr) : N :=
  fold_left (fun acc c => (acc * 10 + digit_value c)%N) s 0%N.

(* ================================================================== *)
(** * Regular expressions *)

(** A pattern is a sequence of pieces; a piece is a character class with a
    greedy quantifier [{lo,hi}] ([hi = None]: unbounded), possibly the
    content of a capturing group. *)
Record piece := {
  cls : cp -> bool;
  lo : nat;
  hi : option nat;
  cap : bool
}.

Definition regex := list piece.

(** Length of the longest prefix of [s] in class [f], at most [limit]. *)
Fixpoint run_length (f : cp -> bool) (limit : option nat) (s : pystr) : nat :=
  match limit with
  | Some 0 => 0
  | _ =>
      match s with
      | [] => 0
      | c :: s' =>
          if f c then S (run_length f (option_map pred limit) s') else 0
      end
  end.

(** Greedy choice with backtracking: [try k], then [try (k-1)], down to
    [try low]. *)
Fixpoint countdown (A : Type) (k low : nat) (try : nat -> option A) : option A :=
  match try k with
  | Some r => Some r
  | None =>
      match k with
      | 0 => None
      | S k' => if k' <? low then None else countdown k' low try
      end
  end.

(** Match [ps] at the start of [s]; the result lists the captured groups. *)
Fixpoint re_here (ps : regex) (s : pystr) : option (list pystr) :=
  match ps with
  | [] => Some []
  | p :: ps' =>
      let n := run_length (cls p) (hi p) s in
      if n <? lo p then None
      else
        countdown n (lo p)
          (fun k =>
             match re_here ps' (skipn k s) with
             | Some gs => Some (if cap p then firstn k s :: gs else gs)
             | None => None
             end)
  end.

(** [re.match]: at the start of the string. *)
Definition re_match (ps : regex) (s : pystr) : option (list pystr) :=
  re_here ps s.

(** [re.search]: at the leftmost position where the pattern matches. *)
Fixpoint re_search (ps : regex) (s : pystr) : option (list pystr) :=
  match re_here ps s with
  | Some gs => Some gs
  | None =>
      match s with
      | [] => None
      | _ :: s' => re_search ps s'
      end
  end.

(** Pieces. *)
Definition once (f : cp -> bool) : piece :=
  {| cls := f; lo := 1; hi := Some 1; cap := false |}.
Definition opt (f : cp -> bool) : piece :=
  {| cls := f; lo := 0; hi := Some 1; cap := false |}.
Definition star (f : cp -> bool) : piece :=
  {| cls := f; lo := 0; hi := None; cap := false |}.
Definition group (p : piece) : piece :=
  {| cls := cls p; lo := lo p; hi := hi p; cap := true |}.
Definition plus (f : cp -> bool) : piece :=
  {| cls := f; lo := 1; hi := None; cap := false |}.
Definition between (a b : nat) (f : cp -> bool) : piece :=
  {| cls := f; lo := a; hi := Some b; cap := false |}.

(** Character classes. *)
Definition is_char (a : cp) : cp -> bool := fun c => cp_eqb c a.
Definition class_s : cp -> bool := is_space U.                      (* \s *)
Definition class_w : cp -> bool :=                                  (* \w *)
  fun c => is_alnum U c || cp_eqb c 95%N.
Definition class_d : cp -> bool :=                                  (* \d *)
  fun c => match decimal U c with Some _ => true | None => false end.
Definition class_az : cp -> bool :=                                 (* [a-z] *)
  fun c => (97 <=? c)%N && (c <=? 122)%N.
Definition sep_class : cp -> bool :=                                (* [-/] *)
  fun c => cp_eqb c 45%N || cp_eqb c 47%N.

(** A literal string, and the same under [re.IGNORECASE]. *)
Definition literal (s : pystr) : regex := map (fun a => once (is_char a)) s.
Definition literal_i (s : pystr) : regex := map (fun a => once (ci_eq U a)) s.

(** [re.sub(cls, rep, s)] for a one-character class, and for [cls+]. *)
Definition re_sub_each (f : cp -> bool) (rep : pystr) (s : pystr) : pystr :=
  flat_map (fun c => if f c then rep else [c]) s.

Fixpoint re_sub_runs_go (f : cp -> bool) (rep : pystr) (in_run : bool)
    (s : pystr) : pystr :=
  match s with
  | [] => []
  | c :: s' =>
      if f c then
        (if in_run then [] else rep) ++ re_sub_runs_go f rep true s'
      else c :: re_sub_runs_go f rep false s'
  end.

Definition re_sub_runs (f : cp -> bool) (rep : pystr) (s : pystr) : pystr :=
  re_sub_runs_go f rep false s.

(* ================================================================== *)
(** * Normalising the query: [_norm] *)

(** [None] stands for a null prompt, [(s or "")] turns it into [""]. *)
Definition or_empty (s : option pystr) : pystr :=
  match s with
  | Some s => s
  | None => []
  end.

Definition _norm (s : option pystr) : pystr :=
  let s := str_lower (or_empty s) in
  let s := nfd s in
  let s := filter (fun ch => negb (is_Mn U ch)) s in
  let s := re_sub_each (fun c => negb (class_w c || class_s c)) (py " ") s in
  let s := str_strip (re_sub_runs class_s (py " ") s) in
  s.

(* ================================================================== *)
(** * Period labels: [_periodo_key] *)

Definition MONTHS_ES : list (pystr * N) :=
  [ (py "ene", 1%N); (py "feb", 2%N); (py "mar", 3%N); (py "abr", 4%N);
    (py "may", 5%N); (py "jun", 6%N); (py "jul", 7%N); (py "ago", 8%N);
    (py "sep", 9%N); (py "sept", 9%N); (py "oct", 10%N); (py "nov", 11%N);
    (py "dic", 12%N) ].

(** [d.get(k)] *)
Fixpoint dict_get (A : Type) (d : list (pystr * A)) (k : pystr) : option A :=
  match d with
  | [] => None
  | (k', v) :: d' => if str_eqb k k' then Some v else dict_get d' k
  end.

(** [MONTHS_ES.get(mon[:4] if mon.startswith("sept") else mon[:3])] *)
Definition month_number (mon : pystr) : option N :=
  dict_get MONTHS_ES
    (if startswith (py "sept") mon then firstn 4 mon else firstn 3 mon).

(** r"([a-z]{3,5})[\.]?\s*[-/]?\s*(\d{4})" *)
Definition RE_PERIODO : regex :=
  [ group (between 3 5 class_az);
    opt (is_char 46%N);
    star class_s;
    opt sep_class;
    star class_s;
    group (between 4 4 class_d) ].

(** The label as it is matched: trimmed, lower-cased, the five accented
    vowels replaced. *)
Definition periodo_clean (s : pystr) : pystr :=
  str_replace 250%N (py "u")
    (str_replace 237%N (py "i")
       (str_replace 243%N (py "o")
          (str_replace 225%N (py "a")
             (str_replace 233%N (py "e") (str_lower (str_strip s)))))).

(** A cell that is not a string ([None]) has no key. *)
Definition _periodo_key (s : option pystr) : option N :=
  match s with
  | None => None
  | Some s =>
      let s2 := periodo_clean s in
      match re_match RE_PERIODO s2 with
      | Some [g1; g2] =>
          let mon := str_replace 46%N [] g1 in
          let mon_num := month_number mon in
          let year := py_int g2 in
          match mon_num with
          | None => None
          | Some n => if (n =? 0)%N then None else Some (year * 100 + n)%N
          end
      | _ => None
      end
  end.

End Text.

(* ================================================================== *)
(** * Numbers *)

Definition float := spec_float.
Definition prec : Z := 53.
Definition emax : Z := 1024.

Definition fadd : float -> float -> float := SFadd prec emax.
Definition fsub : float -> float -> float := SFsub prec emax.
Definition fmul : float -> float -> float := SFmul prec emax.
Definition fdiv : float -> float -> float := SFdiv prec emax.
Definition feqb : float -> float -> bool := SFeqb.
Definition fleb : float -> float -> bool := SFleb.
Definition fzero : float := S754_zero false.

Definition is_nan (x : float) : bool :=
  match x with
  | S754_nan => true
  | _ => false
  end.

(** The float nearest to an integer (ties to even); an infinity when the
    integer is out of range. *)
Definition float_of_Z (z : Z) : float := binary_normalize prec emax z 0 false.

(** The float nearest to [m * 10^k]: the value of a decimal literal. *)
Definition dec_float (m k : Z) : float :=
  if (0 <=? k)%Z then float_of_Z (m * 10 ^ k)
  else
    match m with
    | Z0 => fzero
    | _ =>
        let '(q, e, l) :=
          SFdiv_core_binary prec emax (Z.abs m) 0 (10 ^ (- k)) 0 in
        binary_round_aux prec emax (m <? 0)%Z q e l
    end.

(** ** Fixed-point formatting: [f"{x:,.{d}f}"]

    The exact value [m * 2^e] is scaled by [10^d] and rounded to an integer,
    ties to even; the integer part is grouped by thousands. *)
Definition round_half_even (num den : Z) : Z :=
  let q := (num / den)%Z in
  let r := (num mod den)%Z in
  match (2 * r ?= den)%Z with
  | Lt => q
  | Gt => (q + 1)%Z
  | Eq => if Z.even q then q else (q + 1)%Z
  end.

Definition scaled_abs (m : positive) (e : Z) (d : nat) : N :=
  Z.to_N
    (if (0 <=? e)%Z then Zpos m * 2 ^ e * 10 ^ Z.of_nat d
     else round_half_even (Zpos m * 10 ^ Z.of_nat d) (2 ^ (- e)))%Z.

Definition zfill (w : nat) (s : pystr) : pystr :=
  repeat 48%N (w - length s) ++ s.

Fixpoint group3_go (sep : cp) (ds_rev : pystr) (n : nat) : pystr :=
  match ds_rev with
  | [] => []
  | c :: r =>
      if Nat.eqb n 3 then sep :: c :: group3_go sep r 1
      else c :: group3_go sep r (S n)
  end.

(** A string of digits with [sep] between its groups of three. *)
Definition group_thousands (sep : cp) (ds : pystr) : pystr :=
  rev (group3_go sep (rev ds) 0).

(** The [,] option of the format: thousands separated by commas. *)
Definition group3 (ds : pystr) : pystr := group_thousands 44%N ds.

Definition fixed_digits (sign : bool) (scaled : N) (d : nat) : pystr :=
  let ds := zfill (S d) (str_of_N scaled) in
  let int_part := firstn (length ds - d) ds in
  let frac := skipn (length ds - d) ds in
  (if sign then py "-" else [])
  ++ group3 int_part
  ++ (if Nat.eqb d 0 then [] else py "." ++ frac).

Definition format_f (x : float) (d : nat) : pystr :=
  match x with
  | S754_nan => py "nan"
  | S754_infinity s => if s then py "-inf" else py "inf"
  | S754_zero s => fixed_digits s 0%N d
  | S754_finite s m e => fixed_digits s (scaled_abs m e d) d
  end.

(** [s.replace(",", "X").replace(".", ",").replace("X", ".")] *)
Definition swap_separators (s : pystr) : pystr :=
  str_replace 88%N (py ".")
    (str_replace 46%N (py ",") (str_replace 44%N (py "X") s)).

(* ================================================================== *)
(** * Python values and the formatters *)

Inductive pyval :=
  | VNone
  | VInt (z : Z)
  | VFloat (x : float)
  | VStr (s : pystr).

(** What the program takes from CPython, pandas and numpy as they are: the
    conversions between text and floats, and the sums of float64 values. *)
Record PyLib := {
  float_of_str : pystr -> option float;   (* float(s), None: ValueError *)
  float_repr : float -> pystr;            (* str(x) *)
  to_numeric_str : pystr -> option float; (* pd.to_numeric on a text cell *)
  group_sum : list float -> float;        (* groupby(...)[col].sum() on the
                                             values of one group, in row order *)
  series_sum : list float -> float        (* Series.sum(), DataFrame.sum() on
                                             the values of one column *)
}.

Section Format.

Variable L : PyLib.

(** [float(v)]; [None] when it raises ([TypeError], [ValueError], or
    [OverflowError] for an [int] out of range). *)
Definition py_float (v : pyval) : option float :=
  match v with
  | VNone => None
  | VInt z =>
      match float_of_Z z with
      | S754_infinity _ => None
      | x => Some x
      end
  | VFloat x => Some x
  | VStr s => float_of_str L s
  end.

(** [str(v)] *)
Definition py_str (v : pyval) : pystr :=
  match v with
  | VNone => py "None"
  | VInt z => str_of_Z z
  | VFloat x => float_repr L x
  | VStr s => s
  end.

Definition _fmt_currency (v : pyval) (decimals : nat) : pystr :=
  match py_float v with
  | None => py_str v
  | Some x =>
      let s := format_f x decimals in
      let s := swap_separators s in
      py "$ " ++ s
  end.

Definition _fmt_percent (v : pyval) (decimals : nat) : pystr :=
  match py_float v with
  | None => py_str v
  | Some x0 =>
      let x := fmul x0 (float_of_Z 100) in
      let s := format_f x decimals in
      let s := swap_separators s in
      s ++ py " %"
  end.

(** ** Numeric cells of the sheet *)

Inductive cell :=
  | CEmpty
  | CNum (x : float)
  | CText (s : pystr).

(** [pd.to_numeric(s, errors="coerce")] on one cell: NaN for what cannot be
    read as a number. *)
Definition to_numeric_coerce (c : cell) : float :=
  match c with
  | CEmpty => S754_nan
  | CNum x => x
  | CText s =>
      match to_numeric_str L s with
      | Some x => x
      | None => S754_nan
      end
  end.

(** [.fillna(0)] *)
Definition fillna0 (x : float) : float := if is_nan x then fzero else x.

Definition _to_numeric (c : cell) : float := fillna0 (to_numeric_coerce c).

End Format.

(* ================================================================== *)
(** * Frames *)

Section GroupBy.

Variables (K V R : Type).
Variable cmp : K -> K -> comparison.
Variable add : V -> V -> V.
Variable zero : V.

(** One step of the accumulation of [groupby(...).sum()]: the value is
    added to the slot of its group.  Slots are kept in key order, the
    order of the result. *)
Fixpoint gb_add (k : K) (v : V) (acc : list (K * V)) : list (K * V) :=
  match acc with
  | [] => [(k, add zero v)]
  | (k', a) :: rest =>
      match cmp k k' with
      | Lt => (k, add zero v) :: acc
      | Eq => (k', add a v) :: rest
      | Gt => (k', a) :: gb_add k v rest
      end
  end.

Definition gb_step (keyf : R -> option K) (valf : R -> V)
    (acc : list (K * V)) (r : R) : list (K * V) :=
  match keyf r with
  | None => acc
  | Some k => gb_add k (valf r) acc
  end.

(** [df.groupby(key, as_index=False)[val].sum()]; rows with a missing key
    are dropped. *)
Definition groupby_sum (keyf : R -> option K) (valf : R -> V)
    (rows : list R) : list (K * V) :=
  fold_left (gb_step keyf valf) rows [].

End GroupBy.

(** The same with the sum left to the library: the values of each group are
    collected in row order and handed to [agg]. *)
Definition groupby_agg (K V R A : Type) (cmp : K -> K -> comparison)
    (agg : list V -> A) (keyf : R -> option K) (valf : R -> V)
    (rows : list R) : list (K * A) :=
  map (fun kv => (fst kv, agg (snd kv)))
      (groupby_sum cmp (@app V) [] keyf (fun r => [valf r]) rows).

Definition pair_compare (a b : pystr * pystr) : comparison :=
  match str_compare (fst a) (fst b) with
  | Eq => str_compare (snd a) (snd b)
  | c => c
  end.

Section Sort.

Variables (A K : Type).
Variable leb : K -> K -> bool.
Variable key : A -> option K.

Fixpoint insert_sorted (x : A) (kx : K) (l : list A) : list A :=
  match l with
  | [] => [x]
  | y :: l' =>
      match key y with
      | Some ky => if leb kx ky then x :: l else y :: insert_sorted x kx l'
      | None => x :: l
      end
  end.

Fixpoint sort_keyed (l : list A) : list A :=
  match l with
  | [] => []
  | x :: l' =>
      match key x with
      | Some kx => insert_sorted x kx (sort_keyed l')
      | None => sort_keyed l'
      end
  end.

Definition has_key (x : A) : bool :=
  match key x with
  | Some _ => true
  | None => false
  end.

(** [df.sort_values(col)]: rows in the order [leb] of their keys, rows
    without key (NaN/None) last in their original order.  pandas leaves the
    order of rows of equal key to the sorting routine; they keep their
    original order here. *)
Definition sort_values (l : list A) : list A :=
  sort_keyed l ++ filter (fun x => negb (has_key x)) l.

End Sort.

(** Sort key of a float column. *)
Definition float_key (x : float) : option float :=
  if is_nan x then None else Some x.

(** [sort_values(col, ascending=False)] on a float column. *)
Definition sort_desc (A : Type) (val : A -> float) (l : list A) : list A :=
  sort_values (fun a b => fleb b a) (fun r => float_key (val r)) l.

(** [_df_to_md_table]: [cols] are the column labels, [rows] the cells as
    strings. *)
Definition md_line (widths : list nat) (cells : list pystr) : pystr :=
  py "| "
  ++ str_join (py " | ") (map (fun wc => ljust (fst wc) (snd wc)) (combine widths cells))
  ++ py " |".

Definition _df_to_md_table (cols : list pystr) (rows : list (list pystr)) : pystr :=
  let widths :=
    map (fun j =>
           fold_left Nat.max
             (map (fun r => length (nth j r [])) rows)
             (length (nth j cols [])))
        (seq 0 (length cols)) in
  let header := md_line widths cols in
  let sep :=
    py "| " ++ str_join (py " | ") (map (fun w => repeat 45%N w) widths) ++ py " |" in
  str_join [10%N] (header :: sep :: map (md_line widths) rows).

(* ================================================================== *)
(** * The sheet and the caches *)

Definition COL_TOTAL : pystr := py "Total".
Definition COL_PERIODO : pystr := py "Periodo".
Definition COL_EMISORA : pystr := py "Emisora".
Definition COL_CLIENTE : pystr := py "Cliente".
Definition COL_MOVIL : pystr := py "Líneas móviles".
Definition COL_HOGAR : pystr := py "Internet hogar".
Definition COL_SERV : pystr := py "Servicios adicionales".
Definition COL_AJUSTE : pystr := py "Notas de ajuste".

(** A row of the sheet "Base Facturación" as [read_excel] yields it. *)
Record raw_record := {
  rCliente : option pystr;
  rEmisora : option pystr;
  rTipo : option pystr;
  rPeriodo : option pystr;
  rTotal : cell;
  rMovil : cell;
  rHogar : cell;
  rServ : cell;
  rAjuste : cell
}.

(** A row of a frame whose numeric columns, once coerced, hold values of
    type [V]: [float] for the dtype float64, [Z] for int64. *)
Record record_of (V : Type) := {
  Cliente : option pystr;
  Emisora : option pystr;
  Tipo : option pystr;
  Periodo : option pystr;
  Total : V;
  Movil : V;
  Hogar : V;
  Serv : V;
  Ajuste : V
}.

Arguments Cliente {V} _.
Arguments Emisora {V} _.
Arguments Tipo {V} _.
Arguments Periodo {V} _.
Arguments Total {V} _.
Arguments Movil {V} _.
Arguments Hogar {V} _.
Arguments Serv {V} _.
Arguments Ajuste {V} _.

(** A row of [DF].  The numeric columns of [DF] are float64: the dtype of a
    column as soon as one of its cells is empty, a decimal or a text. *)
Abbreviation record := (record_of float) (only parsing).

Definition SERVICE_COLS_of (V : Type) : list (pystr * (record_of V -> V)) :=
  [ (COL_MOVIL, @Movil V); (COL_HOGAR, @Hogar V); (COL_SERV, @Serv V);
    (COL_AJUSTE, @Ajuste V) ].

Abbreviation SERVICE_COLS := (SERVICE_COLS_of float) (only parsing).

(** What [_build_caches] takes from pandas for the dtype of the numeric
    columns. *)
Record dtype (V : Type) := {
  coerced : V -> V;            (* _to_numeric on a value of a numeric column *)
  sum_of_group : list V -> V;  (* groupby(...)[col].sum() on one group *)
  sum_of_column : list V -> V; (* DataFrame.sum() on one column *)
  sort_key : V -> option V;    (* the key of sort_values: None for NaN *)
  le : V -> V -> bool          (* <= *)
}.

(** int64: a 64-bit integer in two's complement; sums wrap around. *)
Definition wrap64 (z : Z) : Z :=
  ((z + 2 ^ 63) mod 2 ^ 64 - 2 ^ 63)%Z.

Definition int64 : dtype Z := {|
  coerced := fun z => z;
  sum_of_group := fun l => fold_left (fun a b => wrap64 (a + b)) l 0%Z;
  sum_of_column := fun l => fold_left (fun a b => wrap64 (a + b)) l 0%Z;
  sort_key := fun z => Some z;
  le := Z.leb
|}.

(** The globals of the module after a load. *)
Record state := {
  DF : list record;
  G_BY_PERIOD : list (pystr * float);
  G_BY_EMISORA : list (pystr * float);
  G_SERVICES : list (pystr * float);
  TOP_CLIENTS : list (pystr * float);
  LAST_LOAD_TS : pystr
}.

(** The row of [_mom_simple]. *)
Record mom_row := {
  Periodo_Actual : pystr;
  Total_Actual : float;
  Periodo_Anterior : pystr;
  Total_Anterior : float;
  Var_Abs : float;
  Var_pct : pyval
}.

Inductive response :=
  | Md (md : pystr)
  | Answer (filas : nat) (total : pystr) (clientes_unicos : nat) (loaded_at : pystr).

(** What a request handler does: it returns a response or an exception
    escapes from it. *)
Inductive outcome :=
  | Return (r : response)
  | Raises.

(** Distinct values in the order of their first appearance. *)
Fixpoint unique_by (A : Type) (eqb : A -> A -> bool) (seen l : list A) : list A :=
  match l with
  | [] => []
  | x :: l' =>
      if existsb (eqb x) seen then unique_by eqb seen l'
      else x :: unique_by eqb (x :: seen) l'
  end.

Definition unique (A : Type) (eqb : A -> A -> bool) (l : list A) : list A :=
  unique_by eqb [] l.

Section Service.

Variable U : UCD.
Variable L : PyLib.

(** [_add_period_key(df).sort_values("_period_key")] on a frame whose first
    column is the period label. *)
Definition period_key (A : Type) (r : pystr * A) : option N :=
  _periodo_key U (Some (fst r)).

Definition sort_by_period (A : Type) (df : list (pystr * A)) : list (pystr * A) :=
  sort_values N.leb (@period_key A) df.

(** [sort_values(COL_TOTAL, ascending=False)] for a column of the given
    dtype. *)
Definition by_total_desc (V : Type) (T : dtype V) (df : list (pystr * V)) :
    list (pystr * V) :=
  sort_values (fun a b => le T b a) (fun r => sort_key T (snd r)) df.

(** [_build_caches], for numeric columns of any one dtype. *)
Definition _build_caches (V : Type) (T : dtype V) (df : list (record_of V)) :
    list (pystr * V) * list (pystr * V) * list (pystr * V) * list (pystr * V) :=
  (* Total por mes *)
  let g1 :=
    groupby_agg str_compare (sum_of_group T) (@Periodo V)
      (fun r => coerced T (Total r)) df in
  let g1 := sort_by_period g1 in
  (* Total por emisora *)
  let g2 :=
    groupby_agg str_compare (sum_of_group T) (@Emisora V)
      (fun r => coerced T (Total r)) df in
  let g2 := by_total_desc T g2 in
  (* Servicios *)
  let g3 :=
    map (fun col =>
           (fst col, sum_of_column T (map (fun r => coerced T (snd col r)) df)))
        (SERVICE_COLS_of V) in
  (* Top clientes (acumulado) *)
  let g4 :=
    groupby_agg str_compare (sum_of_group T) (@Cliente V)
      (fun r => coerced T (Total r)) df in
  let g4 := by_total_desc T g4 in
  (g1, g2, g3, g4).

(** The dtype float64: the coercion and the order are the program's, the
    sums the library's. *)
Definition float64 : dtype float := {|
  coerced := fun x => _to_numeric L (CNum x);
  sum_of_group := group_sum L;
  sum_of_column := series_sum L;
  sort_key := float_key;
  le := fleb
|}.

Definition coerce_row (r : raw_record) : record :=
  {| Cliente := rCliente r;
     Emisora := rEmisora r;
     Tipo := rTipo r;
     Periodo := rPeriodo r;
     Total := _to_numeric L (rTotal r);
     Movil := _to_numeric L (rMovil r);
     Hogar := _to_numeric L (rHogar r);
     Serv := _to_numeric L (rServ r);
     Ajuste := _to_numeric L (rAjuste r) |}.

(** [load_data]: [sheet] is what [read_excel] returns, [now] the formatted
    clock. *)
Definition load_data (sheet : list raw_record) (now : pystr) : state :=
  let df := map coerce_row sheet in
  let '(g1, g2, g3, g4) := _build_caches float64 df in
  {| DF := df;
     G_BY_PERIOD := g1;
     G_BY_EMISORA := g2;
     G_SERVICES := g3;
     TOP_CLIENTS := g4;
     LAST_LOAD_TS := now |}.

(** ** The assignments of [load_data]

    [load_data] assigns the globals one after the other: [DF] at line 159,
    the four tables at line 160, from left to right, and the time stamp at
    line 161; it takes no lock.  A handler that another thread runs
    meanwhile reads the globals as they are between two assignments.  [st]
    holds the globals of the previous load. *)
Definition after_line_159 (sheet : list raw_record) (st : state) : state :=
  {| DF := map coerce_row sheet;
     G_BY_PERIOD := G_BY_PERIOD st;
     G_BY_EMISORA := G_BY_EMISORA st;
     G_SERVICES := G_SERVICES st;
     TOP_CLIENTS := TOP_CLIENTS st;
     LAST_LOAD_TS := LAST_LOAD_TS st |}.

(** The globals after each assignment of a reload, in order. *)
Definition reload_trace (sheet : list raw_record) (now : pystr) (st : state) :
    list state :=
  let df := map coerce_row sheet in
  let '(g1, g2, g3, g4) := _build_caches float64 df in
  let ts := LAST_LOAD_TS st in
  [ after_line_159 sheet st;
    {| DF := df; G_BY_PERIOD := g1; G_BY_EMISORA := G_BY_EMISORA st;
       G_SERVICES := G_SERVICES st; TOP_CLIENTS := TOP_CLIENTS st;
       LAST_LOAD_TS := ts |};
    {| DF := df; G_BY_PERIOD := g1; G_BY_EMISORA := g2;
       G_SERVICES := G_SERVICES st; TOP_CLIENTS := TOP_CLIENTS st;
       LAST_LOAD_TS := ts |};
    {| DF := df; G_BY_PERIOD := g1; G_BY_EMISORA := g2;
       G_SERVICES := g3; TOP_CLIENTS := TOP_CLIENTS st;
       LAST_LOAD_TS := ts |};
    {| DF := df; G_BY_PERIOD := g1; G_BY_EMISORA := g2;
       G_SERVICES := g3; TOP_CLIENTS := g4;
       LAST_LOAD_TS := ts |};
    {| DF := df; G_BY_PERIOD := g1; G_BY_EMISORA := g2;
       G_SERVICES := g3; TOP_CLIENTS := g4;
       LAST_LOAD_TS := now |} ].

(* ================================================================== *)
(** * Variation between the last two months *)

(** [(cur - prev) / prev if prev != 0 else 0] *)
Definition var_pct (cur prev : float) : pyval :=
  if negb (feqb prev fzero) then VFloat (fdiv (fsub cur prev) prev)
  else VInt 0.

Definition _mom_simple (df_period_value : list (pystr * float)) : option mom_row :=
  let d := sort_by_period df_period_value in
  if length d <? 2 then None
  else
    match rev d with
    | p :: q :: _ =>
        let cur := snd p in
        let prev := snd q in
        Some {| Periodo_Actual := fst p;
                Total_Actual := cur;
                Periodo_Anterior := fst q;
                Total_Anterior := prev;
                Var_Abs := fsub cur prev;
                Var_pct := var_pct cur prev |}
    | _ => None
    end.

(* ================================================================== *)
(** * The dispatcher: [ask] *)

Definition fmt_money (x : float) : pystr := _fmt_currency L (VFloat x) 2.

(** r"top\s*(\d+)" *)
Definition RE_TOP : regex :=
  literal (py "top") ++ [ star (class_s U); group (plus (class_d U)) ].

(** [n = int(m.group(1)) if m else 5] *)
Definition top_n (t : pystr) : nat :=
  match re_search RE_TOP t with
  | Some [g] => N.to_nat (py_int U g)
  | _ => 5
  end.

(** r"cliente\s*([\w\s\-\#]+)" with [re.IGNORECASE] *)
Definition RE_CLIENTE : regex :=
  literal_i U (py "cliente")
  ++ [ star (class_s U);
       group (plus (fun c => class_w U c || class_s U c
                             || cp_eqb c 45%N || cp_eqb c 35%N)) ].

(** [m.group(1).strip()] when the pattern is found in the prompt. *)
Definition client_name (raw : pystr) : option pystr :=
  match re_search RE_CLIENTE raw with
  | Some [g] => Some (str_strip U g)
  | _ => None
  end.

(** [Series.str.contains(name, case=False, na=False)] on one cell.  [name]
    holds word characters, white space, [-] and [#] only, none of which is
    an operator of the pattern language: the pattern is the literal [name],
    searched without regard to case. *)
Definition str_contains (name : pystr) (cell : option pystr) : bool :=
  match cell with
  | None => false
  | Some s =>
      match re_search (literal_i U name) s with
      | Some _ => true
      | None => false
      end
  end.

(** Keys of a frame grouped by two text columns. *)
Definition key2 (a b : record -> option pystr) (r : record) : option (pystr * pystr) :=
  match a r, b r with
  | Some x, Some y => Some (x, y)
  | _, _ => None
  end.

Definition opt_eqb (a b : option N) : bool :=
  match a, b with
  | Some x, Some y => N.eqb x y
  | _, _ => false
  end.

(** [Series.max()] of the key column: NaN ([None]) when no key is present. *)
Definition max_key (keys : list (option N)) : option N :=
  fold_left
    (fun acc k =>
       match acc, k with
       | Some a, Some b => Some (N.max a b)
       | None, _ => k
       | _, None => acc
       end)
    keys None.

(** [Series.unique()] of the key column: NaN entries count as one value. *)
Definition unique_keys (keys : list (option N)) : list (option N) :=
  unique
    (fun a b =>
       match a, b with
       | None, None => true
       | _, _ => opt_eqb a b
       end)
    keys.

(** [sorted(keys)]: an insertion sort with [<], which is false as soon as
    one side is NaN.  The argument here is already in increasing order with
    NaN, if any, at the end; [sorted] leaves such a list as it is. *)
Definition key_lt (a b : option N) : bool :=
  match a, b with
  | Some x, Some y => (x <? y)%N
  | _, _ => false
  end.

Fixpoint sorted_insert (x : option N) (acc_rev : list (option N)) : list (option N) :=
  match acc_rev with
  | [] => [x]
  | y :: r => if key_lt x y then y :: sorted_insert x r else x :: acc_rev
  end.

Definition py_sorted (keys : list (option N)) : list (option N) :=
  rev (fold_left (fun acc x => sorted_insert x acc) keys []).

(** Truth value of [prev_key]: [None] is false, NaN is true, an integer is
    true unless it is 0. *)
Definition truthy (k : option (option N)) : bool :=
  match k with
  | None => false
  | Some None => true
  | Some (Some n) => negb (N.eqb n 0)
  end.

(** The frame [tdf] of the branch "Top N clientes en el último mes": totals
    by client and period, in the order of the period keys. *)
Definition tdf_row : Type := pystr * pystr * float.

Definition tdf_key (r : tdf_row) : option N := _periodo_key U (Some (snd (fst r))).

Definition client_period_totals (df : list record) : list tdf_row :=
  sort_values N.leb tdf_key
    (groupby_sum pair_compare fadd fzero (key2 Cliente Periodo) Total df).

Definition last_key (tdf : list tdf_row) : option N := max_key (map tdf_key tdf).

Definition prev_key (tdf : list tdf_row) : option (option N) :=
  let uniq_keys := py_sorted (unique_keys (map tdf_key tdf)) in
  if 2 <=? length uniq_keys
  then Some (nth (length uniq_keys - 2) uniq_keys None)
  else None.

(** [cur_per = tdf[tdf["_period_key"]==last_key]] *)
Definition cur_per (tdf : list tdf_row) : list tdf_row :=
  filter (fun r => opt_eqb (tdf_key r) (last_key tdf)) tdf.

(** [tdf[tdf["_period_key"]==prev_key]] *)
Definition prev_per (tdf : list tdf_row) : list tdf_row :=
  match prev_key tdf with
  | Some k => filter (fun r => opt_eqb (tdf_key r) k) tdf
  | None => []
  end.

(** The rows of [merged]: a row of [top_cur], its [Prev] and its [Var_%]. *)
Definition merged_rows (tdf : list tdf_row) (n : nat) : list (tdf_row * float * pyval) :=
  let top_cur := firstn n (sort_desc (@snd (pystr * pystr) float) (cur_per tdf)) in
  if truthy (prev_key tdf) then
    flat_map
      (fun r =>
         match filter (fun m => str_eqb (fst (fst m)) (fst (fst r))) (prev_per tdf) with
         | [] => [(r, fzero, var_pct (snd r) fzero)]
         | ms =>
             map (fun m =>
                    let prev := fillna0 (snd m) in
                    (r, prev, var_pct (snd r) prev))
                 ms
         end)
      top_cur
  else map (fun r => (r, fzero, VInt 0)) top_cur.

Definition top_clients_last_month (df : list record) (n : nat) : outcome :=
  let tdf := client_period_totals df in
  match tdf with
  | [] => Return (Md (py "No hay datos suficientes."))
  | _ =>
      let merged := merged_rows tdf n in
      match merged with
      | [] => Raises          (* merged[COL_PERIODO].iloc[0] *)
      | (r0, _, _) :: _ =>
          let periodo_actual := snd (fst r0) in
          let anterior :=
            if truthy (prev_key tdf) then
              match prev_per tdf with
              | m :: _ => Some (snd (fst m))
              | [] => None    (* .iloc[0] of an empty selection *)
              end
            else Some (py "—") in
          match anterior with
          | None => Raises
          | Some periodo_anterior =>
              let out :=
                map (fun row =>
                       match row with
                       | (r, _, v) =>
                           [ fst (fst r); fmt_money (snd r); _fmt_percent L v 2 ]
                       end)
                    merged in
              let md :=
                _df_to_md_table [py "Cliente"; py "Facturado"; py "Variación %"] out in
              let title :=
                py "Top " ++ str_of_N (N.of_nat n) ++ py " clientes en "
                ++ periodo_actual ++ py " (vs " ++ periodo_anterior ++ py "):" in
              Return (Md (title ++ [10%N] ++ md))
          end
      end
  end.

Definition MOM_COLS : list pystr :=
  [ py "Periodo_Actual"; py "Total_Actual"; py "Periodo_Anterior";
    py "Total_Anterior"; py "Var_Abs"; py "Var_%" ].

Definition mom_cells (m : mom_row) : list pystr :=
  [ Periodo_Actual m; fmt_money (Total_Actual m);
    Periodo_Anterior m; fmt_money (Total_Anterior m);
    fmt_money (Var_Abs m); _fmt_percent L (Var_pct m) 2 ].

(** The column [Var_%] of a frame built from the rows: floats. *)
Definition var_float (m : mom_row) : float :=
  match Var_pct m with
  | VFloat x => x
  | VInt z => float_of_Z z
  | _ => S754_nan
  end.

Definition emisora_variation (df : list record) : response :=
  let dd := groupby_sum pair_compare fadd fzero (key2 Emisora Periodo) Total df in
  let rows :=
    flat_map
      (fun em =>
         let sub := filter (fun r => str_eqb (fst (fst r)) em) dd in
         match _mom_simple (map (fun r => (snd (fst r), snd r)) sub) with
         | Some mrow => [(em, mrow)]
         | None => []
         end)
      (unique str_eqb (map (fun r => fst (fst r)) dd)) in
  match rows with
  | [] => Md (py "No hay suficientes meses para variación por emisora.")
  | _ =>
      let mom := sort_desc (fun r : pystr * mom_row => var_float (snd r)) rows in
      let view := map (fun r => fst r :: mom_cells (snd r)) mom in
      let md := _df_to_md_table (py "Emisora" :: MOM_COLS) view in
      Md (py "Variación mensual por emisora (últimos 2 meses)" ++ [10%N] ++ md)
  end.

Definition add_vec (a b : list float) : list float :=
  map (fun xy => fadd (fst xy) (snd xy)) (combine a b).

(** [tmp]: the sums of the service columns by period. *)
Definition service_totals (df : list record) : list (pystr * list float) :=
  groupby_sum str_compare add_vec (map (fun _ => fzero) SERVICE_COLS) Periodo
    (fun r => map (fun col => snd col r) SERVICE_COLS) df.

(** The rows of the answer, one per service column, from the rows [p] and
    [q] taken as current and previous period. *)
Definition service_rows (p q : pystr * list float) : list (list pystr) :=
  map (fun x =>
         match x with
         | (col, (cur, prev)) =>
             [ fst col;
               fst p; fmt_money cur;
               fst q; fmt_money prev;
               fmt_money (fsub cur prev);
               _fmt_percent L (var_pct cur prev) 2 ]
         end)
      (combine SERVICE_COLS (combine (snd p) (snd q))).

Definition servicio_variation (df : list record) : response :=
  let tmp := service_totals df in
  let d := sort_by_period tmp in
  if length d <? 2
  then Md (py "No hay suficientes meses para variación por servicio.")
  else
    match rev d with
    | p :: q :: _ =>
        let rows := service_rows p q in
        let md := _df_to_md_table (py "Servicio" :: MOM_COLS) rows in
        Md (py "Variación mensual por servicio (últimos 2 meses)" ++ [10%N] ++ md)
    | _ => Md (py "No hay suficientes meses para variación por servicio.")
    end.

Definition money_table (c1 c2 : pystr) (df : list (pystr * float)) : pystr :=
  _df_to_md_table [c1; c2] (map (fun r => [fst r; fmt_money (snd r)]) df).

Definition has_variac (t : pystr) : bool :=
  str_in (py "variac") t || str_in (py "variacion") t.

(** The branch "Cliente específico" once the name is known. *)
Definition cliente_branch (st : state) (t name : pystr) : response :=
  let filt := filter (fun r => str_contains name (Cliente r)) (DF st) in
  if length filt =? 0 then Md (py "No se encontró el cliente: " ++ name)
  else
    let byp := groupby_sum str_compare fadd fzero Periodo Total filt in
    if has_variac t then
      match _mom_simple byp with
      | None =>
          Md (py "No hay suficientes meses para calcular variación de "
              ++ name ++ py ".")
      | Some mom =>
          let md :=
            _df_to_md_table (py "Cliente" :: MOM_COLS) [name :: mom_cells mom] in
          Md (py "Variación mensual — " ++ name ++ [10%N] ++ md)
      end
    else
      let byp := sort_by_period byp in
      let md := money_table (py "Periodo") (py "Total") byp in
      Md (py "Cliente: " ++ name ++ [10%N] ++ md).

Definition total_variation (st : state) : response :=
  let dd := groupby_sum str_compare fadd fzero Periodo Total (DF st) in
  match _mom_simple dd with
  | None => Md (py "No hay suficientes meses para calcular la variación.")
  | Some mom =>
      let md := _df_to_md_table MOM_COLS [mom_cells mom] in
      Md (py "Variación mensual total (últimos 2 meses)" ++ [10%N] ++ md)
  end.

Definition resumen (st : state) : response :=
  let total := series_sum L (map (@Total float) (DF st)) in
  Answer (length (DF st))
         (_fmt_currency L (VFloat total) 2)
         (length (unique str_eqb
                    (flat_map (fun r => match Cliente r with
                                        | Some c => [c]
                                        | None => []
                                        end) (DF st))))
         (LAST_LOAD_TS st).

Definition ask (st : state) (prompt : pystr) : outcome :=
  let raw := prompt in
  let t := _norm U (Some raw) in
  (* Top N clientes (acumulado) *)
  if str_in (py "top") t && str_in (py "cliente") t && negb (str_in (py "ultimo") t)
  then
    let n := top_n t in
    let g := firstn n (TOP_CLIENTS st) in
    let md := money_table (py "Cliente") (py "Facturado") g in
    Return (Md (py "Top " ++ str_of_N (N.of_nat n) ++ py " clientes (acumulado):"
                ++ [10%N] ++ md))
  (* Top N clientes en el último mes *)
  else if str_in (py "top") t && str_in (py "cliente") t
          && (str_in (py "ultimo") t || str_in (py "mes") t)
  then top_clients_last_month (DF st) (top_n t)
  (* Total por mes *)
  else if str_in (py "por mes") t || str_in (py "total por mes") t
          || str_in (py "mensual") t
  then
    Return (Md (py "Total mensual:" ++ [10%N]
                ++ money_table (py "Periodo") (py "Total") (G_BY_PERIOD st)))
  (* Emisora *)
  else if str_in (py "emisora") t || str_in (py "canal") t
  then
    if has_variac t then Return (emisora_variation (DF st))
    else
      Return (Md (py "Ventas por emisora:" ++ [10%N]
                  ++ money_table (py "Emisora") (py "Total") (G_BY_EMISORA st)))
  (* Servicios *)
  else if str_in (py "servicio") t || str_in (py "tipo") t
  then
    if has_variac t then Return (servicio_variation (DF st))
    else
      Return (Md (py "Ventas por tipo de servicio:" ++ [10%N]
                  ++ money_table (py "Servicio") (py "Importe") (G_SERVICES st)))
  else
    (* Cliente específico *)
    match (if str_in (py "cliente") t then client_name raw else None) with
    | Some name => Return (cliente_branch st t name)
    | None =>
        (* Variación mensual total *)
        if has_variac t || str_in (py "mom") t
        then Return (total_variation st)
        (* Default: resumen *)
        else Return (resumen st)
    end.

End Service.

(* ================================================================== *)
(** * The character database for Latin-1

    The entries of the Unicode character database for U+0000..U+00FF and
    for the combining diacritical marks U+0300..U+036F, which the canonical
    decompositions of Latin-1 letters use.  Every other code point is
    taken as unassigned: caseless, without decomposition, neither
    alphanumeric nor white space. *)

Definition mem (c : cp) (l : list cp) : bool := existsb (N.eqb c) l.

Definition latin1_upper : list cp :=
  [65; 66; 67; 68; 69; 70; 71; 72; 73; 74; 75; 76; 77; 78; 79; 80; 81; 82;
   83; 84; 85; 86; 87; 88; 89; 90; 192; 193; 194; 195; 196; 197; 198; 199;
   200; 201; 202; 203; 204; 205; 206; 207; 208; 209; 210; 211; 212; 213;
   214; 216; 217; 218; 219; 220; 221; 222]%N.

Definition latin1_decomp : list (cp * list cp) :=
  [ (192, [65; 768]); (193, [65; 769]); (194, [65; 770]); (195, [65; 771]);
   (196, [65; 776]); (197, [65; 778]); (199, [67; 807]); (200, [69; 768]);
   (201, [69; 769]); (202, [69; 770]); (203, [69; 776]); (204, [73; 768]);
   (205, [73; 769]); (206, [73; 770]); (207, [73; 776]); (209, [78; 771]);
   (210, [79; 768]); (211, [79; 769]); (212, [79; 770]); (213, [79; 771]);
   (214, [79; 776]); (217, [85; 768]); (218, [85; 769]); (219, [85; 770]);
   (220, [85; 776]); (221, [89; 769]); (224, [97; 768]); (225, [97; 769]);
   (226, [97; 770]); (227, [97; 771]); (228, [97; 776]); (229, [97; 778]);
   (231, [99; 807]); (232, [101; 768]); (233, [101; 769]); (234, [101;
   770]); (235, [101; 776]); (236, [105; 768]); (237, [105; 769]); (238,
   [105; 770]); (239, [105; 776]); (241, [110; 771]); (242, [111; 768]);
   (243, [111; 769]); (244, [111; 770]); (245, [111; 771]); (246, [111;
   776]); (249, [117; 768]); (250, [117; 769]); (251, [117; 770]); (252,
   [117; 776]); (253, [121; 769]); (255, [121; 776]); (832, [768]); (833,
   [769]); (835, [787]); (836, [776; 769]) ]%N.

Definition marks_ccc : list (N * list cp) :=
  [ (1, [820; 821; 822; 823; 824]); (202, [801; 802; 807; 808]); (216,
   [795]); (220, [790; 791; 792; 793; 796; 797; 798; 799; 800; 803; 804;
   805; 806; 809; 810; 811; 812; 813; 814; 815; 816; 817; 818; 819; 825;
   826; 827; 828; 839; 840; 841; 845; 846; 851; 852; 853; 854; 857; 858]);
   (230, [768; 769; 770; 771; 772; 773; 774; 775; 776; 777; 778; 779; 780;
   781; 782; 783; 784; 785; 786; 787; 788; 829; 830; 831; 832; 833; 834;
   835; 836; 838; 842; 843; 844; 848; 849; 850; 855; 859; 867; 868; 869;
   870; 871; 872; 873; 874; 875; 876; 877; 878; 879]); (232, [789; 794;
   856]); (233, [860; 863; 866]); (234, [861; 862; 864; 865]); (240, [837])
   ]%N.

Definition latin1_alnum : list cp :=
  [48; 49; 50; 51; 52; 53; 54; 55; 56; 57; 65; 66; 67; 68; 69; 70; 71; 72;
   73; 74; 75; 76; 77; 78; 79; 80; 81; 82; 83; 84; 85; 86; 87; 88; 89; 90;
   97; 98; 99; 100; 101; 102; 103; 104; 105; 106; 107; 108; 109; 110; 111;
   112; 113; 114; 115; 116; 117; 118; 119; 120; 121; 122; 170; 178; 179;
   181; 185; 186; 188; 189; 190; 192; 193; 194; 195; 196; 197; 198; 199;
   200; 201; 202; 203; 204; 205; 206; 207; 208; 209; 210; 211; 212; 213;
   214; 216; 217; 218; 219; 220; 221; 222; 223; 224; 225; 226; 227; 228;
   229; 230; 231; 232; 233; 234; 235; 236; 237; 238; 239; 240; 241; 242;
   243; 244; 245; 246; 248; 249; 250; 251; 252; 253; 254; 255]%N.

Definition latin1_space : list cp :=
  [9; 10; 11; 12; 13; 28; 29; 30; 31; 32; 133; 160]%N.

Definition latin1_cased : list cp :=
  [65; 66; 67; 68; 69; 70; 71; 72; 73; 74; 75; 76; 77; 78; 79; 80; 81; 82;
   83; 84; 85; 86; 87; 88; 89; 90; 97; 98; 99; 100; 101; 102; 103; 104; 105;
   106; 107; 108; 109; 110; 111; 112; 113; 114; 115; 116; 117; 118; 119;
   120; 121; 122; 170; 181; 186; 192; 193; 194; 195; 196; 197; 198; 199;
   200; 201; 202; 203; 204; 205; 206; 207; 208; 209; 210; 211; 212; 213;
   214; 216; 217; 218; 219; 220; 221; 222; 223; 224; 225; 226; 227; 228;
   229; 230; 231; 232; 233; 234; 235; 236; 237; 238; 239; 240; 241; 242;
   243; 244; 245; 246; 248; 249; 250; 251; 252; 253; 254; 255]%N.

Definition latin1_case_ignorable : list cp :=
  [39; 46; 58; 94; 96; 168; 173; 175; 180; 183; 184; 768; 769; 770; 771;
   772; 773; 774; 775; 776; 777; 778; 779; 780; 781; 782; 783; 784; 785;
   786; 787; 788; 789; 790; 791; 792; 793; 794; 795; 796; 797; 798; 799;
   800; 801; 802; 803; 804; 805; 806; 807; 808; 809; 810; 811; 812; 813;
   814; 815; 816; 817; 818; 819; 820; 821; 822; 823; 824; 825; 826; 827;
   828; 829; 830; 831; 832; 833; 834; 835; 836; 837; 838; 839; 840; 841;
   842; 843; 844; 845; 846; 847; 848; 849; 850; 851; 852; 853; 854; 855;
   856; 857; 858; 859; 860; 861; 862; 863; 864; 865; 866; 867; 868; 869;
   870; 871; 872; 873; 874; 875; 876; 877; 878; 879]%N.

Fixpoint assoc_list (A : Type) (c : cp) (t : list (cp * A)) : option A :=
  match t with
  | [] => None
  | (k, v) :: t' => if N.eqb c k then Some v else assoc_list c t'
  end.

Fixpoint class_of (c : cp) (t : list (N * list cp)) : N :=
  match t with
  | [] => 0%N
  | (k, l) :: t' => if mem c l then k else class_of c t'
  end.

Definition latin1_lower (c : cp) : cp :=
  if mem c latin1_upper then (c + 32)%N else c.

Definition latin1 : UCD := {|
  lower_full := fun c => [latin1_lower c];
  cased := fun c => mem c latin1_cased;
  case_ignorable := fun c => mem c latin1_case_ignorable;
  decomp := fun c =>
    match assoc_list c latin1_decomp with
    | Some l => l
    | None => [c]
    end;
  ccc := fun c => class_of c marks_ccc;
  is_Mn := fun c => (768 <=? c)%N && (c <=? 879)%N;
  is_alnum := fun c => mem c latin1_alnum;
  is_space := fun c => mem c latin1_space;
  decimal := fun c => if (48 <=? c)%N && (c <=? 57)%N then Some (c - 48)%N else None;
  ci_eq := fun a c => N.eqb (latin1_lower c) (latin1_lower a)
|}.

(* ================================================================== *)
(** * Text and floats

    An instance of [PyLib]: numerals written with ASCII digits, an
    optional sign, fraction and exponent, and the spellings of infinity
    and NaN, are read as the nearest float; a float is written with the
    fewest digits that read back as the same float. *)

Definition ascii_digit (c : cp) : bool := (48 <=? c)%N && (c <=? 57)%N.

Definition digits_Z (s : pystr) : Z :=
  fold_left (fun a c => (a * 10 + (Z.of_N c - 48))%Z) s 0%Z.

(** An optional sign: the sign bit and the rest of the text. *)
Definition read_sign (s : pystr) : bool * pystr :=
  match s with
  | 45%N :: r => (true, r)
  | 43%N :: r => (false, r)
  | _ => (false, s)
  end.

(** The exponent part: [e], an optional sign and digits up to the end. *)
Definition read_exponent (s : pystr) : option Z :=
  match s with
  | [] => Some 0%Z
  | c :: r =>
      if cp_eqb c 101%N || cp_eqb c 69%N then
        let '(neg, ds) := read_sign r in
        match ds with
        | [] => None
        | _ =>
            if forallb ascii_digit ds
            then Some (if neg then - digits_Z ds else digits_Z ds)%Z
            else None
        end
      else None
  end.

Definition read_unsigned (s : pystr) : option float :=
  let low := map latin1_lower s in
  if str_eqb low (py "inf") || str_eqb low (py "infinity")
  then Some (S754_infinity false)
  else if str_eqb low (py "nan") then Some S754_nan
  else
    let ip := takewhile ascii_digit s in
    let r1 := dropwhile ascii_digit s in
    let '(fp, r2) :=
      match r1 with
      | 46%N :: r => (takewhile ascii_digit r, dropwhile ascii_digit r)
      | _ => ([], r1)
      end in
    match ip ++ fp with
    | [] => None
    | ds =>
        match read_exponent r2 with
        | None => None
        | Some ex => Some (dec_float (digits_Z ds) (ex - Z.of_nat (length fp)))
        end
    end.

Definition read_float (s : pystr) : option float :=
  let '(neg, r) := read_sign (str_strip latin1 s) in
  match read_unsigned r with
  | Some x => Some (if neg then SFopp x else x)
  | None => None
  end.

(** [num / den >= 10^k] *)
Definition ge_pow10 (num den k : Z) : bool :=
  if (0 <=? k)%Z then (10 ^ k * den <=? num)%Z
  else (den <=? num * 10 ^ (- k))%Z.

(** The position [k] of the decimal point: [10^(k-1) <= num/den < 10^k]. *)
Definition decimal_point (num den : Z) : Z :=
  let k := ((Z.log2 num - Z.log2 den) * 30103 / 100000)%Z in
  let k := if ge_pow10 num den k then (k + 1)%Z else k in
  let k := if ge_pow10 num den k then (k + 1)%Z else k in
  let k := if ge_pow10 num den (k - 1) then k else (k - 1)%Z in
  if ge_pow10 num den (k - 1) then k else (k - 1)%Z.

(** The digits and the decimal point of the shortest numeral that reads
    back as [m * 2^e], tried with 1, 2, ... significant digits. *)
Fixpoint shortest_go (fuel nd : nat) (x : float) (num den k : Z) : pystr * Z :=
  let p := (k - Z.of_nat nd)%Z in
  let n' := if (0 <=? p)%Z then num else (num * 10 ^ (- p))%Z in
  let d' := if (0 <=? p)%Z then (den * 10 ^ p)%Z else den in
  let lo := (n' / d')%Z in
  let r := (n' mod d')%Z in
  let ok c := SFeqb (dec_float c p) x in
  let pick c :=
    let ds := str_of_N (Z.to_N c) in
    (rev (dropwhile (fun c => cp_eqb c 48%N) (rev ds)), (p + Z.of_nat (length ds))%Z) in
  let lo_first :=
    match (2 * r ?= d')%Z with
    | Lt => true
    | Gt => false
    | Eq => Z.even lo
    end in
  let c1 := if lo_first then lo else (lo + 1)%Z in
  let c2 := if lo_first then (lo + 1)%Z else lo in
  if ok c1 then pick c1
  else if ok c2 then pick c2
  else
    match fuel with
    | 0 => pick c1
    | S fuel' => shortest_go fuel' (S nd) x num den k
    end.

Definition exponent_text (ex : Z) : pystr :=
  (if (ex <? 0)%Z then py "-" else py "+")
  ++ zfill 2 (str_of_N (Z.abs_N ex)).

Definition repr_finite (m : positive) (e : Z) : pystr :=
  let num := if (0 <=? e)%Z then (Zpos m * 2 ^ e)%Z else Zpos m in
  let den := if (0 <=? e)%Z then 1%Z else (2 ^ (- e))%Z in
  let '(ds, decpt) :=
    shortest_go 17 1 (S754_finite false m e) num den (decimal_point num den) in
  let nd := Z.of_nat (length ds) in
  if (decpt <=? -4)%Z || (16 <? decpt)%Z then
    firstn 1 ds
    ++ (match skipn 1 ds with [] => [] | rest => py "." ++ rest end)
    ++ py "e" ++ exponent_text (decpt - 1)
  else if (decpt <=? 0)%Z then
    py "0." ++ repeat 48%N (Z.to_nat (- decpt)) ++ ds
  else if (nd <=? decpt)%Z then
    ds ++ repeat 48%N (Z.to_nat (decpt - nd)) ++ py ".0"
  else firstn (Z.to_nat decpt) ds ++ py "." ++ skipn (Z.to_nat decpt) ds.

Definition write_float (x : float) : pystr :=
  match x with
  | S754_nan => py "nan"
  | S754_infinity s => if s then py "-inf" else py "inf"
  | S754_zero s => if s then py "-0.0" else py "0.0"
  | S754_finite s m e => (if s then py "-" else []) ++ repr_finite m e
  end.

(** The sum of a group as pandas accumulates it, with the compensation of
    Kahan; a NaN is skipped. *)
Definition kahan_step (sc : float * float) (v : float) : float * float :=
  if is_nan v then sc
  else
    let y := fsub v (snd sc) in
    let t := fadd (fst sc) y in
    let c := fsub (fsub t (fst sc)) y in
    (t, if is_nan c then fzero else c).

Definition kahan_sum (l : list float) : float :=
  fst (fold_left kahan_step l (fzero, fzero)).

(** The sum of a column as numpy reduces it: pairwise, in blocks of at most
    128 values summed on eight lanes. *)
Fixpoint add_lanes (blocks : nat) (r a : list float) : list float * list float :=
  match blocks with
  | 0 => (r, a)
  | S b =>
      add_lanes b
        (map (fun xy => fadd (fst xy) (snd xy)) (combine r (firstn 8 a)))
        (skipn 8 a)
  end.

Definition sum_lanes (r : list float) : float :=
  match r with
  | [r0; r1; r2; r3; r4; r5; r6; r7] =>
      fadd (fadd (fadd r0 r1) (fadd r2 r3)) (fadd (fadd r4 r5) (fadd r6 r7))
  | _ => fold_left fadd r fzero
  end.

Fixpoint pairwise_sum (fuel : nat) (a : list float) : float :=
  let n := length a in
  if n <? 8 then fold_left fadd a fzero
  else if n <=? 128 then
    let '(r, rest) := add_lanes (n / 8 - 1) (firstn 8 a) (skipn 8 a) in
    fold_left fadd rest (sum_lanes r)
  else
    match fuel with
    | 0 => fold_left fadd a fzero
    | S fuel' =>
        let n2 := n / 2 - (n / 2) mod 8 in
        fadd (pairwise_sum fuel' (firstn n2 a)) (pairwise_sum fuel' (skipn n2 a))
    end.

Definition cpython : PyLib := {|
  float_of_str := read_float;
  float_repr := write_float;
  to_numeric_str := read_float;
  group_sum := kahan_sum;
  series_sum := fun l => pairwise_sum (length l) (map fillna0 l)
|}.

(* ================================================================== *)
(** * What the proofs ask of the character database *)

(** The characters [str.lower] may put in place of [c]. *)
Definition lowered (U : UCD) (c : cp) : list cp :=
  if cp_eqb c 931%N then [962%N; 963%N] else lower_full U c.

(** The space character is an inert white space, and a word character
    that comes out of lower-casing and decomposition is left alone by
    both: it is its own lower case, its own decomposition, and a starter. *)
Record norm_laws (U : UCD) : Prop := {
  space_is_space : is_space U 32%N = true;
  space_lower : lower_full U 32%N = [32%N];
  space_decomp : decomp U 32%N = [32%N];
  space_ccc : ccc U 32%N = 0%N;
  space_not_Mn : is_Mn U 32%N = false;
  word_stable :
    forall c e d,
      In e (lowered U c) -> In d (decomp U e) -> class_w U d = true ->
      lower_full U d = [d] /\ d <> 931%N /\ decomp U d = [d] /\ ccc U d = 0%N
}.

(** White space and decimal digits are neither letters [a-z] nor one of
    the marks [.], [-], [/], and no white space is a digit. *)
Definition plain (c : cp) : Prop :=
  class_az c = false /\ c <> 46%N /\ c <> 45%N /\ c <> 47%N.

Record re_laws (U : UCD) : Prop := {
  space_plain : forall c, is_space U c = true -> plain c /\ decimal U c = None;
  digit_plain : forall c v, decimal U c = Some v -> plain c
}.

(* ================================================================== *)
(** * Sample sheets *)

Definition amount (z : Z) : cell := CNum (float_of_Z z).

Definition sheet_row (c e p : string) (t m h s a : cell) : raw_record :=
  {| rCliente := Some (py c);
     rEmisora := Some (py e);
     rTipo := Some (py "Empresa");
     rPeriodo := Some (py p);
     rTotal := t; rMovil := m; rHogar := h; rServ := s; rAjuste := a |}.

(** Two months, three clients, an empty cell and a cell with text in the
    numeric columns. *)
Definition demo_sheet : list raw_record :=
  [ sheet_row "ACME Corp" "Norte" "Jun-2025"
      (amount 1000) (amount 600) (amount 300) (amount 100) (amount 0);
    sheet_row "Beta SA" "Sur" "Jun-2025"
      (amount 800) (amount 500) (amount 300) CEmpty (amount 0);
    sheet_row "ACME Corp" "Norte" "Jul-2025"
      (amount 1500) (amount 900) (amount 400) (amount 200) (amount 0);
    sheet_row "Beta SA" "Sur" "Jul-2025"
      (CText (py "n/a")) (amount 400) (amount 300) (amount 0) (amount 0);
    sheet_row "Gamma" "Norte" "Jul-2025"
      (amount 250) (amount 250) CEmpty CEmpty CEmpty ].

(** A sheet with a period label that is not a month. *)
Definition mixed_sheet : list raw_record :=
  [ sheet_row "ACME Corp" "Norte" "Jun-2025"
      (amount 1000) (amount 600) (amount 300) (amount 100) (amount 0);
    sheet_row "ACME Corp" "Norte" "Jul-2025"
      (amount 1500) (amount 900) (amount 400) (amount 200) (amount 0);
    sheet_row "ACME Corp" "Norte" "garbage"
      (amount 70) (amount 40) (amount 20) (amount 10) (amount 0) ].

(** A sheet none of whose period labels is a month. *)
Definition unparseable_sheet : list raw_record :=
  [ sheet_row "ACME Corp" "Norte" "garbage"
      (amount 70) (amount 40) (amount 20) (amount 10) (amount 0) ].

Definition demo_now : pystr := py "2025-08-01 10:00:00".

Definition demo : state := load_data latin1 cpython demo_sheet demo_now.
Definition mixed : state := load_data latin1 cpython mixed_sheet demo_now.
Definition unparseable : state := load_data latin1 cpython unparseable_sheet demo_now.

(* ================================================================== *)
(** * Notions used in the statements *)

(** An ASCII digit. *)
Definition is_digit (c : cp) : Prop := (48 <= c <= 57)%N.

(** What the three replacements of [swap_separators] do to a character
    other than [X]. *)
Definition swap_char (c : cp) : cp :=
  if cp_eqb c 44%N then 46%N else if cp_eqb c 46%N then 44%N else c.

(** The fixed-point rendering of [scaled / 10^d], with the ES/AR
    separators. *)
Definition es_ar_digits (sign : bool) (scaled : N) (d : nat) : pystr :=
  let ds := zfill (S d) (str_of_N scaled) in
  (if sign then py "-" else [])
  ++ group_thousands 46%N (firstn (length ds - d) ds)
  ++ (if Nat.eqb d 0 then [] else py "," ++ skipn (length ds - d) ds).


(** Both rows have a key and the keys are in order. *)
Definition key_le (A K : Type) (leb : K -> K -> bool) (key : A -> option K)
    (x y : A) : Prop :=
  match key x, key y with
  | Some a, Some b => leb a b = true
  | _, _ => False
  end.

(** The slot of key [k] in an accumulator of [groupby_sum]. *)
Fixpoint slot (K V : Type) (cmp : K -> K -> comparison) (k : K)
    (acc : list (K * V)) : option V :=
  match acc with
  | [] => None
  | (k', a) :: rest =>
      match cmp k k' with
      | Eq => Some a
      | _ => slot cmp k rest
      end
  end.

(** The values of the rows of group [k], in row order. *)
Definition group_vals (K V R : Type) (cmp : K -> K -> comparison)
    (keyf : R -> option K) (valf : R -> V) (k : K) (rows : list R) : list V :=
  map valf
    (filter (fun r => match keyf r with
                      | Some k' => match cmp k k' with Eq => true | _ => false end
                      | None => false
                      end) rows).

(** The laws of a comparison that decides a strict total order. *)
Record order_laws (K : Type) (cmp : K -> K -> comparison) : Prop := {
  cmp_eq : forall a b, cmp a b = Eq <-> a = b;
  cmp_gt : forall a b, cmp a b = Gt -> cmp b a = Lt;
  cmp_trans : forall a b c, cmp a b = Lt -> cmp b c = Lt -> cmp a c = Lt
}.

(** The keys of two slots are in strictly increasing order. *)
Definition slot_lt (K V : Type) (cmp : K -> K -> comparison) (a b : K * V) : Prop :=
  cmp (fst a) (fst b) = Lt.

(** A character that normalisation leaves as it is: the space, or a word
    character that is its own lower case and decomposition. *)
Definition settled (U : UCD) (d : cp) : Prop :=
  d = 32%N
  \/ (is_space U d = false /\ class_w U d = true /\ is_Mn U d = false
      /\ lower_full U d = [d] /\ d <> 931%N /\ decomp U d = [d] /\ ccc U d = 0%N).

(** Every white space of the string is a single space character;
    [prev_space] tells whether the character before the string is one. *)
Fixpoint tidy_from (U : UCD) (prev_space : bool) (s : pystr) : Prop :=
  match s with
  | [] => True
  | c :: s' =>
      if is_space U c then c = 32%N /\ prev_space = false /\ tidy_from U true s'
      else tidy_from U false s'
  end.

(** The string does not start with white space. *)
Definition head_ok (U : UCD) (s : pystr) : Prop :=
  match s with
  | [] => True
  | c :: _ => is_space U c = false
  end.

(** The code points below [n]. *)
Definition code_points (n : nat) : list cp := map N.of_nat (seq 0 n).

(** [word_stable] for the decomposition of one character of [latin1], as
    a test. *)
Definition stable_b (d : cp) : bool :=
  negb (mem d latin1_upper) && negb (N.eqb d 931)
  && match assoc_list d latin1_decomp with Some _ => false | None => true end
  && N.eqb (class_of d marks_ccc) 0.

Definition decomp_stable_b (e : cp) : bool :=
  forallb (fun d => negb (class_w latin1 d) || stable_b d) (decomp latin1 e).

Definition plain_b (c : cp) : bool :=
  negb (class_az c) && negb (N.eqb c 46) && negb (N.eqb c 45) && negb (N.eqb c 47).

(** The quantifier [{lo,hi}] allows [n] repetitions. *)
Definition within (limit : option nat) (n : nat) : Prop :=
  match limit with
  | None => True
  | Some h => n <= h
  end.

(** The string is empty or starts with a character outside the class. *)
Definition starts_outside (f : cp -> bool) (s : pystr) : Prop :=
  match s with
  | [] => True
  | c :: _ => f c = false
  end.

(** The database gives the ASCII digits their value. *)
Definition ascii_digits (U : UCD) : Prop :=
  forall c, is_digit c -> decimal U c = Some (c - 48)%N.

(** A frame in the order of [sort_values(col, ascending=False)]: the rows
    whose value is a number come first, each at least as large as the rows
    after it, and the rows whose value is NaN come last. *)
Definition ranked_desc (A : Type) (val : A -> float) (l : list A) : Prop :=
  exists ranked rest,
    l = ranked ++ rest
    /\ StronglySorted (fun a b => fleb (val b) (val a) = true) ranked
    /\ (forall r, In r ranked -> is_nan (val r) = false)
    /\ (forall r, In r rest -> is_nan (val r) = true).

(* ================================================================== *)
(** * Locating the workbook: [resolve_excel_path] *)

(** What the program takes from [pathlib] and from the file system. *)
Record FileSystem := {
  path : Type;
  Path : pystr -> path;                (* Path(s) *)
  joinpath : path -> pystr -> path;    (* p / name *)
  path_str : path -> pystr;            (* str(p) *)
  path_exists : path -> bool;          (* p.exists() *)
  cwd : path                           (* Path.cwd() *)
}.

(** The outcome of [resolve_excel_path]: the path it returns or the message
    of the [FileNotFoundError] it raises. *)
Inductive resolved (P : Type) :=
  | Found (p : P)
  | FileNotFoundError (msg : pystr).

Arguments Found {P} p.
Arguments FileNotFoundError {P} msg.

Section Resolve.

Variable U : UCD.
Variable FS : FileSystem.

Definition DEFAULT_EXCEL_NAME : pystr := py "Analisis_Ventas_TELCO_Demo.xlsx".

(** [os.getenv("EXCEL_PATH", "").strip()]; [env] is the value of the
    variable, [None] when it is not set. *)
Definition EXCEL_ENV (env : option pystr) : pystr :=
  str_strip U (match env with Some s => s | None => [] end).

(** [here] is the directory of the program. *)
Definition candidates (env : option pystr) (here : path FS) : list (path FS) :=
  (match EXCEL_ENV env with
   | [] => []
   | s => [Path FS s]
   end)
  ++ [ joinpath FS here DEFAULT_EXCEL_NAME;
       joinpath FS (joinpath FS here (py "data")) DEFAULT_EXCEL_NAME;
       joinpath FS (cwd FS) DEFAULT_EXCEL_NAME ].

Definition resolve_excel_path (env : option pystr) (here : path FS) :
    resolved (path FS) :=
  let cands := candidates env here in
  match find (path_exists FS) cands with
  | Some c => Found c
  | None =>
      FileNotFoundError
        (py "No se encontró el Excel." ++ [10%N] ++ py "Probé:" ++ [10%N] ++ py "- "
         ++ str_join ([10%N] ++ py "- ") (map (path_str FS) cands)
         ++ [10%N]
         ++ py "Soluciones: setea EXCEL_PATH en .env o copiá el archivo junto al py_server.py o en ./data/")
  end.

End Resolve.

(** A file system whose paths are strings and whose only file is the
    workbook in [/srv/app/data]. *)
Definition one_file_fs : FileSystem :=
  {| path := pystr;
     Path := fun s => s;
     joinpath := fun p name => p ++ py "/" ++ name;
     path_str := fun p => p;
     path_exists :=
       fun p => str_eqb p (py "/srv/app/data/Analisis_Ventas_TELCO_Demo.xlsx");
     cwd := py "/home/user" |}.

(** All the rows that have a period label have the same one. *)
Definition one_period (df : list record) : Prop :=
  forall r r' p p',
    In r df -> In r' df -> Periodo r = Some p -> Periodo r' = Some p' -> p = p'.

(** A frame whose column of totals is all integers, hence int64: two rows
    of one client, in one period, of [2^62] each. *)
Definition big_int_frame : list (record_of Z) :=
  [ {| Cliente := Some (py "ACME Corp"); Emisora := Some (py "Norte");
       Tipo := Some (py "Empresa"); Periodo := Some (py "Jul-2025");
       Total := (2 ^ 62)%Z; Movil := 0%Z; Hogar := 0%Z; Serv := 0%Z;
       Ajuste := 0%Z |};
    {| Cliente := Some (py "ACME Corp"); Emisora := Some (py "Norte");
       Tipo := Some (py "Empresa"); Periodo := Some (py "Jul-2025");
       Total := (2 ^ 62)%Z; Movil := 0%Z; Hogar := 0%Z; Serv := 0%Z;
       Ajuste := 0%Z |} ].

(** The four tables are the caches of the record set. *)
Definition coherent (U : UCD) (L : PyLib) (st : state) : Prop :=
  (G_BY_PERIOD st, G_BY_EMISORA st, G_SERVICES st, TOP_CLIENTS st)
  = _build_caches U (float64 L) (DF st).

(* ================================================================== *)
(** * Proofs *)

(* ================================================================== *)
(** * Numerals *)


Lemma digits_rev_digits fuel n : Forall is_digit (digits_rev fuel n).
Proof.
  revert n; induction fuel as [|fuel IH]; intros n; cbn [digits_rev].
  - constructor.
  - destruct (N.ltb_spec n 10).
    + constructor; [unfold is_digit; lia | constructor].
    + constructor; [|apply IH].
      unfold is_digit. assert (Hm : (n mod 10 < 10)%N) by (apply N.mod_upper_bound; discriminate).
      revert Hm. generalize (n mod 10)%N. intros; lia.
Qed.

Lemma str_of_N_digits n : Forall is_digit (str_of_N n).
Proof.
  unfold str_of_N. apply Forall_rev, digits_rev_digits.
Qed.

Lemma zfill_digits w s : Forall is_digit s -> Forall is_digit (zfill w s).
Proof.
  intros H. unfold zfill. apply Forall_app; split; [|exact H].
  apply Forall_forall. intros c Hc. apply repeat_spec in Hc. subst.
  unfold is_digit; lia.
Qed.

Lemma zfill_length w s : w <= length (zfill w s).
Proof.
  unfold zfill. rewrite length_app, repeat_length. lia.
Qed.

Lemma Forall_firstn_skipn (A : Type) (P : A -> Prop) n (l : list A) :
  Forall P l -> Forall P (firstn n l) /\ Forall P (skipn n l).
Proof.
  intros H. rewrite <- (firstn_skipn n l) in H. apply Forall_app in H. exact H.
Qed.

(** ** Swapping the separators *)


Lemma str_replace_map a b s :
  str_replace a [b] s = map (fun c => if cp_eqb c a then b else c) s.
Proof.
  unfold str_replace. induction s as [|c s IH]; simpl; [reflexivity|].
  rewrite IH. destruct (cp_eqb c a); reflexivity.
Qed.

Lemma swap_separators_map s :
  ~ In 88%N s -> swap_separators s = map swap_char s.
Proof.
  intros HX. unfold swap_separators.
  change (py "X") with [88%N]. change (py ",") with [44%N]. change (py ".") with [46%N].
  rewrite !str_replace_map, !map_map.
  apply map_ext_in. intros c Hc.
  assert (c <> 88%N) by (intros ->; contradiction).
  unfold swap_char, cp_eqb.
  destruct (N.eqb_spec c 44); [subst; reflexivity|].
  destruct (N.eqb_spec c 46); [subst; reflexivity|].
  destruct (N.eqb_spec c 88); [contradiction|reflexivity].
Qed.

Lemma swap_char_digit c : is_digit c -> swap_char c = c.
Proof.
  unfold is_digit, swap_char, cp_eqb. intros H.
  destruct (N.eqb_spec c 44); [lia|]. destruct (N.eqb_spec c 46); [lia|]. reflexivity.
Qed.

Lemma map_swap_digits s : Forall is_digit s -> map swap_char s = s.
Proof.
  induction 1 as [|c s Hc _ IH]; simpl; [reflexivity|].
  rewrite IH, swap_char_digit by assumption. reflexivity.
Qed.

Lemma group3_go_swap l n :
  Forall is_digit l ->
  map swap_char (group3_go 44%N l n) = group3_go 46%N l n.
Proof.
  intros H; revert n; induction H as [|c l Hc _ IH]; intros n; cbn [group3_go map];
    [reflexivity|].
  destruct (Nat.eqb n 3); cbn [map]; rewrite IH, (swap_char_digit Hc); reflexivity.
Qed.

Lemma group3_swap ds :
  Forall is_digit ds -> map swap_char (group3 ds) = group_thousands 46%N ds.
Proof.
  intros H. unfold group3, group_thousands.
  rewrite map_rev, group3_go_swap; [reflexivity | apply Forall_rev, H].
Qed.

Lemma group3_go_chars sep l n c :
  In c (group3_go sep l n) -> c = sep \/ In c l.
Proof.
  revert n; induction l as [|x l IH]; intros n; simpl; [tauto|].
  destruct (Nat.eqb n 3); simpl; intros H.
  - destruct H as [H|[H|H]]; auto. apply IH in H; tauto.
  - destruct H as [H|H]; auto. apply IH in H; tauto.
Qed.

Lemma digit_not_X s : Forall is_digit s -> ~ In 88%N s.
Proof.
  intros H HX. rewrite Forall_forall in H. apply H in HX. unfold is_digit in HX. lia.
Qed.

Lemma swap_fixed_digits sign scaled d :
  swap_separators (fixed_digits sign scaled d) = es_ar_digits sign scaled d.
Proof.
  unfold fixed_digits, es_ar_digits.
  set (ds := zfill (S d) (str_of_N scaled)).
  assert (Hds : Forall is_digit ds) by (apply zfill_digits, str_of_N_digits).
  destruct (Forall_firstn_skipn (length ds - d) Hds) as [Hi Hf].
  rewrite swap_separators_map.
  - rewrite !map_app, (group3_swap Hi).
    f_equal; [destruct sign; reflexivity|]. f_equal.
    destruct (Nat.eqb d 0); [reflexivity|].
    rewrite map_app, (map_swap_digits Hf). reflexivity.
  - intros HX. rewrite !in_app_iff in HX. destruct HX as [HX|[HX|HX]].
    + destruct sign; simpl in HX; [destruct HX as [HX|[]]; discriminate | contradiction].
    + unfold group3, group_thousands in HX. rewrite <- in_rev in HX.
      apply group3_go_chars in HX. destruct HX as [HX|HX]; [discriminate|].
      rewrite <- in_rev in HX. revert HX. apply digit_not_X. assumption.
    + destruct (Nat.eqb d 0); [contradiction|].
      apply in_app_iff in HX. destruct HX as [HX|HX].
      * simpl in HX. destruct HX as [HX|[]]; discriminate.
      * revert HX. apply digit_not_X. assumption.
Qed.

Lemma es_ar_fraction_length scaled d :
  let ds := zfill (S d) (str_of_N scaled) in
  length (skipn (length ds - d) ds) = d /\ 1 <= length (firstn (length ds - d) ds)
  /\ Forall is_digit ds.
Proof.
  intros ds. pose proof (zfill_length (S d) (str_of_N scaled)) as H. fold ds in H.
  rewrite length_skipn, length_firstn. repeat split; try lia.
  apply zfill_digits, str_of_N_digits.
Qed.

(** ** The formatters *)

Lemma fmt_currency_float L v x d :
  py_float L v = Some x ->
  _fmt_currency L v d = py "$ " ++ swap_separators (format_f x d).
Proof. intros H. unfold _fmt_currency. rewrite H. reflexivity. Qed.

Lemma fmt_percent_float L v x d :
  py_float L v = Some x ->
  _fmt_percent L v d = swap_separators (format_f (fmul x (float_of_Z 100)) d) ++ py " %".
Proof. intros H. unfold _fmt_percent. rewrite H. reflexivity. Qed.

(** C8. Currency formatting renders the value with the requested number of
    decimals and thousands grouping, with [.] between thousands, [,] before
    the decimals and the prefix ["$ "]; percent formatting does the same to
    the value times 100 and appends [" %"];
    [_fmt_currency(1234567.8) = "$ 1.234.567,80"] and
    [_fmt_percent(0.1) = "10,00 %"]; an input that [float] rejects is
    returned as its [str]. *)
Theorem fmt_currency_percent_spec (L : PyLib) :
  _fmt_currency L (VFloat (dec_float 12345678 (-1))) 2 = py "$ 1.234.567,80"
  /\ _fmt_percent L (VFloat (dec_float 1 (-1))) 2 = py "10,00 %"
  /\ (forall v x d,
        py_float L v = Some x ->
        _fmt_currency L v d = py "$ " ++ swap_separators (format_f x d)
        /\ _fmt_percent L v d
           = swap_separators (format_f (fmul x (float_of_Z 100)) d) ++ py " %")
  /\ (forall s m e d,
        swap_separators (format_f (S754_finite s m e) d)
        = es_ar_digits s (scaled_abs m e d) d
        /\ let ds := zfill (S d) (str_of_N (scaled_abs m e d)) in
           length (skipn (length ds - d) ds) = d
           /\ 1 <= length (firstn (length ds - d) ds)
           /\ Forall is_digit ds)
  /\ (forall v d,
        py_float L v = None ->
        _fmt_currency L v d = py_str L v /\ _fmt_percent L v d = py_str L v).
Proof.
  split; [vm_compute; reflexivity|].
  split; [vm_compute; reflexivity|].
  split.
  { intros v x d H. split; [apply fmt_currency_float | apply fmt_percent_float]; exact H. }
  split.
  { intros s m e d. split.
    - cbn [format_f]. apply swap_fixed_digits.
    - apply es_ar_fraction_length. }
  intros v d H. unfold _fmt_currency, _fmt_percent. rewrite H. split; reflexivity.
Qed.

Lemma fmt_currency_percent_witness :
  py_float cpython (VStr (py "s/d")) = None
  /\ _fmt_currency cpython (VStr (py "s/d")) 2 = py "s/d"
  /\ _fmt_percent cpython VNone 2 = py "None"
  /\ _fmt_currency cpython (VStr (py "1234567.8")) 2 = py "$ 1.234.567,80".
Proof.
  split; [reflexivity|].
  split.
  - apply (proj2 (proj2 (proj2 (proj2 (fmt_currency_percent_spec cpython))))
             (VStr (py "s/d")) 2).
    reflexivity.
  - split.
    + apply (proj2 (proj2 (proj2 (proj2 (fmt_currency_percent_spec cpython)))) VNone 2).
      reflexivity.
    + apply (proj1 (proj2 (proj2 (fmt_currency_percent_spec cpython)))
               (VStr (py "1234567.8")) (dec_float 12345678 (-1)) 2).
      vm_compute. reflexivity.
Defined.

(* ------------------------------------------------------------------ *)
(** ** [sort_values] *)

Section SortFacts.

Variables (A K : Type).
Variable leb : K -> K -> bool.
Variable key : A -> option K.

Hypothesis leb_total : forall a b, leb a b = false -> leb b a = true.
Hypothesis leb_trans : forall a b c, leb a b = true -> leb b c = true -> leb a c = true.

Lemma insert_sorted_perm x kx l :
  Permutation (insert_sorted leb key x kx l) (x :: l).
Proof.
  induction l as [|y l IH]; cbn [insert_sorted]; [reflexivity|].
  destruct (key y) as [ky|]; [|reflexivity].
  destruct (leb kx ky); [reflexivity|].
  rewrite IH. apply perm_swap.
Qed.

Lemma sort_keyed_perm l :
  Permutation (sort_keyed leb key l) (filter (has_key key) l).
Proof.
  induction l as [|x l IH]; cbn [sort_keyed filter]; [reflexivity|].
  unfold has_key at 1. destruct (key x) as [kx|]; [|exact IH].
  rewrite insert_sorted_perm. constructor. exact IH.
Qed.

Lemma filter_split (f : A -> bool) l :
  Permutation (filter f l ++ filter (fun x => negb (f x)) l) l.
Proof.
  induction l as [|x l IH]; cbn [filter]; [reflexivity|].
  destruct (f x); cbn [negb app].
  - constructor. exact IH.
  - rewrite <- Permutation_middle. constructor. exact IH.
Qed.

Lemma sort_values_perm l : Permutation (sort_values leb key l) l.
Proof.
  unfold sort_values. rewrite sort_keyed_perm. apply filter_split.
Qed.

Lemma sort_values_length l : length (sort_values leb key l) = length l.
Proof. apply Permutation_length, sort_values_perm. Qed.

Lemma sort_values_In l x : In x (sort_values leb key l) <-> In x l.
Proof.
  split; apply Permutation_in; [|symmetry]; apply sort_values_perm.
Qed.

Lemma sort_keyed_has_key l x : In x (sort_keyed leb key l) -> has_key key x = true.
Proof.
  intros H. apply (Permutation_in _ (sort_keyed_perm l)) in H.
  apply filter_In in H. tauto.
Qed.

Lemma insert_sorted_sorted x kx l :
  key x = Some kx ->
  (forall y, In y l -> has_key key y = true) ->
  StronglySorted (key_le leb key) l ->
  StronglySorted (key_le leb key) (insert_sorted leb key x kx l).
Proof.
  intros Hx Hk Hs. induction Hs as [|y l Hs IH Hy]; cbn [insert_sorted].
  - repeat constructor.
  - assert (Hky : has_key key y = true) by (apply Hk; left; reflexivity).
    unfold has_key in Hky. destruct (key y) as [ky|] eqn:Ey; [|discriminate].
    destruct (leb kx ky) eqn:Hle.
    + constructor; [constructor; assumption|].
      constructor.
      * unfold key_le. rewrite Hx, Ey. exact Hle.
      * rewrite Forall_forall in *. intros z Hz. specialize (Hy z Hz).
        unfold key_le in *. rewrite Hx. rewrite Ey in Hy.
        destruct (key z) as [kz|]; [|contradiction]. eapply leb_trans; eassumption.
    + constructor.
      * apply IH. intros z Hz. apply Hk. right. exact Hz.
      * rewrite Forall_forall in *. intros z Hz.
        apply (Permutation_in _ (insert_sorted_perm x kx l)) in Hz.
        destruct Hz as [<-|Hz]; [|apply Hy, Hz].
        unfold key_le. rewrite Ey, Hx. apply leb_total, Hle.
Qed.

Lemma sort_keyed_sorted l : StronglySorted (key_le leb key) (sort_keyed leb key l).
Proof.
  induction l as [|x l IH]; cbn [sort_keyed]; [constructor|].
  destruct (key x) as [kx|] eqn:Ex; [|exact IH].
  apply insert_sorted_sorted; [exact Ex | apply sort_keyed_has_key | exact IH].
Qed.

(** When every row has a key, the sorted frame is in key order. *)
Lemma sort_values_all_keyed l :
  (forall x, In x l -> has_key key x = true) ->
  sort_values leb key l = sort_keyed leb key l.
Proof.
  intros H. unfold sort_values.
  replace (filter (fun x => negb (has_key key x)) l) with (@nil A);
    [apply app_nil_r|].
  symmetry. induction l as [|x l IH]; cbn [filter]; [reflexivity|].
  rewrite (H x (or_introl eq_refl)). cbn [negb]. apply IH.
  intros y Hy. apply H. right. exact Hy.
Qed.

(** A row without key is followed by rows without key only: the last row
    of the sorted frame has a key only if every row has one. *)
Lemma sort_values_last_keyed l front p :
  sort_values leb key l = front ++ [p] ->
  has_key key p = true ->
  forall x, In x l -> has_key key x = true.
Proof.
  unfold sort_values. intros E Hp x Hx.
  destruct (has_key key x) eqn:Hkx; [reflexivity|exfalso].
  assert (Hin : In x (filter (fun x => negb (has_key key x)) l)).
  { apply filter_In. rewrite Hkx. split; [exact Hx|reflexivity]. }
  destruct (exists_last (l := filter (fun x => negb (has_key key x)) l)) as (u & z & Eu).
  { intros E0. rewrite E0 in Hin. exact Hin. }
  rewrite Eu, app_assoc in E. apply app_inj_tail in E. destruct E as [_ ->].
  assert (Hz : In p (filter (fun x => negb (has_key key x)) l))
    by (rewrite Eu; apply in_or_app; right; left; reflexivity).
  apply filter_In in Hz. rewrite Hp in Hz. destruct Hz; discriminate.
Qed.

End SortFacts.

(** A list of two or more rows ends with two rows. *)
Lemma last_two (A : Type) (l : list A) :
  2 <= length l -> exists front q p, l = front ++ [q; p].
Proof.
  intros H.
  destruct (exists_last (l := l)) as (l1 & p & ->); [intros ->; cbn in H; lia|].
  rewrite length_app in H. cbn in H.
  destruct (exists_last (l := l1)) as (front & q & ->); [intros ->; cbn in H; lia|].
  exists front, q, p. rewrite <- app_assoc. reflexivity.
Qed.

Lemma rev_last_two (A : Type) (front : list A) q p :
  rev (front ++ [q; p]) = p :: q :: rev front.
Proof. rewrite rev_app_distr. reflexivity. Qed.

(* ------------------------------------------------------------------ *)
(** ** Month-over-month comparison *)

Lemma StronglySorted_app_inv (A : Type) (R : A -> A -> Prop) l1 l2 :
  StronglySorted R (l1 ++ l2) ->
  StronglySorted R l2 /\ forall x y, In x l1 -> In y l2 -> R x y.
Proof.
  induction l1 as [|a l1 IH]; cbn [app]; intros H.
  - split; [exact H | intros x y []].
  - apply StronglySorted_inv in H. destruct H as [H Ha].
    destruct (IH H) as [H2 H12]. split; [exact H2|].
    intros x y [<-|Hx] Hy.
    + rewrite Forall_forall in Ha. apply Ha, in_or_app. right. exact Hy.
    + apply H12; assumption.
Qed.

Lemma N_leb_total a b : N.leb a b = false -> N.leb b a = true.
Proof. rewrite N.leb_gt, N.leb_le. lia. Qed.

Lemma N_leb_trans a b c : N.leb a b = true -> N.leb b c = true -> N.leb a c = true.
Proof. rewrite !N.leb_le. lia. Qed.

Lemma has_key_iff (A K : Type) (key : A -> option K) x :
  has_key key x = true <-> key x <> None.
Proof. unfold has_key. destruct (key x); split; congruence. Qed.

Lemma var_pct_zero cur prev :
  var_pct cur prev =
  if feqb prev fzero then VInt 0 else VFloat (fdiv (fsub cur prev) prev).
Proof. unfold var_pct. destruct (feqb prev fzero); reflexivity. Qed.

(** The row [_mom_simple] builds from the last two rows [q], [p] of the
    sorted frame. *)
Lemma mom_simple_rows (U : UCD) (df : list (pystr * float)) front q p :
  sort_by_period U df = front ++ [q; p] ->
  _mom_simple U df =
    Some {| Periodo_Actual := fst p;
            Total_Actual := snd p;
            Periodo_Anterior := fst q;
            Total_Anterior := snd q;
            Var_Abs := fsub (snd p) (snd q);
            Var_pct := var_pct (snd p) (snd q) |}.
Proof.
  intros E. unfold _mom_simple. rewrite E, rev_last_two.
  rewrite length_app. cbn [length].
  replace (length front + 2 <? 2) with false; [reflexivity|].
  symmetry. apply Nat.ltb_ge. lia.
Qed.

(** In a frame all of whose labels parse, the sorted rows are in the order
    of their period keys. *)
Lemma sort_by_period_chronological (U : UCD) (A : Type)
    (df : list (pystr * A)) front q p :
  sort_by_period U df = front ++ [q; p] ->
  (forall r, In r df -> period_key U r <> None) ->
  exists kq kp,
    period_key U q = Some kq /\ period_key U p = Some kp /\ (kq <= kp)%N
    /\ forall r, In r front -> exists k, period_key U r = Some k /\ (k <= kq)%N.
Proof.
  intros E Hall. unfold sort_by_period in E.
  rewrite sort_values_all_keyed in E
    by (intros x Hx; apply has_key_iff, Hall, Hx).
  pose proof (@sort_keyed_sorted _ _ N.leb (@period_key U A) N_leb_total N_leb_trans df) as Hs.
  rewrite E in Hs. apply StronglySorted_app_inv in Hs. destruct Hs as [Hqp Hf].
  apply StronglySorted_inv in Hqp. destruct Hqp as [_ Hq].
  apply Forall_inv in Hq. unfold key_le in Hq.
  destruct (period_key U q) as [kq|] eqn:Eq; [|contradiction].
  destruct (period_key U p) as [kp|] eqn:Ep; [|contradiction].
  exists kq, kp. repeat split; [apply N.leb_le, Hq|].
  intros r Hr. specialize (Hf r q Hr (or_introl eq_refl)).
  unfold key_le in Hf. rewrite Eq in Hf.
  destruct (period_key U r) as [k|]; [|contradiction].
  exists k. split; [reflexivity | apply N.leb_le, Hf].
Qed.

(** C7. [_mom_simple] returns [None] on fewer than two rows.  On two rows
    or more it sorts them by period key and takes the last row as current
    and the one before as previous (the rows of greatest keys when the
    labels parse); the absolute variation is [cur - prev], the relative
    one [(cur - prev) / prev], and 0 when the previous total is 0. *)
Theorem mom_simple_spec (U : UCD) (df : list (pystr * float)) :
  (length df < 2 -> _mom_simple U df = None)
  /\ (2 <= length df ->
      exists front q p,
        sort_by_period U df = front ++ [q; p]
        /\ Permutation (front ++ [q; p]) df
        /\ _mom_simple U df =
             Some {| Periodo_Actual := fst p;
                     Total_Actual := snd p;
                     Periodo_Anterior := fst q;
                     Total_Anterior := snd q;
                     Var_Abs := fsub (snd p) (snd q);
                     Var_pct :=
                       if feqb (snd q) fzero then VInt 0
                       else VFloat (fdiv (fsub (snd p) (snd q)) (snd q)) |}
        /\ ((forall r, In r df -> period_key U r <> None) ->
            exists kq kp,
              period_key U q = Some kq /\ period_key U p = Some kp
              /\ (kq <= kp)%N
              /\ forall r, In r front ->
                   exists k, period_key U r = Some k /\ (k <= kq)%N)).
Proof.
  split.
  - intros H. unfold _mom_simple, sort_by_period.
    rewrite sort_values_length.
    apply Nat.ltb_lt in H. rewrite H. reflexivity.
  - intros H.
    destruct (@last_two _ (sort_by_period U df)) as (front & q & p & E).
    { unfold sort_by_period. rewrite sort_values_length. exact H. }
    exists front, q, p. split; [exact E|]. split.
    { rewrite <- E. apply sort_values_perm. }
    split.
    { erewrite mom_simple_rows by exact E. rewrite var_pct_zero. reflexivity. }
    eapply sort_by_period_chronological. exact E.
Qed.

Lemma mom_simple_witness :
  exists front q p,
    sort_by_period latin1
      [(py "Jul-2025", float_of_Z 1500); (py "Jun-2025", float_of_Z 1000)]
    = front ++ [q; p]
    /\ fst p = py "Jul-2025" /\ fst q = py "Jun-2025"
    /\ _mom_simple latin1
         [(py "Jul-2025", float_of_Z 1500); (py "Jun-2025", float_of_Z 1000)]
       = Some {| Periodo_Actual := py "Jul-2025";
                 Total_Actual := float_of_Z 1500;
                 Periodo_Anterior := py "Jun-2025";
                 Total_Anterior := float_of_Z 1000;
                 Var_Abs := float_of_Z 500;
                 Var_pct := VFloat (dec_float 5 (-1)) |}.
Proof.
  assert (Hlen : 2 <= length
            [(py "Jul-2025", float_of_Z 1500); (py "Jun-2025", float_of_Z 1000)])
    by (cbn [length]; lia).
  destruct (proj2 (mom_simple_spec latin1
              [(py "Jul-2025", float_of_Z 1500); (py "Jun-2025", float_of_Z 1000)])
              Hlen)
    as (front & q & p & E & _ & Hm & _).
  exists front, q, p. split; [exact E|].
  assert (E' : [(py "Jun-2025", float_of_Z 1000); (py "Jul-2025", float_of_Z 1500)]
               = front ++ [q; p]).
  { rewrite <- E. vm_compute. reflexivity. }
  destruct front as [|a [|b front]]; cbn [app] in E'.
  - injection E' as <- <-. split; [reflexivity|]. split; [reflexivity|].
    rewrite Hm. vm_compute. reflexivity.
  - discriminate E'.
  - destruct front; discriminate E'.
Defined.

(* ------------------------------------------------------------------ *)
(** ** [groupby_sum] *)

Section GroupByFacts.

Variables (K V R : Type).
Variable cmp : K -> K -> comparison.
Variable add : V -> V -> V.
Variable zero : V.
Variable keyf : R -> option K.
Variable valf : R -> V.

Hypothesis laws : order_laws cmp.

Local Abbreviation key_lt := (@slot_lt K V cmp).
Local Abbreviation step := (gb_step cmp add zero keyf valf).

Lemma cmp_refl k : cmp k k = Eq.
Proof. apply (cmp_eq laws). reflexivity. Qed.

Lemma cmp_lt_neq a b : cmp a b = Lt -> cmp b a = Gt.
Proof.
  intros H. destruct (cmp b a) eqn:E; [| |reflexivity].
  - apply (cmp_eq laws) in E. subst. rewrite cmp_refl in H. discriminate.
  - pose proof (cmp_trans laws _ _ _ H E) as H1. rewrite cmp_refl in H1. discriminate.
Qed.

(** Below the first key of a sorted accumulator there is no slot. *)
Lemma slot_below k acc :
  StronglySorted key_lt acc ->
  (forall x, In x acc -> cmp k (fst x) = Lt) ->
  slot cmp k acc = None.
Proof.
  induction acc as [|[k' a] acc IH]; intros Hs Hlt; cbn [slot]; [reflexivity|].
  pose proof (Hlt (k', a) (or_introl eq_refl)) as H0. cbn [fst] in H0. rewrite H0.
  apply IH; [apply StronglySorted_inv in Hs; tauto|].
  intros x Hx. apply Hlt. right. exact Hx.
Qed.

Lemma gb_add_In k v acc x :
  In x (gb_add cmp add zero k v acc) ->
  fst x = k \/ exists y, In y acc /\ fst y = fst x.
Proof.
  induction acc as [|[k' a] acc IH]; cbn [gb_add].
  - intros [<-|[]]. left. reflexivity.
  - destruct (cmp k k') eqn:E.
    + intros [<-|H].
      * right. exists (k', a). split; [left; reflexivity|reflexivity].
      * right. exists x. split; [right; exact H|reflexivity].
    + intros [<-|H]; [left; reflexivity|].
      right. exists x. split; [exact H|reflexivity].
    + intros [<-|H].
      * right. exists (k', a). split; [left; reflexivity|reflexivity].
      * apply IH in H. destruct H as [H|(y & Hy & Ey)]; [left; exact H|].
        right. exists y. split; [right; exact Hy|exact Ey].
Qed.

Lemma gb_add_sorted k v acc :
  StronglySorted key_lt acc ->
  StronglySorted key_lt (gb_add cmp add zero k v acc).
Proof.
  intros Hs. induction Hs as [|[k' a] acc Hs IH Hk]; cbn [gb_add].
  - repeat constructor.
  - destruct (cmp k k') eqn:E.
    + apply (cmp_eq laws) in E. subst k'. constructor; [exact Hs|].
      exact Hk.
    + constructor; [constructor; assumption|]. constructor; [exact E|].
      rewrite Forall_forall in *. intros x Hx. unfold slot_lt in *. cbn [fst] in *.
      eapply (cmp_trans laws); [exact E|]. apply (Hk x Hx).
    + constructor; [exact IH|].
      rewrite Forall_forall in *. intros x Hx. apply gb_add_In in Hx.
      destruct Hx as [Hx|(y & Hy & Ey)]; unfold slot_lt; cbn [fst].
      * rewrite Hx. apply (cmp_gt laws). exact E.
      * rewrite <- Ey. apply (Hk y Hy).
Qed.

Lemma slot_gb_add k k' v acc :
  StronglySorted key_lt acc ->
  slot cmp k (gb_add cmp add zero k' v acc) =
  match cmp k k' with
  | Eq => Some (add (match slot cmp k' acc with Some a => a | None => zero end) v)
  | _ => slot cmp k acc
  end.
Proof.
  intros Hs. induction Hs as [|[k0 a] acc Hs IH Hk]; cbn [gb_add slot].
  - destruct (cmp k k'); reflexivity.
  - destruct (cmp k' k0) eqn:E0; cbn [slot].
    + apply (cmp_eq laws) in E0. subst k0.
      destruct (cmp k k'); reflexivity.
    + destruct (cmp k k') eqn:E; try reflexivity.
      rewrite slot_below; [reflexivity|exact Hs|].
      rewrite Forall_forall in Hk. intros x Hx.
      eapply (cmp_trans laws); [exact E0|]. apply (Hk x Hx).
    + rewrite IH. destruct (cmp k k') eqn:E; try reflexivity.
      apply (cmp_eq laws) in E. subst k'. rewrite E0. reflexivity.
Qed.

Lemma slot_In k t acc :
  StronglySorted key_lt acc -> (slot cmp k acc = Some t <-> In (k, t) acc).
Proof.
  intros Hs. induction Hs as [|[k0 a] acc Hs IH Hk]; cbn [slot In].
  - split; [discriminate | tauto].
  - destruct (cmp k k0) eqn:E.
    + apply (cmp_eq laws) in E. subst k0. split.
      * intros [= ->]. left. reflexivity.
      * intros [[= ->]|H]; [reflexivity|exfalso].
        rewrite Forall_forall in Hk. specialize (Hk _ H).
        unfold slot_lt in Hk. cbn [fst] in Hk. rewrite cmp_refl in Hk. discriminate.
    + rewrite IH. split; [tauto|]. intros [[= -> ->]|H]; [|exact H].
      rewrite cmp_refl in E. discriminate.
    + rewrite IH. split; [tauto|]. intros [[= -> ->]|H]; [|exact H].
      rewrite cmp_refl in E. discriminate.
Qed.

Lemma fold_step_sorted rows acc :
  StronglySorted key_lt acc -> StronglySorted key_lt (fold_left step rows acc).
Proof.
  revert acc; induction rows as [|r rows IH]; intros acc Hs; cbn [fold_left];
    [exact Hs|].
  apply IH. unfold gb_step. destruct (keyf r); [apply gb_add_sorted|]; exact Hs.
Qed.

Lemma slot_fold_step k rows acc :
  StronglySorted key_lt acc ->
  slot cmp k (fold_left step rows acc) =
  match group_vals cmp keyf valf k rows with
  | [] => slot cmp k acc
  | vs =>
      Some (fold_left add vs
              (match slot cmp k acc with Some a => a | None => zero end))
  end.
Proof.
  revert acc; induction rows as [|r rows IH]; intros acc Hs; cbn [fold_left].
  - reflexivity.
  - assert (Hs' : StronglySorted key_lt (step acc r)).
    { unfold gb_step. destruct (keyf r); [apply gb_add_sorted|]; exact Hs. }
    rewrite (IH _ Hs'). unfold group_vals, gb_step. cbn [filter].
    destruct (keyf r) as [k'|]; [|reflexivity].
    rewrite slot_gb_add by exact Hs.
    destruct (cmp k k') eqn:E; try reflexivity.
    apply (cmp_eq laws) in E. subst k'. cbn [map].
    destruct (map valf _); reflexivity.
Qed.

(** The total of a group is the sum of the values of its rows, taken in
    row order from [zero]; a key is in the result when a row has it. *)
Lemma groupby_sum_In k t rows :
  In (k, t) (groupby_sum cmp add zero keyf valf rows) <->
  group_vals cmp keyf valf k rows <> []
  /\ t = fold_left add (group_vals cmp keyf valf k rows) zero.
Proof.
  unfold groupby_sum.
  rewrite <- slot_In by (apply fold_step_sorted; constructor).
  rewrite slot_fold_step by constructor. cbn [slot].
  destruct (group_vals cmp keyf valf k rows) as [|v vs].
  - split; [discriminate | intros [H _]; contradiction].
  - split; [intros [= <-]; split; [discriminate|reflexivity] | intros [_ ->]; reflexivity].
Qed.

Lemma groupby_sum_sorted rows :
  StronglySorted key_lt (groupby_sum cmp add zero keyf valf rows).
Proof. apply fold_step_sorted. constructor. Qed.

End GroupByFacts.

(* ------------------------------------------------------------------ *)
(** ** The order of strings *)

Lemma str_compare_eq a b : str_compare a b = Eq <-> a = b.
Proof.
  revert b; induction a as [|x a IH]; intros [|y b]; cbn [str_compare];
    try (split; [discriminate|discriminate]); [tauto|].
  destruct (N.compare_spec x y) as [->|H|H].
  - rewrite IH. split; [intros ->; reflexivity | intros [= ->]; reflexivity].
  - split; [discriminate | intros [= -> _]; lia].
  - split; [discriminate | intros [= -> _]; lia].
Qed.

Lemma str_compare_gt a b : str_compare a b = Gt -> str_compare b a = Lt.
Proof.
  revert b; induction a as [|x a IH]; intros [|y b]; cbn [str_compare];
    try discriminate; try reflexivity.
  rewrite (N.compare_antisym x y).
  destruct (N.compare x y); cbn [CompOpp]; try discriminate; [apply IH|reflexivity].
Qed.

Lemma str_compare_trans a b c :
  str_compare a b = Lt -> str_compare b c = Lt -> str_compare a c = Lt.
Proof.
  revert b c; induction a as [|x a IH]; intros [|y b] [|z c]; cbn [str_compare];
    try discriminate; try reflexivity.
  destruct (N.compare_spec x y) as [->|Hxy|Hxy]; try discriminate.
  - destruct (N.compare z y) eqn:E; rewrite (N.compare_antisym z y), E;
      cbn [CompOpp]; try discriminate; [apply IH | reflexivity].
  - intros _. destruct (N.compare_spec y z) as [->|Hyz|Hyz]; try discriminate.
    + intros _. apply N.compare_lt_iff in Hxy. rewrite Hxy. reflexivity.
    + intros _. assert (Hxz : (x < z)%N) by lia.
      apply N.compare_lt_iff in Hxz. rewrite Hxz. reflexivity.
Qed.

Lemma str_order : order_laws str_compare.
Proof.
  constructor; [apply str_compare_eq | apply str_compare_gt | apply str_compare_trans].
Qed.

(* ------------------------------------------------------------------ *)
(** ** Coercion of the numeric cells *)

Lemma fillna0_not_nan x : is_nan (fillna0 x) = false.
Proof. unfold fillna0. destruct x; reflexivity. Qed.

Lemma to_numeric_not_nan L c : is_nan (_to_numeric L c) = false.
Proof. apply fillna0_not_nan. Qed.

Lemma to_numeric_again L c : _to_numeric L (CNum (_to_numeric L c)) = _to_numeric L c.
Proof.
  unfold _to_numeric. cbn [to_numeric_coerce].
  unfold fillna0 at 1. rewrite fillna0_not_nan. reflexivity.
Qed.

Lemma group_vals_map (K V R R' : Type) cmp (f : R' -> R)
    (keyf : R -> option K) (valf : R -> V) k rows :
  group_vals cmp keyf valf k (map f rows)
  = group_vals cmp (fun r => keyf (f r)) (fun r => valf (f r)) k rows.
Proof.
  unfold group_vals. induction rows as [|r rows IH]; cbn [map filter]; [reflexivity|].
  destruct (keyf (f r)) as [k'|]; [|exact IH].
  destruct (cmp k k'); cbn [map]; rewrite ?IH; reflexivity.
Qed.

Lemma sort_desc_In (A : Type) (val : A -> float) l x :
  In x (sort_desc val l) <-> In x l.
Proof. apply sort_values_In. Qed.

(** ** [groupby(...).sum()] with the sum of the library *)

Lemma fold_app_singletons (V : Type) (l : list V) acc :
  fold_left (@app V) (map (fun v => [v]) l) acc = acc ++ l.
Proof.
  revert acc; induction l as [|v l IH]; intros acc; cbn [map fold_left].
  - symmetry. apply app_nil_r.
  - rewrite IH, <- app_assoc. reflexivity.
Qed.

Lemma group_vals_singletons (K V R : Type) cmp (keyf : R -> option K)
    (valf : R -> V) k rows :
  group_vals cmp keyf (fun r => [valf r]) k rows
  = map (fun v => [v]) (group_vals cmp keyf valf k rows).
Proof. unfold group_vals. rewrite map_map. reflexivity. Qed.

(** The total of a group is what the library's sum gives for the values of
    the rows of the group, in row order; a key is in the result exactly
    when a row has it. *)
Lemma groupby_agg_In (K V R A : Type) (cmp : K -> K -> comparison)
    (laws : order_laws cmp) (agg : list V -> A) (keyf : R -> option K)
    (valf : R -> V) k t rows :
  In (k, t) (groupby_agg cmp agg keyf valf rows) <->
  group_vals cmp keyf valf k rows <> []
  /\ t = agg (group_vals cmp keyf valf k rows).
Proof.
  unfold groupby_agg. rewrite in_map_iff. split.
  - intros ([k' l] & E & H). cbn [fst snd] in E. injection E as -> <-.
    apply (groupby_sum_In (@app V) [] keyf (fun r => [valf r]) laws) in H.
    rewrite group_vals_singletons, fold_app_singletons in H. cbn [app] in H.
    destruct H as [Hne ->]. split; [|reflexivity].
    intros E. apply Hne. rewrite E. reflexivity.
  - intros [Hne ->]. exists (k, group_vals cmp keyf valf k rows).
    split; [reflexivity|].
    apply (groupby_sum_In (@app V) [] keyf (fun r => [valf r]) laws).
    rewrite group_vals_singletons, fold_app_singletons. cbn [app].
    split; [|reflexivity].
    intros E. apply map_eq_nil in E. exact (Hne E).
Qed.

Lemma by_total_desc_In (V : Type) (T : dtype V) l x :
  In x (by_total_desc T l) <-> In x l.
Proof. apply sort_values_In. Qed.

(** The caches of a frame, for any dtype. *)
Lemma build_caches_spec (U : UCD) (V : Type) (T : dtype V) (df : list (record_of V)) :
  let total := fun r : record_of V => coerced T (Total r) in
  let by_key := fun (keyf : record_of V -> option pystr) (g : list (pystr * V)) =>
    forall k t,
      In (k, t) g <->
      group_vals str_compare keyf total k df <> []
      /\ t = sum_of_group T (group_vals str_compare keyf total k df) in
  let column := fun (col : record_of V -> V) =>
    sum_of_column T (map (fun r => coerced T (col r)) df) in
  exists g1 g2 g3 g4,
    _build_caches U T df = (g1, g2, g3, g4)
    /\ by_key Periodo g1
    /\ by_key Emisora g2
    /\ by_key Cliente g4
    /\ g3 = [ (COL_MOVIL, column Movil); (COL_HOGAR, column Hogar);
              (COL_SERV, column Serv); (COL_AJUSTE, column Ajuste) ].
Proof.
  intros total by_key column. unfold _build_caches.
  eexists. eexists. eexists. eexists. split; [reflexivity|].
  unfold by_key, total.
  split.
  { intros k t. unfold sort_by_period. rewrite sort_values_In.
    apply groupby_agg_In, str_order. }
  split.
  { intros k t. rewrite by_total_desc_In. apply groupby_agg_In, str_order. }
  split.
  { intros k t. rewrite by_total_desc_In. apply groupby_agg_In, str_order. }
  reflexivity.
Qed.

(** Sums of int64 values are sums modulo [2^64]. *)
Lemma wrap64_add a b : wrap64 (wrap64 a + b) = wrap64 (a + b).
Proof.
  unfold wrap64. f_equal.
  replace (((a + 2 ^ 63) mod 2 ^ 64 - 2 ^ 63 + b + 2 ^ 63)%Z)
    with (((a + 2 ^ 63) mod 2 ^ 64 + b)%Z) by lia.
  replace ((a + b + 2 ^ 63)%Z) with ((a + 2 ^ 63 + b)%Z) by lia.
  apply Zplus_mod_idemp_l.
Qed.

Lemma wrap64_small z : (- 2 ^ 63 <= z < 2 ^ 63)%Z -> wrap64 z = z.
Proof.
  intros H. unfold wrap64. rewrite Z.mod_small; lia.
Qed.

Lemma int64_sum_wraps l acc :
  fold_left (fun a b => wrap64 (a + b)) l (wrap64 acc)
  = wrap64 (fold_left Z.add l acc).
Proof.
  revert acc; induction l as [|x l IH]; intros acc; cbn [fold_left]; [reflexivity|].
  rewrite wrap64_add. apply IH.
Qed.

(** C6.  Each standing table holds, for every key of the frame, what the
    library's sum gives for the coerced totals of the rows of that key, in
    row order, and the service table what it gives for the four coerced
    service columns: this for any dtype of the numeric columns.  After a
    load of a sheet whose numeric columns are float64 these are the sums
    of pandas over the coerced cells, where an empty cell and a cell that
    does not read as a number count for exactly 0 and no coerced cell is
    NaN.  For an all-integer column the sum is that of int64: the exact sum
    modulo [2^64], equal to the exact sum only while this stays within
    the range of int64. *)
Theorem caches_are_group_sums :
  (forall (U : UCD) (V : Type) (T : dtype V) (df : list (record_of V)),
     let total := fun r : record_of V => coerced T (Total r) in
     let by_key := fun (keyf : record_of V -> option pystr) (g : list (pystr * V)) =>
       forall k t,
         In (k, t) g <->
         group_vals str_compare keyf total k df <> []
         /\ t = sum_of_group T (group_vals str_compare keyf total k df) in
     let column := fun (col : record_of V -> V) =>
       sum_of_column T (map (fun r => coerced T (col r)) df) in
     exists g1 g2 g3 g4,
       _build_caches U T df = (g1, g2, g3, g4)
       /\ by_key Periodo g1
       /\ by_key Emisora g2
       /\ by_key Cliente g4
       /\ g3 = [ (COL_MOVIL, column Movil); (COL_HOGAR, column Hogar);
                 (COL_SERV, column Serv); (COL_AJUSTE, column Ajuste) ])
  /\ (forall (U : UCD) (L : PyLib) (sheet : list raw_record) (now : pystr),
        let st := load_data U L sheet now in
        let total := fun r => _to_numeric L (rTotal r) in
        (forall k t,
           In (k, t) (G_BY_PERIOD st) <->
           group_vals str_compare rPeriodo total k sheet <> []
           /\ t = group_sum L (group_vals str_compare rPeriodo total k sheet))
        /\ (forall k t,
              In (k, t) (G_BY_EMISORA st) <->
              group_vals str_compare rEmisora total k sheet <> []
              /\ t = group_sum L (group_vals str_compare rEmisora total k sheet))
        /\ (forall k t,
              In (k, t) (TOP_CLIENTS st) <->
              group_vals str_compare rCliente total k sheet <> []
              /\ t = group_sum L (group_vals str_compare rCliente total k sheet))
        /\ G_SERVICES st =
             [ (COL_MOVIL, series_sum L (map (fun r => _to_numeric L (rMovil r)) sheet));
               (COL_HOGAR, series_sum L (map (fun r => _to_numeric L (rHogar r)) sheet));
               (COL_SERV, series_sum L (map (fun r => _to_numeric L (rServ r)) sheet));
               (COL_AJUSTE,
                 series_sum L (map (fun r => _to_numeric L (rAjuste r)) sheet)) ])
  /\ (forall L : PyLib,
        _to_numeric L CEmpty = fzero
        /\ (forall s, to_numeric_str L s = None -> _to_numeric L (CText s) = fzero)
        /\ (forall c, is_nan (_to_numeric L c) = false))
  /\ (forall l : list Z,
        sum_of_group int64 l = wrap64 (fold_left Z.add l 0%Z)
        /\ sum_of_column int64 l = wrap64 (fold_left Z.add l 0%Z)
        /\ ((- 2 ^ 63 <= fold_left Z.add l 0 < 2 ^ 63)%Z ->
            sum_of_group int64 l = fold_left Z.add l 0%Z)).
Proof.
  split; [intros U V T df; apply build_caches_spec|].
  split.
  { intros U L sheet now st total.
    assert (Hgroup :
      forall (keyf : record -> option pystr) (rkeyf : raw_record -> option pystr),
        (forall r, keyf (coerce_row L r) = rkeyf r) ->
        forall k t,
          In (k, t)
             (groupby_agg str_compare (group_sum L) keyf
                (fun r => _to_numeric L (CNum (Total r))) (map (coerce_row L) sheet))
          <-> group_vals str_compare rkeyf total k sheet <> []
              /\ t = group_sum L (group_vals str_compare rkeyf total k sheet)).
    { intros keyf rkeyf Hk k t.
      rewrite (groupby_agg_In str_order), group_vals_map.
      assert (E : group_vals str_compare (fun r => keyf (coerce_row L r))
                    (fun r => _to_numeric L (CNum (Total (coerce_row L r)))) k sheet
                  = group_vals str_compare rkeyf total k sheet).
      { unfold group_vals. clear t. induction sheet as [|r rows IH]; cbn [filter map];
          [reflexivity|].
        rewrite Hk. destruct (rkeyf r) as [k'|]; [|exact IH].
        destruct (str_compare k k'); cbn [map]; rewrite ?IH; try reflexivity.
        cbn [coerce_row Total]. rewrite to_numeric_again. reflexivity. }
      rewrite E. reflexivity. }
    unfold st, load_data, _build_caches.
    cbn [G_BY_PERIOD G_BY_EMISORA TOP_CLIENTS G_SERVICES].
    cbn [coerced sum_of_group sum_of_column float64].
    split.
    { intros k t. unfold sort_by_period. rewrite sort_values_In.
      apply Hgroup. reflexivity. }
    split.
    { intros k t. rewrite by_total_desc_In. apply Hgroup. reflexivity. }
    split.
    { intros k t. rewrite by_total_desc_In. apply Hgroup. reflexivity. }
    unfold SERVICE_COLS_of. cbn [map fst snd]. rewrite !map_map.
    cbn [coerce_row Movil Hogar Serv Ajuste].
    assert (Hmap : forall f : raw_record -> cell,
              map (fun r => _to_numeric L (CNum (_to_numeric L (f r)))) sheet
              = map (fun r => _to_numeric L (f r)) sheet)
      by (intros f; apply map_ext; intros r; apply to_numeric_again).
    rewrite (Hmap rMovil), (Hmap rHogar), (Hmap rServ), (Hmap rAjuste).
    reflexivity. }
  split.
  { intros L. split; [reflexivity|]. split; [|apply to_numeric_not_nan].
    intros s Hs. unfold _to_numeric. cbn [to_numeric_coerce]. rewrite Hs. reflexivity. }
  intros l.
  assert (E : fold_left (fun a b => wrap64 (a + b)) l 0%Z
              = wrap64 (fold_left Z.add l 0%Z)).
  { change 0%Z with (wrap64 0) at 1. apply int64_sum_wraps. }
  cbn [sum_of_group sum_of_column int64]. rewrite E.
  split; [reflexivity|]. split; [reflexivity|]. apply wrap64_small.
Qed.

Lemma caches_are_group_sums_witness :
  In (py "Jul-2025", float_of_Z 1750) (G_BY_PERIOD demo)
  /\ group_vals str_compare rPeriodo
       (fun r => _to_numeric cpython (rTotal r)) (py "Jul-2025") demo_sheet
     = [float_of_Z 1500; fzero; float_of_Z 250]
  /\ _to_numeric cpython (CText (py "n/a")) = fzero
  /\ group_sum cpython [dec_float 1 16; float_of_Z 1; float_of_Z 1]
     = dec_float 10000000000000002 0.
Proof.
  split.
  - apply (proj1 (proj1 (proj2 caches_are_group_sums)
                    latin1 cpython demo_sheet demo_now)).
    split; [vm_compute; discriminate | vm_compute; reflexivity].
  - split; [vm_compute; reflexivity|].
    split; [|vm_compute; reflexivity].
    apply (proj1 (proj2 (proj1 (proj2 (proj2 caches_are_group_sums)) cpython))).
    vm_compute. reflexivity.
Defined.

(** On an all-integer column a total is not always the exact sum: two
    rows of [2^62] of one client have the exact sum [2^63], and the table
    of clients (with those of periods and of emitters) has [-2^63]. *)
Lemma int64_total_wraps :
  _build_caches latin1 int64 big_int_frame
  = ( [(py "Jul-2025", (- 2 ^ 63)%Z)],
      [(py "Norte", (- 2 ^ 63)%Z)],
      [ (COL_MOVIL, 0%Z); (COL_HOGAR, 0%Z); (COL_SERV, 0%Z); (COL_AJUSTE, 0%Z) ],
      [(py "ACME Corp", (- 2 ^ 63)%Z)] )
  /\ fold_left Z.add (map Total big_int_frame) 0%Z = (2 ^ 63)%Z
  /\ (- 2 ^ 63 <> 2 ^ 63)%Z.
Proof.
  split; [vm_compute; reflexivity|]. split; [vm_compute; reflexivity|]. discriminate.
Qed.

(** After a load the four tables are the caches of the frame that was
    loaded, and of nothing else. *)
Lemma load_data_caches (U : UCD) (L : PyLib) sheet now :
  let st := load_data U L sheet now in
  DF st = map (coerce_row L) sheet
  /\ (G_BY_PERIOD st, G_BY_EMISORA st, G_SERVICES st, TOP_CLIENTS st)
     = _build_caches U (float64 L) (DF st)
  /\ LAST_LOAD_TS st = now.
Proof.
  cbv zeta. unfold load_data.
  destruct (_build_caches U (float64 L) (map (coerce_row L) sheet))
    as [[[g1 g2] g3] g4] eqn:E.
  cbn [DF G_BY_PERIOD G_BY_EMISORA G_SERVICES TOP_CLIENTS LAST_LOAD_TS].
  rewrite E. repeat split.
Qed.

(* ------------------------------------------------------------------ *)
(** ** Which periods are compared *)

Lemma mom_simple_inv (U : UCD) df m :
  _mom_simple U df = Some m ->
  exists front q p,
    sort_by_period U df = front ++ [q; p]
    /\ Periodo_Actual m = fst p /\ Periodo_Anterior m = fst q.
Proof.
  intros H.
  assert (Hlen : 2 <= length (sort_by_period U df)).
  { unfold _mom_simple in H.
    destruct (length (sort_by_period U df) <? 2) eqn:E; [discriminate|].
    apply Nat.ltb_ge in E. exact E. }
  destruct (last_two _ Hlen) as (front & q & p & E).
  exists front, q, p. split; [exact E|].
  erewrite mom_simple_rows in H by exact E.
  injection H as <-. split; reflexivity.
Qed.

Lemma sort_by_period_selection (U : UCD) (A : Type)
    (df : list (pystr * A)) front q p :
  sort_by_period U df = front ++ [q; p] ->
  ((forall r, In r df -> period_key U r <> None) ->
     period_key U p <> None /\ period_key U q <> None)
  /\ ((exists r, In r df /\ period_key U r = None) -> period_key U p = None).
Proof.
  intros E. split.
  - intros Hall.
    assert (Hin : forall x, In x (front ++ [q; p]) -> In x df).
    { intros x Hx. rewrite <- E in Hx. apply sort_values_In in Hx. exact Hx. }
    split; apply Hall, Hin, in_or_app; right; cbn [In]; tauto.
  - intros (r & Hr & Hnone).
    destruct (period_key U p) as [k|] eqn:Ep; [exfalso|reflexivity].
    assert (Hp : has_key (@period_key U A) p = true) by (unfold has_key; rewrite Ep; reflexivity).
    unfold sort_by_period in E.
    change (front ++ [q; p]) with (front ++ [q] ++ [p]) in E. rewrite app_assoc in E.
    pose proof (@sort_values_last_keyed _ _ _ _ _ _ _ E Hp r Hr) as Hk.
    unfold has_key in Hk. rewrite Hnone in Hk. discriminate.
Qed.

Lemma opt_eqb_some a b : opt_eqb a b = true -> a <> None.
Proof. destruct a; [discriminate | cbn; discriminate]. Qed.

(** The sorted frame: the rows whose label parses, in the order of their
    keys, then the rows whose label does not parse. *)
Lemma sort_by_period_split (U : UCD) (A : Type) (df : list (pystr * A)) :
  exists dated undated,
    sort_by_period U df = dated ++ undated
    /\ StronglySorted (key_le N.leb (@period_key U A)) dated
    /\ (forall r, In r dated -> period_key U r <> None)
    /\ (forall r, In r undated -> period_key U r = None)
    /\ Permutation (dated ++ undated) df.
Proof.
  unfold sort_by_period.
  exists (sort_keyed N.leb (@period_key U A) df),
         (filter (fun x => negb (has_key (@period_key U A) x)) df).
  split; [reflexivity|].
  split; [apply sort_keyed_sorted; [apply N_leb_total | apply N_leb_trans]|].
  split.
  { intros r Hr. apply sort_keyed_has_key in Hr. apply has_key_iff in Hr. exact Hr. }
  split.
  { intros r Hr. apply filter_In in Hr. destruct Hr as [_ Hr].
    apply negb_true_iff in Hr. unfold has_key in Hr.
    destruct (period_key U r); [discriminate|reflexivity]. }
  apply (sort_values_perm N.leb (@period_key U A) df).
Qed.

(** The variation by service takes its two rows from the end of the
    sorted frame of the sums by period. *)
Lemma servicio_variation_rows (U : UCD) (L : PyLib) df front q p :
  sort_by_period U (service_totals df) = front ++ [q; p] ->
  servicio_variation U L df
  = Md (py "Variación mensual por servicio (últimos 2 meses)" ++ [10%N]
        ++ _df_to_md_table (py "Servicio" :: MOM_COLS) (service_rows L p q)).
Proof.
  intros E. unfold servicio_variation. rewrite E, rev_last_two.
  rewrite length_app. cbn [length].
  replace (length front + 2 <? 2) with false; [reflexivity|].
  symmetry. apply Nat.ltb_ge. lia.
Qed.

Lemma servicio_variation_short (U : UCD) (L : PyLib) df :
  length (service_totals df) < 2 ->
  servicio_variation U L df
  = Md (py "No hay suficientes meses para variación por servicio.").
Proof.
  intros H. unfold servicio_variation, sort_by_period.
  rewrite sort_values_length.
  replace (length (service_totals df) <? 2) with true; [reflexivity|].
  symmetry. apply Nat.ltb_lt. exact H.
Qed.

(** C2, as the code has it.  A row whose label does not parse is not left
    out of the comparison: it is sorted after all the rows whose label
    parses.  In the frames of the total, per-emitter, per-client and
    per-service comparisons the rows taken as current and previous have
    labels that parse when every label of the frame parses, and the current
    row has a label that does not parse as soon as one label of the frame
    does not.  The variation by service answers from the last two rows of
    its sorted frame, to which this applies.  In the top clients of the
    latest period, the rows taken as current and as previous have labels
    that parse. *)
Theorem period_selection (U : UCD) :
  (forall (A : Type) (df : list (pystr * A)) front q p,
     sort_by_period U df = front ++ [q; p] ->
     ((forall r, In r df -> period_key U r <> None) ->
        period_key U p <> None /\ period_key U q <> None)
     /\ ((exists r, In r df /\ period_key U r = None) -> period_key U p = None))
  /\ (forall df m,
        _mom_simple U df = Some m ->
        ((forall r, In r df -> period_key U r <> None) ->
           _periodo_key U (Some (Periodo_Actual m)) <> None
           /\ _periodo_key U (Some (Periodo_Anterior m)) <> None)
        /\ ((exists r, In r df /\ period_key U r = None) ->
              _periodo_key U (Some (Periodo_Actual m)) = None))
  /\ (forall tdf r, In r (cur_per U tdf) -> tdf_key U r <> None)
  /\ (forall tdf r, In r (prev_per U tdf) -> tdf_key U r <> None)
  /\ (forall (A : Type) (df : list (pystr * A)),
        exists dated undated,
          sort_by_period U df = dated ++ undated
          /\ StronglySorted (key_le N.leb (@period_key U A)) dated
          /\ (forall r, In r dated -> period_key U r <> None)
          /\ (forall r, In r undated -> period_key U r = None)
          /\ Permutation (dated ++ undated) df)
  /\ (forall (L : PyLib) df,
        (length (service_totals df) < 2 ->
         servicio_variation U L df
         = Md (py "No hay suficientes meses para variación por servicio."))
        /\ (2 <= length (service_totals df) ->
            exists front q p,
              sort_by_period U (service_totals df) = front ++ [q; p]
              /\ servicio_variation U L df
                 = Md (py "Variación mensual por servicio (últimos 2 meses)"
                       ++ [10%N]
                       ++ _df_to_md_table (py "Servicio" :: MOM_COLS)
                            (service_rows L p q))
              /\ ((forall r, In r (service_totals df) -> period_key U r <> None) ->
                  period_key U p <> None /\ period_key U q <> None)
              /\ ((exists r, In r (service_totals df) /\ period_key U r = None) ->
                  period_key U p = None))).
Proof.
  split; [intros A df front q p; apply sort_by_period_selection|].
  split.
  { intros df m H. apply mom_simple_inv in H.
    destruct H as (front & q & p & E & -> & ->).
    exact (@sort_by_period_selection U _ df front q p E). }
  split.
  { intros tdf r H. unfold cur_per in H. apply filter_In in H.
    eapply opt_eqb_some, (proj2 H). }
  split.
  { intros tdf r H. unfold prev_per in H.
    destruct (prev_key U tdf); [|contradiction].
    apply filter_In in H. eapply opt_eqb_some, (proj2 H). }
  split; [intros A df; apply sort_by_period_split|].
  intros L df. split; [apply servicio_variation_short|].
  intros Hlen.
  assert (Hlen' : 2 <= length (sort_by_period U (service_totals df))).
  { unfold sort_by_period. rewrite sort_values_length. exact Hlen. }
  destruct (last_two _ Hlen') as (front & q & p & E).
  exists front, q, p. split; [exact E|].
  split; [apply (@servicio_variation_rows U L df front q p E)|].
  exact (@sort_by_period_selection U _ (service_totals df) front q p E).
Qed.

Lemma period_selection_witness :
  _periodo_key latin1 (Some (py "Jul-2025")) <> None
  /\ _periodo_key latin1 (Some (py "Jun-2025")) <> None.
Proof.
  apply (proj1 (proj1 (proj2 (period_selection latin1))
                  [(py "Jul-2025", float_of_Z 1500); (py "Jun-2025", float_of_Z 1000)]
                  {| Periodo_Actual := py "Jul-2025";
                     Total_Actual := float_of_Z 1500;
                     Periodo_Anterior := py "Jun-2025";
                     Total_Anterior := float_of_Z 1000;
                     Var_Abs := float_of_Z 500;
                     Var_pct := VFloat (dec_float 5 (-1)) |}
                  ltac:(vm_compute; reflexivity))).
  intros r [<-|[<-|[]]]; vm_compute; discriminate.
Defined.

(** The sheet [mixed] has the labels [Jun-2025], [Jul-2025] and [garbage]:
    the total variation compares [garbage], as current, with [Jul-2025]. *)
Lemma unparseable_label_selected :
  (exists m,
     _mom_simple latin1
       (groupby_sum str_compare fadd fzero Periodo Total (DF mixed)) = Some m
     /\ Periodo_Actual m = py "garbage"
     /\ Periodo_Anterior m = py "Jul-2025"
     /\ _periodo_key latin1 (Some (Periodo_Actual m)) = None)
  /\ ask latin1 cpython mixed (py "variacion") =
     Return (Md (py "Variación mensual total (últimos 2 meses)
| Periodo_Actual | Total_Actual | Periodo_Anterior | Total_Anterior | Var_Abs     | Var_%    |
| -------------- | ------------ | ---------------- | -------------- | ----------- | -------- |
| garbage        | $ 70,00      | Jul-2025         | $ 1.500,00     | $ -1.430,00 | -95,33 % |")).
Proof.
  split.
  - eexists. split; [vm_compute; reflexivity|].
    split; [reflexivity|]. split; [reflexivity|]. vm_compute. reflexivity.
  - vm_compute. reflexivity.
Qed.

(* ------------------------------------------------------------------ *)
(** ** The top clients when no label parses *)

Lemma gb_add_not_nil (K V : Type) cmp add zero (k : K) (v : V) acc :
  gb_add cmp add zero k v acc <> [].
Proof.
  destruct acc as [|[k' a] acc]; cbn [gb_add]; [discriminate|].
  destruct (cmp k k'); discriminate.
Qed.

Lemma fold_gb_step_not_nil (K V R : Type) cmp add zero
    (keyf : R -> option K) (valf : R -> V) rows acc :
  acc <> [] \/ (exists r, In r rows /\ keyf r <> None) ->
  fold_left (gb_step cmp add zero keyf valf) rows acc <> [].
Proof.
  revert acc; induction rows as [|r rows IH]; intros acc H; cbn [fold_left].
  - destruct H as [H|(r & [] & _)]. exact H.
  - apply IH. unfold gb_step. destruct (keyf r) as [k|] eqn:Ek.
    + left. apply gb_add_not_nil.
    + destruct H as [H|(r' & [<-|Hr'] & Hk)]; [left; exact H | congruence |].
      right. exists r'. split; assumption.
Qed.

Lemma fold_gb_step_keys (K V R : Type) cmp add zero
    (keyf : R -> option K) (valf : R -> V) rows acc x :
  In x (fold_left (gb_step cmp add zero keyf valf) rows acc) ->
  (exists y, In y acc /\ fst y = fst x)
  \/ (exists r, In r rows /\ keyf r = Some (fst x)).
Proof.
  revert acc; induction rows as [|r rows IH]; intros acc H; cbn [fold_left] in H.
  - left. exists x. split; [exact H|reflexivity].
  - apply IH in H. destruct H as [(y & Hy & Ey)|(r' & Hr' & Hk)].
    + unfold gb_step in Hy. destruct (keyf r) as [k|] eqn:Ek.
      * apply gb_add_In in Hy. destruct Hy as [Hy|(z & Hz & Ez)].
        -- right. exists r. split; [left; reflexivity|]. congruence.
        -- left. exists z. split; [exact Hz|congruence].
      * left. exists y. split; assumption.
    + right. exists r'. split; [right; exact Hr'|exact Hk].
Qed.

Lemma filter_none (A : Type) (f : A -> bool) l :
  (forall x, In x l -> f x = false) -> filter f l = [].
Proof.
  induction l as [|x l IH]; intros H; cbn [filter]; [reflexivity|].
  rewrite (H x (or_introl eq_refl)). apply IH. intros y Hy. apply H. right. exact Hy.
Qed.

Lemma key2_periodo (a : record -> option pystr) r c p :
  key2 a Periodo r = Some (c, p) -> Periodo r = Some p.
Proof.
  unfold key2. destruct (a r); [|discriminate].
  destruct (Periodo r); [|discriminate]. intros [= _ ->]. reflexivity.
Qed.

(** C3, at its failing inputs.  When the sheet has a row with a client and
    a period label but no label parses, [merged] is empty and the handler
    raises ([merged[COL_PERIODO].iloc[0]]) in place of answering with a
    message; so does the prompt ["Top 3 clientes último mes"] on the sheet
    [unparseable]. *)
Theorem top_clients_unparseable_raises :
  (forall (U : UCD) (L : PyLib) (df : list record) (n : nat),
     (exists r, In r df /\ Cliente r <> None /\ Periodo r <> None) ->
     (forall r, In r df -> _periodo_key U (Periodo r) = None) ->
     top_clients_last_month U L df n = Raises)
  /\ ask latin1 cpython unparseable (py "Top 3 clientes último mes") = Raises.
Proof.
  split; [|vm_compute; reflexivity].
  intros U L df n (r0 & Hr0 & Hc & Hp) Hnone.
  unfold top_clients_last_month.
  assert (Hne : client_period_totals U df <> []).
  { unfold client_period_totals. intros E.
    apply (f_equal (@length _)) in E. rewrite sort_values_length in E.
    apply length_zero_iff_nil in E. revert E.
    apply fold_gb_step_not_nil. right. exists r0. split; [exact Hr0|].
    unfold key2. destruct (Cliente r0); [|congruence].
    destruct (Periodo r0); [discriminate|congruence]. }
  assert (Hkeys : forall x, In x (client_period_totals U df) -> tdf_key U x = None).
  { intros x Hx. unfold client_period_totals in Hx. apply sort_values_In in Hx.
    apply fold_gb_step_keys in Hx. destruct Hx as [(y & [] & _)|(r & Hr & Hk)].
    destruct x as [[c p] t]. cbn [fst] in Hk. apply key2_periodo in Hk.
    unfold tdf_key. cbn [fst snd]. rewrite <- Hk. apply Hnone, Hr. }
  assert (Hcur : cur_per U (client_period_totals U df) = []).
  { unfold cur_per. apply filter_none. intros x Hx.
    rewrite (Hkeys x Hx). reflexivity. }
  destruct (client_period_totals U df) as [|x l] eqn:E; [contradiction|].
  unfold merged_rows. rewrite Hcur.
  unfold sort_desc, sort_values. cbn [sort_keyed filter app]. rewrite firstn_nil.
  destruct (truthy (prev_key U (x :: l))); reflexivity.
Qed.

Lemma top_clients_unparseable_witness :
  top_clients_last_month latin1 cpython (DF unparseable) 3 = Raises.
Proof.
  apply (proj1 top_clients_unparseable_raises latin1 cpython (DF unparseable) 3).
  - eexists. split; [left; reflexivity|]. split; vm_compute; discriminate.
  - intros r [<-|[]]. vm_compute. reflexivity.
Defined.

(* ------------------------------------------------------------------ *)
(** ** Literal patterns *)

Lemma run_length_zero f s : run_length f (Some 0) s = 0.
Proof. destruct s; reflexivity. Qed.

Lemma re_here_once (U : UCD) f ps s :
  re_here (once f :: ps) s =
  match s with
  | c :: s' => if f c then re_here ps s' else None
  | [] => None
  end.
Proof.
  unfold once. destruct s as [|c s']; [reflexivity|].
  cbn [re_here cls lo hi cap run_length option_map pred].
  destruct (f c); [|reflexivity].
  rewrite run_length_zero.
  cbn [Nat.ltb Nat.leb countdown skipn].
  destruct (re_here ps s'); reflexivity.
Qed.




(* ------------------------------------------------------------------ *)
(** ** The branch of a named client *)





(* ------------------------------------------------------------------ *)
(** ** White space: [re.sub(r"\s+", " ", s).strip()] *)

Section Spaces.

Variable U : UCD.
Hypothesis space_is_space : is_space U 32%N = true.

Lemma tidy_weaken b s : tidy_from U b s -> tidy_from U false s.
Proof.
  destruct s as [|c s]; cbn [tidy_from]; [tauto|].
  destruct (is_space U c); [|tauto]. destruct b; [|tauto].
  intros (_ & H & _). discriminate H.
Qed.

Lemma runs_tidy b x : tidy_from U b (re_sub_runs_go (class_s U) (py " ") b x).
Proof.
  revert b; induction x as [|c x IH]; intros b; cbn [re_sub_runs_go]; [exact I|].
  unfold class_s at 1. destruct (is_space U c) eqn:Ec.
  - destruct b; cbn [app].
    + apply IH.
    + change (py " ") with [32%N]. cbn [app tidy_from]. rewrite space_is_space.
      repeat split. apply IH.
  - cbn [tidy_from]. rewrite Ec. apply IH.
Qed.

Lemma runs_of_tidy b s :
  tidy_from U b s -> re_sub_runs_go (class_s U) (py " ") b s = s.
Proof.
  revert b; induction s as [|c s IH]; intros b; cbn [tidy_from re_sub_runs_go];
    [reflexivity|].
  unfold class_s at 1. destruct (is_space U c).
  - intros (-> & -> & H). rewrite (IH _ H). reflexivity.
  - intros H. rewrite (IH _ H). reflexivity.
Qed.

Lemma lstrip_tidy b s : tidy_from U b s -> tidy_from U false (str_lstrip U s).
Proof.
  unfold str_lstrip. revert b; induction s as [|c s IH]; intros b;
    cbn [tidy_from dropwhile]; [tauto|].
  destruct (is_space U c) eqn:Ec.
  - intros (_ & _ & H). apply (IH _ H).
  - intros H. cbn [tidy_from]. rewrite Ec. exact H.
Qed.

Lemma lstrip_head_ok s : head_ok U (str_lstrip U s).
Proof.
  unfold str_lstrip. induction s as [|c s IH]; cbn [dropwhile]; [exact I|].
  destruct (is_space U c) eqn:Ec; [exact IH | exact Ec].
Qed.

Lemma lstrip_of_head_ok s : head_ok U s -> str_lstrip U s = s.
Proof.
  destruct s as [|c s]; cbn [head_ok str_lstrip dropwhile]; [reflexivity|].
  intros ->. reflexivity.
Qed.

Lemma rstrip_tidy b s : tidy_from U b s -> tidy_from U b (str_rstrip U s).
Proof.
  revert b; induction s as [|c s IH]; intros b; cbn [str_rstrip]; [tauto|].
  intros H. cbn [tidy_from] in H.
  destruct (str_rstrip U s) as [|a r] eqn:Er.
  - destruct (is_space U c) eqn:Ec; [exact I|].
    cbn [tidy_from]. rewrite Ec. exact I.
  - cbn [tidy_from]. destruct (is_space U c).
    + destruct H as (H1 & H2 & H3). repeat split; try assumption. apply (IH _ H3).
    + apply (IH _ H).
Qed.

Lemma rstrip_head_ok s : head_ok U s -> head_ok U (str_rstrip U s).
Proof.
  destruct s as [|c s]; cbn [head_ok str_rstrip]; [tauto|].
  intros Ec. rewrite Ec. destruct (str_rstrip U s); exact Ec.
Qed.

Lemma rstrip_rstrip s : str_rstrip U (str_rstrip U s) = str_rstrip U s.
Proof.
  induction s as [|c s IH]; cbn [str_rstrip]; [reflexivity|].
  destruct (str_rstrip U s) as [|a r] eqn:Er.
  - destruct (is_space U c) eqn:Ec; [reflexivity|].
    cbn [str_rstrip]. rewrite Ec. reflexivity.
  - change (str_rstrip U (c :: a :: r))
      with (match str_rstrip U (a :: r) with
            | [] => if is_space U c then [] else [c]
            | r0 => c :: r0
            end).
    rewrite IH. reflexivity.
Qed.

(** Collapsing and trimming a string that was collapsed and trimmed
    changes nothing. *)
Lemma collapse_strip_again x :
  let o := str_strip U (re_sub_runs (class_s U) (py " ") x) in
  str_strip U (re_sub_runs (class_s U) (py " ") o) = o.
Proof.
  intros o.
  assert (Ht : tidy_from U false o).
  { unfold o, str_strip, re_sub_runs. eapply rstrip_tidy, lstrip_tidy, runs_tidy. }
  assert (Hh : head_ok U o).
  { unfold o, str_strip. apply rstrip_head_ok, lstrip_head_ok. }
  unfold re_sub_runs. rewrite runs_of_tidy by exact Ht.
  unfold str_strip at 1. rewrite lstrip_of_head_ok by exact Hh.
  unfold o, str_strip. apply rstrip_rstrip.
Qed.

Lemma rstrip_In d s : In d (str_rstrip U s) -> In d s.
Proof.
  induction s as [|c s IH]; cbn [str_rstrip]; [tauto|].
  destruct (str_rstrip U s) as [|a r].
  - destruct (is_space U c); [intros []|]. intros [<-|[]]. left. reflexivity.
  - intros [<-|H]; [left; reflexivity|right; apply IH, H].
Qed.

Lemma lstrip_In d s : In d (str_lstrip U s) -> In d s.
Proof.
  unfold str_lstrip. induction s as [|c s IH]; cbn [dropwhile]; [tauto|].
  destruct (is_space U c); [intros H; right; apply IH, H | intros H; exact H].
Qed.

Lemma strip_In d s : In d (str_strip U s) -> In d s.
Proof. unfold str_strip. intros H. apply lstrip_In, rstrip_In, H. Qed.

Lemma runs_In f b d s :
  In d (re_sub_runs_go f (py " ") b s) -> d = 32%N \/ (In d s /\ f d = false).
Proof.
  revert b; induction s as [|c s IH]; intros b; cbn [re_sub_runs_go]; [intros []|].
  destruct (f c) eqn:Ec.
  - intros H. apply in_app_or in H. destruct H as [H|H].
    + destruct b; [destruct H|]. destruct H as [<-|[]]. left. reflexivity.
    + apply IH in H. destruct H as [H|[H1 H2]]; [left; exact H|].
      right. split; [right; exact H1|exact H2].
  - intros [<-|H]; [right; split; [left; reflexivity|exact Ec]|].
    apply IH in H. destruct H as [H|[H1 H2]]; [left; exact H|].
    right. split; [right; exact H1|exact H2].
Qed.

End Spaces.

Lemma sub_each_In f d s :
  In d (re_sub_each f (py " ") s) -> d = 32%N \/ (In d s /\ f d = false).
Proof.
  unfold re_sub_each. intros H. apply in_flat_map in H.
  destruct H as (c & Hc & H). destruct (f c) eqn:Ec.
  - destruct H as [<-|[]]. left. reflexivity.
  - destruct H as [<-|[]]. right. split; assumption.
Qed.

(* ------------------------------------------------------------------ *)
(** ** Lower case and decomposition *)

Section Lowering.

Variable U : UCD.

Lemma lower_go_In e b s :
  In e (lower_go U b s) -> exists c, In c s /\ In e (lowered U c).
Proof.
  revert b; induction s as [|c s IH]; intros b; cbn [lower_go]; [intros []|].
  intros H. apply in_app_or in H. destruct H as [H|H].
  - exists c. split; [left; reflexivity|]. unfold lowered.
    destruct (cp_eqb c 931%N); [|exact H].
    destruct H as [<-|[]]. destruct (final_sigma U b s); cbn [In]; tauto.
  - apply IH in H. destruct H as (c' & Hc' & He). exists c'. split; [right|]; assumption.
Qed.

Lemma reorder_insert_In c acc x :
  In x (reorder_insert U c acc) -> x = c \/ In x acc.
Proof.
  induction acc as [|p r IH]; cbn [reorder_insert].
  - intros [<-|[]]. left. reflexivity.
  - destruct (ccc U c <? ccc U p)%N.
    + intros [<-|H]; [right; left; reflexivity|].
      apply IH in H. destruct H; [left|right; right]; assumption.
    + intros [<-|H]; [left; reflexivity|right; exact H].
Qed.

Lemma reorder_fold_In s acc x :
  In x (fold_left (reorder_step U) s acc) -> In x acc \/ In x s.
Proof.
  revert acc; induction s as [|c s IH]; intros acc; cbn [fold_left]; [tauto|].
  intros H. apply IH in H. destruct H as [H|H]; [|right; right; exact H].
  unfold reorder_step in H. destruct (ccc U c =? 0)%N.
  - destruct H as [<-|H]; [right; left; reflexivity|left; exact H].
  - apply reorder_insert_In in H. destruct H as [->|H]; [right; left; reflexivity|left; exact H].
Qed.

Lemma nfd_In d s : In d (nfd U s) -> exists e, In e s /\ In d (decomp U e).
Proof.
  unfold nfd, canonical_order. intros H. apply in_rev in H.
  apply reorder_fold_In in H. destruct H as [[]|H].
  apply in_flat_map in H. exact H.
Qed.

Lemma reorder_fold_starters s acc :
  (forall c, In c s -> ccc U c = 0%N) ->
  fold_left (reorder_step U) s acc = rev s ++ acc.
Proof.
  revert acc; induction s as [|c s IH]; intros acc H; cbn [fold_left rev]; [reflexivity|].
  rewrite IH by (intros x Hx; apply H; right; exact Hx).
  unfold reorder_step. rewrite (H c (or_introl eq_refl)). cbn [N.eqb].
  rewrite <- app_assoc. reflexivity.
Qed.

Lemma canonical_order_starters s :
  (forall c, In c s -> ccc U c = 0%N) -> canonical_order U s = s.
Proof.
  intros H. unfold canonical_order. rewrite reorder_fold_starters by exact H.
  rewrite app_nil_r. apply rev_involutive.
Qed.

Hypothesis laws : norm_laws U.

Lemma settled_facts d :
  settled U d ->
  lower_full U d = [d] /\ d <> 931%N /\ decomp U d = [d] /\ ccc U d = 0%N
  /\ is_Mn U d = false /\ class_w U d || class_s U d = true.
Proof.
  intros [->|(Hs & Hw & Hm & Hl & Hn & Hd & Hc)].
  - repeat split; try apply laws; try discriminate.
    unfold class_s. rewrite (space_is_space laws). apply orb_true_r.
  - repeat split; try assumption. rewrite Hw. reflexivity.
Qed.

(** The characters of a normalised text. *)
Lemma norm_settled s d : In d (_norm U s) -> settled U d.
Proof.
  unfold _norm. intros H. apply strip_In in H.
  apply runs_In in H. destruct H as [H|[H Hs]]; [left; exact H|].
  apply sub_each_In in H. destruct H as [H|[H Hw]]; [left; exact H|].
  apply filter_In in H. destruct H as [H Hm].
  apply nfd_In in H. destruct H as (e & He & Hd).
  apply lower_go_In in He. destruct He as (c & _ & He).
  apply negb_false_iff in Hw. unfold class_s in Hs, Hw. rewrite Hs, orb_false_r in Hw.
  apply negb_true_iff in Hm.
  destruct (word_stable laws c e d He Hd Hw) as (H1 & H2 & H3 & H4).
  right. repeat split; assumption.
Qed.

Lemma lower_go_settled b s :
  (forall d, In d s -> settled U d) -> lower_go U b s = s.
Proof.
  revert b; induction s as [|c s IH]; intros b H; cbn [lower_go]; [reflexivity|].
  destruct (settled_facts (H c (or_introl eq_refl))) as (Hl & Hn & _).
  unfold cp_eqb. destruct (N.eqb_spec c 931); [contradiction|].
  rewrite Hl, IH by (intros d Hd; apply H; right; exact Hd). reflexivity.
Qed.

Lemma decomp_settled s :
  (forall d, In d s -> settled U d) -> flat_map (decomp U) s = s.
Proof.
  induction s as [|c s IH]; intros H; cbn [flat_map]; [reflexivity|].
  destruct (settled_facts (H c (or_introl eq_refl))) as (_ & _ & Hd & _).
  rewrite Hd, IH by (intros d Hd'; apply H; right; exact Hd'). reflexivity.
Qed.

Lemma filter_settled s :
  (forall d, In d s -> settled U d) ->
  filter (fun ch => negb (is_Mn U ch)) s = s.
Proof.
  induction s as [|c s IH]; intros H; cbn [filter]; [reflexivity|].
  destruct (settled_facts (H c (or_introl eq_refl))) as (_ & _ & _ & _ & Hm & _).
  rewrite Hm, IH by (intros d Hd'; apply H; right; exact Hd'). reflexivity.
Qed.

Lemma sub_each_settled s :
  (forall d, In d s -> settled U d) ->
  re_sub_each (fun c => negb (class_w U c || class_s U c)) (py " ") s = s.
Proof.
  unfold re_sub_each. induction s as [|c s IH]; intros H; cbn [flat_map]; [reflexivity|].
  destruct (settled_facts (H c (or_introl eq_refl))) as (_ & _ & _ & _ & _ & Hw).
  rewrite Hw, IH by (intros d Hd'; apply H; right; exact Hd'). reflexivity.
Qed.

(** C10. Normalising a normalised text changes nothing, whenever the
    character database has the properties [norm_laws]. *)
Theorem norm_idempotent s : _norm U (Some (_norm U s)) = _norm U s.
Proof.
  pose proof (norm_settled s) as Hs.
  set (o := _norm U s) in *.
  unfold _norm at 1. cbn [or_empty]. unfold str_lower.
  rewrite lower_go_settled by exact Hs.
  unfold nfd. rewrite decomp_settled by exact Hs.
  rewrite canonical_order_starters
    by (intros c Hc; apply (settled_facts (Hs c Hc))).
  rewrite filter_settled by exact Hs. rewrite sub_each_settled by exact Hs.
  unfold o, _norm. apply collapse_strip_again. apply laws.
Qed.

End Lowering.

(* ------------------------------------------------------------------ *)
(** ** The Latin-1 database has the properties asked for *)

Lemma code_points_In n c : (c < N.of_nat n)%N -> In c (code_points n).
Proof.
  intros H. unfold code_points. rewrite <- (N2Nat.id c).
  apply in_map, in_seq. lia.
Qed.

Lemma mem_In c l : mem c l = true <-> In c l.
Proof.
  unfold mem. rewrite existsb_exists. split.
  - intros (x & Hx & E). apply N.eqb_eq in E. subst. exact Hx.
  - intros H. exists c. split; [exact H|apply N.eqb_refl].
Qed.

Lemma mem_above (B : N) c l :
  forallb (fun x => N.ltb x B) l = true -> (B <= c)%N -> mem c l = false.
Proof.
  intros Hl Hc. destruct (mem c l) eqn:E; [exfalso|reflexivity].
  apply mem_In in E. rewrite forallb_forall in Hl. apply Hl, N.ltb_lt in E. lia.
Qed.

Lemma assoc_above (A : Type) (B : N) c (t : list (cp * A)) :
  forallb (fun kv => N.ltb (fst kv) B) t = true -> (B <= c)%N ->
  assoc_list c t = None.
Proof.
  intros Ht Hc. induction t as [|[k v] t IH]; cbn [assoc_list]; [reflexivity|].
  cbn [forallb fst] in Ht. apply andb_prop in Ht. destruct Ht as [Hk Ht].
  apply N.ltb_lt in Hk. destruct (N.eqb_spec c k); [lia|]. apply IH, Ht.
Qed.

Lemma class_of_above (B : N) c (t : list (N * list cp)) :
  forallb (fun kl => forallb (fun x => N.ltb x B) (snd kl)) t = true ->
  (B <= c)%N -> class_of c t = 0%N.
Proof.
  intros Ht Hc. induction t as [|[k l] t IH]; cbn [class_of]; [reflexivity|].
  cbn [forallb snd] in Ht. apply andb_prop in Ht. destruct Ht as [Hl Ht].
  rewrite (@mem_above B c l Hl Hc). apply IH, Ht.
Qed.

Lemma stable_b_spec d :
  stable_b d = true ->
  lower_full latin1 d = [d] /\ d <> 931%N /\ decomp latin1 d = [d]
  /\ ccc latin1 d = 0%N.
Proof.
  unfold stable_b. intros H.
  apply andb_prop in H. destruct H as [H Hc].
  apply andb_prop in H. destruct H as [H Hd].
  apply andb_prop in H. destruct H as [Hu Hn].
  apply negb_true_iff in Hu. apply negb_true_iff in Hn.
  cbn [lower_full decomp ccc latin1]. unfold latin1_lower. rewrite Hu.
  destruct (assoc_list d latin1_decomp); [discriminate|].
  apply N.eqb_neq in Hn. apply N.eqb_eq in Hc. auto.
Qed.

(** A word character is a Latin-1 character. *)
Lemma latin1_word_small d : class_w latin1 d = true -> (d < 256)%N.
Proof.
  unfold class_w. cbn [is_alnum latin1]. intros H.
  destruct (N.ltb_spec d 256) as [Hd|Hd]; [exact Hd|exfalso].
  rewrite (@mem_above 256 d latin1_alnum) in H; [|vm_compute; reflexivity|exact Hd].
  unfold cp_eqb in H. cbn [orb] in H. apply N.eqb_eq in H. lia.
Qed.

Lemma latin1_decomp_stable e d :
  mem e latin1_upper = false ->
  In d (decomp latin1 e) -> class_w latin1 d = true -> stable_b d = true.
Proof.
  intros Hu Hd Hw.
  destruct (N.ltb_spec e 880) as [He|He].
  - assert (Hall : forallb (fun e => mem e latin1_upper || decomp_stable_b e)
                     (code_points 880) = true) by (vm_compute; reflexivity).
    rewrite forallb_forall in Hall.
    specialize (Hall e (@code_points_In 880 e He)). rewrite Hu in Hall.
    cbn [orb] in Hall. unfold decomp_stable_b in Hall.
    rewrite forallb_forall in Hall. specialize (Hall d Hd).
    rewrite Hw in Hall. exact Hall.
  - exfalso. cbn [decomp latin1] in Hd.
    rewrite (@assoc_above _ 880 e latin1_decomp) in Hd;
      [|vm_compute; reflexivity|exact He].
    destruct Hd as [<-|[]]. apply latin1_word_small in Hw. lia.
Qed.

Lemma latin1_lowered_not_upper c e :
  In e (lowered latin1 c) -> mem e latin1_upper = false.
Proof.
  unfold lowered, cp_eqb. destruct (N.eqb_spec c 931) as [->|Hc].
  - intros [<-|[<-|[]]]; vm_compute; reflexivity.
  - cbn [lower_full latin1]. intros [<-|[]]. unfold latin1_lower.
    destruct (mem c latin1_upper) eqn:Eu; [|exact Eu].
    assert (Hall : forallb (fun c => negb (mem (c + 32) latin1_upper)) latin1_upper
                   = true) by (vm_compute; reflexivity).
    rewrite forallb_forall in Hall. apply mem_In in Eu.
    apply negb_true_iff, Hall, Eu.
Qed.

Lemma latin1_norm_laws : norm_laws latin1.
Proof.
  constructor; try (vm_compute; reflexivity).
  intros c e d He Hd Hw. apply stable_b_spec.
  apply (@latin1_decomp_stable e d); [|exact Hd|exact Hw].
  apply (@latin1_lowered_not_upper c e He).
Qed.

Lemma plain_b_spec c : plain_b c = true -> plain c.
Proof.
  unfold plain_b, plain. intros H.
  apply andb_prop in H. destruct H as [H H3].
  apply andb_prop in H. destruct H as [H H2].
  apply andb_prop in H. destruct H as [H0 H1].
  apply negb_true_iff in H0, H1, H2, H3.
  apply N.eqb_neq in H1, H2, H3. auto.
Qed.

Lemma latin1_re_laws : re_laws latin1.
Proof.
  constructor.
  - intros c Hc. cbn [is_space latin1] in Hc. apply mem_In in Hc.
    assert (Hall : forallb (fun c => plain_b c
                     && match decimal latin1 c with None => true | Some _ => false end)
                     latin1_space = true) by (vm_compute; reflexivity).
    rewrite forallb_forall in Hall. specialize (Hall c Hc).
    apply andb_prop in Hall. destruct Hall as [Hp Hd].
    split; [apply plain_b_spec, Hp|].
    destruct (decimal latin1 c); [discriminate|reflexivity].
  - intros c v. cbn [decimal latin1].
    destruct ((48 <=? c)%N && (c <=? 57)%N) eqn:E; [|discriminate].
    intros _. apply andb_prop in E. destruct E as [E1 E2].
    apply N.leb_le in E1, E2.
    unfold plain, class_az.
    repeat split; try lia.
    destruct (N.leb_spec 97 c); [lia|reflexivity].
Qed.

Lemma norm_idempotent_witness :
  _norm latin1 (Some (_norm latin1 (Some (py "  ¿Variación del TOP_5?  "))))
  = _norm latin1 (Some (py "  ¿Variación del TOP_5?  "))
  /\ _norm latin1 (Some (py "  ¿Variación del TOP_5?  ")) = py "variacion del top_5".
Proof.
  split; [|vm_compute; reflexivity].
  apply (norm_idempotent latin1_norm_laws).
Defined.

(* ------------------------------------------------------------------ *)
(** ** The normaliser on examples *)

Lemma norm_examples :
  _norm latin1 None = []
  /\ _norm latin1 (Some []) = []
  /\ _norm latin1 (Some (py "Variación")) = py "variacion"
  /\ _norm latin1 (Some (py "  Top   5!!")) = py "top 5".
Proof. repeat split; vm_compute; reflexivity. Qed.

(** C5, at the input where the code departs from it.  The underscore is
    neither alphanumeric nor white space, and [_norm] keeps it:
    ["top_5 clientes"] stays as it is where the claim has
    ["top 5 clientes"].  ([\w] holds the underscore, so [[^\w\s]] does not
    match it.) *)
Theorem norm_keeps_underscore :
  is_alnum latin1 95%N = false
  /\ is_space latin1 95%N = false
  /\ (forall U : UCD,
        re_sub_each (fun c => negb (class_w U c || class_s U c)) (py " ") (py "_")
        = py "_")
  /\ _norm latin1 (Some (py "top_5 clientes")) = py "top_5 clientes"
  /\ _norm latin1 (Some (py "top_5 clientes")) <> py "top 5 clientes".
Proof.
  split; [reflexivity|]. split; [reflexivity|].
  split.
  { intros U. change (py "_") with [95%N]. unfold re_sub_each, class_w.
    cbn [flat_map cp_eqb N.eqb Pos.eqb]. rewrite orb_true_r. reflexivity. }
  split; [vm_compute; reflexivity | vm_compute; discriminate].
Qed.

(* ------------------------------------------------------------------ *)
(** ** Greedy matching *)

Lemma run_length_app f limit run rest :
  forallb f run = true ->
  within limit (length run) ->
  limit = Some (length run) \/ starts_outside f rest ->
  run_length f limit (run ++ rest) = length run.
Proof.
  revert limit; induction run as [|a run IH]; intros limit Hf Hw Hstop.
  - cbn [app length]. destruct Hstop as [->|Hstop]; [apply run_length_zero|].
    destruct rest as [|c r]; [destruct limit as [[|h]|]; reflexivity|].
    cbn [starts_outside] in Hstop.
    destruct limit as [[|h]|]; cbn [run_length]; rewrite ?Hstop; reflexivity.
  - cbn [forallb] in Hf. apply andb_prop in Hf. destruct Hf as [Ha Hf].
    cbn [app length] in *.
    destruct limit as [[|h]|]; cbn [within] in Hw; [lia| |].
    + cbn [run_length]. rewrite Ha. cbn [option_map pred]. f_equal.
      apply IH; [exact Hf|cbn [within]; lia|].
      destruct Hstop as [[= ->]|Hstop]; [left; reflexivity|right; exact Hstop].
    + cbn [run_length]. rewrite Ha. cbn [option_map]. f_equal.
      apply IH; [exact Hf|exact I|].
      destruct Hstop as [Hstop|Hstop]; [discriminate|right; exact Hstop].
Qed.

Lemma countdown_first (A : Type) k low (try : nat -> option A) r :
  try k = Some r -> countdown k low try = Some r.
Proof. intros H. destruct k; cbn [countdown]; rewrite H; reflexivity. Qed.

(** When the longest run a piece can take is followed by a match of the
    rest of the pattern, the piece takes it: no backtracking. *)
Lemma re_here_greedy p ps run rest gs :
  forallb (cls p) run = true ->
  within (hi p) (length run) ->
  lo p <= length run ->
  hi p = Some (length run) \/ starts_outside (cls p) rest ->
  re_here ps rest = Some gs ->
  re_here (p :: ps) (run ++ rest) = Some (if cap p then run :: gs else gs).
Proof.
  intros Hf Hw Hlo Hstop Hrest. cbn [re_here].
  rewrite (run_length_app _ _ _ Hf Hw Hstop).
  replace (length run <? lo p) with false by (symmetry; apply Nat.ltb_ge; exact Hlo).
  apply countdown_first.
  rewrite skipn_app, skipn_all, Nat.sub_diag. cbn [skipn app]. rewrite Hrest.
  rewrite firstn_app, firstn_all, Nat.sub_diag. cbn [firstn]. rewrite app_nil_r.
  reflexivity.
Qed.

Lemma starts_outside_app f a b :
  forallb (fun c => negb (f c)) a = true ->
  starts_outside f b -> starts_outside f (a ++ b).
Proof.
  destruct a as [|c a]; cbn [app forallb starts_outside]; [tauto|].
  intros H _. apply andb_prop in H. apply negb_true_iff, (proj1 H).
Qed.

Lemma starts_outside_cons f c s : f c = false -> starts_outside f (c :: s).
Proof. intros H. exact H. Qed.

(* ------------------------------------------------------------------ *)
(** ** The pattern of period labels *)

Section PeriodPattern.

Variable U : UCD.
Hypothesis laws : re_laws U.

Lemma digit_is_plain c : class_d U c = true -> plain c.
Proof.
  unfold class_d. destruct (decimal U c) as [v|] eqn:E; [|discriminate].
  intros _. apply (digit_plain laws c E).
Qed.

Lemma digit_not_space c : class_d U c = true -> is_space U c = false.
Proof.
  intros H. destruct (is_space U c) eqn:E; [|reflexivity].
  apply (space_plain laws) in E. destruct E as [_ E].
  unfold class_d in H. rewrite E in H. discriminate.
Qed.

Lemma plain_outside c :
  plain c ->
  class_az c = false /\ is_char 46%N c = false /\ sep_class c = false.
Proof.
  intros (H0 & H1 & H2 & H3). unfold is_char, sep_class, cp_eqb.
  repeat split; [exact H0| |].
  - apply N.eqb_neq. exact H1.
  - apply orb_false_iff. split; apply N.eqb_neq; assumption.
Qed.

Lemma year_starts_outside f year rest :
  length year = 4 ->
  (forall c, class_d U c = true -> f c = false) ->
  forallb (class_d U) year = true ->
  starts_outside f (year ++ rest).
Proof.
  destruct year as [|c year]; [discriminate|].
  intros _ Hf Hy. cbn [forallb] in Hy. apply andb_prop in Hy.
  apply Hf, (proj1 Hy).
Qed.

(** The match on a clean label: letters, an optional dot, white space, an
    optional separator that, when absent, leaves no white space after it,
    and four digits. *)
Lemma re_periodo_match letters dot ws1 sep ws2 year rest :
  3 <= length letters <= 5 ->
  forallb class_az letters = true ->
  dot = [] \/ dot = py "." ->
  forallb (is_space U) ws1 = true ->
  (sep = [] /\ ws2 = []) \/ sep = py "-" \/ sep = py "/" ->
  forallb (is_space U) ws2 = true ->
  length year = 4 ->
  forallb (class_d U) year = true ->
  re_here (RE_PERIODO U)
    (letters ++ dot ++ ws1 ++ sep ++ ws2 ++ year ++ rest)
  = Some [letters; year].
Proof.
  intros Hlen Hlet Hdot Hws1 Hsep Hws2 Hylen Hyear.
  change (py ".") with [46%N] in Hdot.
  change (py "-") with [45%N] in Hsep. change (py "/") with [47%N] in Hsep.
  assert (Yaz : starts_outside class_az (year ++ rest))
    by (apply year_starts_outside; [exact Hylen| |exact Hyear];
        intros c Hc; apply plain_outside, digit_is_plain, Hc).
  assert (Ydot : starts_outside (is_char 46%N) (year ++ rest))
    by (apply year_starts_outside; [exact Hylen| |exact Hyear];
        intros c Hc; apply plain_outside, digit_is_plain, Hc).
  assert (Ysep : starts_outside sep_class (year ++ rest))
    by (apply year_starts_outside; [exact Hylen| |exact Hyear];
        intros c Hc; apply plain_outside, digit_is_plain, Hc).
  assert (Ysp : starts_outside (class_s U) (year ++ rest))
    by (apply year_starts_outside; [exact Hylen| |exact Hyear];
        intros c Hc; apply digit_not_space, Hc).
  assert (Wout : forall ws, forallb (is_space U) ws = true ->
            forallb (fun c => negb (class_az c)) ws = true
            /\ forallb (fun c => negb (is_char 46%N c)) ws = true).
  { intros ws Hws. rewrite !forallb_forall in *. split; intros c Hc;
      apply negb_true_iff, plain_outside, (space_plain laws), Hws, Hc. }
  (* the last piece: the year *)
  assert (M6 : re_here [group (between 4 4 (class_d U))] (year ++ rest) = Some [year]).
  { apply (re_here_greedy (group (between 4 4 (class_d U))) [] year rest (gs := []));
      cbn [group between cls lo hi cap within]; try lia; try assumption.
    - left. rewrite Hylen. reflexivity.
    - reflexivity. }
  (* white space before the year *)
  assert (M5 : re_here [star (class_s U); group (between 4 4 (class_d U))]
                 (ws2 ++ year ++ rest) = Some [year]).
  { apply (re_here_greedy (star (class_s U)) _ ws2 (year ++ rest) (gs := [year]));
      cbn [star cls lo hi cap within]; try lia; try assumption; try exact I.
    right. exact Ysp. }
  (* the separator *)
  assert (M4 : re_here [opt sep_class; star (class_s U);
                        group (between 4 4 (class_d U))]
                 (sep ++ ws2 ++ year ++ rest) = Some [year]).
  { apply (re_here_greedy (opt sep_class) _ sep (ws2 ++ year ++ rest) (gs := [year]));
      cbn [opt cls lo hi cap within]; try lia; try assumption.
    - destruct Hsep as [[-> _] | [-> | ->]]; reflexivity.
    - destruct Hsep as [[-> _] | [-> | ->]]; cbn [length]; lia.
    - destruct Hsep as [[-> ->] | [-> | ->]]; [right; exact Ysep|left; reflexivity..]. }
  (* white space before the separator *)
  assert (M3 : re_here [star (class_s U); opt sep_class; star (class_s U);
                        group (between 4 4 (class_d U))]
                 (ws1 ++ sep ++ ws2 ++ year ++ rest) = Some [year]).
  { apply (re_here_greedy (star (class_s U)) _ ws1 (sep ++ ws2 ++ year ++ rest)
             (gs := [year]));
      cbn [star cls lo hi cap within]; try lia; try assumption; try exact I.
    right. destruct Hsep as [[-> ->] | [-> | ->]]; [exact Ysp| |];
      apply starts_outside_cons; unfold class_s;
      (destruct (is_space U _) eqn:E; [|reflexivity]);
      apply (space_plain laws) in E; destruct E as [(_ & _ & E1 & E2) _]; congruence. }
  (* the dot *)
  assert (M2 : re_here [opt (is_char 46%N); star (class_s U); opt sep_class;
                        star (class_s U); group (between 4 4 (class_d U))]
                 (dot ++ ws1 ++ sep ++ ws2 ++ year ++ rest) = Some [year]).
  { apply (re_here_greedy (opt (is_char 46%N)) _ dot
             (ws1 ++ sep ++ ws2 ++ year ++ rest) (gs := [year]));
      cbn [opt cls lo hi cap within]; try lia; try assumption.
    - destruct Hdot as [-> | ->]; reflexivity.
    - destruct Hdot as [-> | ->]; cbn [length]; lia.
    - destruct Hdot as [-> | ->]; [right|left; reflexivity].
      apply starts_outside_app; [apply (Wout ws1 Hws1)|].
      destruct Hsep as [[-> ->] | [-> | ->]]; [exact Ydot|reflexivity..]. }
  (* the letters *)
  unfold RE_PERIODO.
  apply (re_here_greedy (group (between 3 5 class_az)) _ letters
           (dot ++ ws1 ++ sep ++ ws2 ++ year ++ rest) (gs := [year]));
    cbn [group between cls lo hi cap within]; try lia; try assumption.
  right.
  apply starts_outside_app; [destruct Hdot as [-> | ->]; reflexivity|].
  apply starts_outside_app; [apply (Wout ws1 Hws1)|].
  destruct Hsep as [[-> ->] | [-> | ->]]; [exact Yaz|reflexivity..].
Qed.

End PeriodPattern.

(* ------------------------------------------------------------------ *)
(** ** Period keys *)

Lemma replace_dot_letters l :
  forallb class_az l = true -> str_replace 46%N [] l = l.
Proof.
  unfold str_replace. induction l as [|c l IH]; cbn [forallb flat_map]; [reflexivity|].
  intros H. apply andb_prop in H. destruct H as [Hc Hl]. rewrite (IH Hl).
  unfold class_az in Hc. apply andb_prop in Hc. destruct Hc as [Hc _].
  apply N.leb_le in Hc. unfold cp_eqb. destruct (N.eqb_spec c 46); [lia|reflexivity].
Qed.

Lemma month_number_range k m : month_number k = Some m -> (1 <= m <= 12)%N.
Proof.
  unfold month_number, MONTHS_ES.
  generalize (if startswith (py "sept") k then firstn 4 k else firstn 3 k).
  intros key. cbn [dict_get].
  repeat match goal with
         | |- context [if ?b then _ else _] => destruct b
         end;
    intros [= <-]; lia.
Qed.

Lemma periodo_key_of_match (U : UCD) label letters year :
  re_match (RE_PERIODO U) (periodo_clean U label) = Some [letters; year] ->
  forallb class_az letters = true ->
  _periodo_key U (Some label) =
  match month_number letters with
  | Some m => Some (py_int U year * 100 + m)%N
  | None => None
  end.
Proof.
  intros Hm Hl. unfold _periodo_key. rewrite Hm, (replace_dot_letters _ Hl).
  destruct (month_number letters) as [m|] eqn:E; [|reflexivity].
  apply month_number_range in E.
  destruct (N.eqb_spec m 0); [lia|reflexivity].
Qed.

(** What a match of a pattern tells about the string: each piece took a
    run of its class, of a length its quantifier allows. *)
Lemma run_length_facts f limit s :
  run_length f limit s <= length s
  /\ within limit (run_length f limit s)
  /\ forallb f (firstn (run_length f limit s) s) = true.
Proof.
  revert limit; induction s as [|c s IH]; intros limit.
  - destruct limit as [[|h]|]; cbn; repeat split; lia.
  - destruct limit as [[|h]|].
    + cbn. repeat split; lia.
    + cbn [run_length option_map pred]. destruct (f c) eqn:E.
      * destruct (IH (Some h)) as (H1 & H2 & H3). cbn [within] in *.
        cbn [length firstn forallb]. rewrite E, H3. repeat split; lia.
      * cbn. repeat split; lia.
    + cbn [run_length option_map]. destruct (f c) eqn:E.
      * destruct (IH None) as (H1 & _ & H3).
        cbn [length firstn forallb within]. rewrite E, H3. repeat split; lia.
      * cbn. repeat split; lia.
Qed.

Lemma forallb_firstn_le (f : cp -> bool) k n (s : pystr) :
  k <= n -> forallb f (firstn n s) = true -> forallb f (firstn k s) = true.
Proof.
  revert k n; induction s as [|c s IH]; intros k n Hk.
  - rewrite !firstn_nil. reflexivity.
  - destruct k as [|k]; [reflexivity|]. destruct n as [|n]; [lia|].
    cbn [firstn forallb]. intros H. apply andb_prop in H. destruct H as [-> H].
    apply (IH k n); [lia|exact H].
Qed.

Lemma countdown_range (A : Type) k low (try : nat -> option A) r :
  countdown k low try = Some r -> low <= k ->
  exists j, low <= j <= k /\ try j = Some r.
Proof.
  induction k as [|k IH]; cbn [countdown].
  - destruct (try 0) eqn:E; [|discriminate]. intros [= <-] Hl.
    exists 0. split; [lia|exact E].
  - destruct (try (S k)) eqn:E.
    + intros [= <-] Hl. exists (S k). split; [lia|exact E].
    + destruct (Nat.ltb_spec k low) as [Hlt|Hge]; [discriminate|]. intros H _.
      destruct (IH H Hge) as (j & Hj & Hr). exists j. split; [lia|exact Hr].
Qed.

Lemma re_here_inv p ps s gs :
  re_here (p :: ps) s = Some gs ->
  exists k gs',
    lo p <= k /\ within (hi p) k /\ k <= length s
    /\ forallb (cls p) (firstn k s) = true
    /\ re_here ps (skipn k s) = Some gs'
    /\ gs = if cap p then firstn k s :: gs' else gs'.
Proof.
  cbn [re_here]. intros H.
  destruct (Nat.ltb_spec (run_length (cls p) (hi p) s) (lo p)) as [|Hlo];
    [discriminate|].
  apply countdown_range in H; [|exact Hlo]. destruct H as (k & Hk & H).
  destruct (re_here ps (skipn k s)) as [gs'|] eqn:E; [|discriminate].
  injection H as <-.
  destruct (run_length_facts (cls p) (hi p) s) as (H1 & H2 & H3).
  exists k, gs'. split; [lia|]. split.
  { destruct (hi p) as [h|]; cbn [within] in *; lia. }
  split; [lia|]. split; [apply (@forallb_firstn_le _ _ _ _ (proj2 Hk) H3)|].
  split; [exact E|reflexivity].
Qed.

Lemma short_run (f : cp -> bool) (a : cp) k s :
  k <= 1 -> k <= length s -> forallb f (firstn k s) = true ->
  (forall c, f c = true -> c = a) ->
  firstn k s = [] \/ firstn k s = [a].
Proof.
  intros Hk Hlen Hf Ha. destruct k as [|[|k]]; [left; reflexivity| |lia].
  destruct s as [|c s]; [cbn in Hlen; lia|]. right. cbn [firstn forallb] in *.
  apply andb_prop in Hf. rewrite (Ha c (proj1 Hf)). reflexivity.
Qed.

Lemma short_run2 (f : cp -> bool) (a b : cp) k s :
  k <= 1 -> k <= length s -> forallb f (firstn k s) = true ->
  (forall c, f c = true -> c = a \/ c = b) ->
  firstn k s = [] \/ firstn k s = [a] \/ firstn k s = [b].
Proof.
  intros Hk Hlen Hf Ha. destruct k as [|[|k]]; [left; reflexivity| |lia].
  destruct s as [|c s]; [cbn in Hlen; lia|]. right. cbn [firstn forallb] in *.
  apply andb_prop in Hf. destruct (Ha c (proj1 Hf)) as [-> | ->]; [left|right]; reflexivity.
Qed.

(** The shape of a string the pattern of period labels matches. *)
Lemma re_periodo_inv (U : UCD) s g1 g2 :
  re_here (RE_PERIODO U) s = Some [g1; g2] ->
  exists dot ws1 sep ws2 rest,
    s = g1 ++ dot ++ ws1 ++ sep ++ ws2 ++ g2 ++ rest
    /\ 3 <= length g1 <= 5
    /\ forallb class_az g1 = true
    /\ (dot = [] \/ dot = py ".")
    /\ forallb (is_space U) ws1 = true
    /\ (sep = [] \/ sep = py "-" \/ sep = py "/")
    /\ forallb (is_space U) ws2 = true
    /\ length g2 = 4
    /\ forallb (class_d U) g2 = true.
Proof.
  unfold RE_PERIODO. intros H.
  apply re_here_inv in H. destruct H as (k1 & gs1 & L1 & W1 & B1 & F1 & H & E1).
  apply re_here_inv in H. destruct H as (k2 & gs2 & L2 & W2 & B2 & F2 & H & E2).
  apply re_here_inv in H. destruct H as (k3 & gs3 & L3 & W3 & B3 & F3 & H & E3).
  apply re_here_inv in H. destruct H as (k4 & gs4 & L4 & W4 & B4 & F4 & H & E4).
  apply re_here_inv in H. destruct H as (k5 & gs5 & L5 & W5 & B5 & F5 & H & E5).
  apply re_here_inv in H. destruct H as (k6 & gs6 & L6 & W6 & B6 & F6 & H & E6).
  cbn [re_here] in H. injection H as <-.
  cbn [group between opt star cls lo hi cap within] in *.
  subst gs5 gs4 gs3 gs2 gs1. injection E1 as -> ->.
  set (s1 := skipn k1 s) in *. set (s2 := skipn k2 s1) in *.
  set (s3 := skipn k3 s2) in *. set (s4 := skipn k4 s3) in *.
  set (s5 := skipn k5 s4) in *.
  exists (firstn k2 s1), (firstn k3 s2), (firstn k4 s3), (firstn k5 s4), (skipn k6 s5).
  split.
  { unfold s5, s4, s3, s2, s1. rewrite !firstn_skipn. reflexivity. }
  split; [rewrite length_firstn; lia|].
  split; [exact F1|].
  split.
  { apply (@short_run (is_char 46%N) 46%N k2 s1); try assumption.
    intros c Hc. unfold is_char, cp_eqb in Hc. apply N.eqb_eq, Hc. }
  split; [exact F3|].
  split.
  { apply (@short_run2 sep_class 45%N 47%N k4 s3); try assumption.
    intros c Hc. unfold sep_class, cp_eqb in Hc.
    apply orb_prop in Hc. destruct Hc as [Hc|Hc]; apply N.eqb_eq in Hc; tauto. }
  split; [exact F5|].
  split; [rewrite length_firstn; lia|exact F6].
Qed.

(** C4. A label that, once trimmed, lower-cased and stripped of the five
    accents, is: three to five letters, an optional dot, optional white
    space, an optional [-] or [/], optional white space and four digits
    (whatever follows), has the key [year * 100 + month], where the month
    is what the table gives for the first three letters, or for the first
    four when the letters start with [sept]; the key is [None] when that
    prefix is not in the table.  Conversely a label has a key only when it
    is of this shape and its prefix is in the table.  The table has the
    thirteen abbreviations.  [Jul-2025] gives 202507, [sept. 2024] gives
    202409, [garbage] gives [None]; the letters after the prefix do not
    count ([enero 2025] gives 202501, [julio-2025] 202507, [dicho 2025]
    202512), an unknown prefix gives [None] ([xyz 2025]) and so do more
    than five letters ([septiembre 2024]). *)
Theorem periodo_key_spec :
  (forall U : UCD,
     re_laws U ->
     forall label letters dot ws1 sep ws2 year rest,
       periodo_clean U label = letters ++ dot ++ ws1 ++ sep ++ ws2 ++ year ++ rest ->
       3 <= length letters <= 5 ->
       forallb class_az letters = true ->
       dot = [] \/ dot = py "." ->
       forallb (is_space U) ws1 = true ->
       sep = [] \/ sep = py "-" \/ sep = py "/" ->
       forallb (is_space U) ws2 = true ->
       length year = 4 ->
       forallb (class_d U) year = true ->
       _periodo_key U (Some label) =
       match
         dict_get MONTHS_ES
           (if startswith (py "sept") letters then firstn 4 letters
            else firstn 3 letters)
       with
       | Some m => Some (py_int U year * 100 + m)%N
       | None => None
       end)
  /\ (forall (U : UCD) label k,
        _periodo_key U (Some label) = Some k ->
        exists letters dot ws1 sep ws2 year rest m,
          periodo_clean U label = letters ++ dot ++ ws1 ++ sep ++ ws2 ++ year ++ rest
          /\ 3 <= length letters <= 5
          /\ forallb class_az letters = true
          /\ (dot = [] \/ dot = py ".")
          /\ forallb (is_space U) ws1 = true
          /\ (sep = [] \/ sep = py "-" \/ sep = py "/")
          /\ forallb (is_space U) ws2 = true
          /\ length year = 4
          /\ forallb (class_d U) year = true
          /\ dict_get MONTHS_ES
               (if startswith (py "sept") letters then firstn 4 letters
                else firstn 3 letters) = Some m
          /\ k = (py_int U year * 100 + m)%N)
  /\ (forall U : UCD, _periodo_key U None = None)
  /\ MONTHS_ES
     = [ (py "ene", 1); (py "feb", 2); (py "mar", 3); (py "abr", 4); (py "may", 5);
         (py "jun", 6); (py "jul", 7); (py "ago", 8); (py "sep", 9); (py "sept", 9);
         (py "oct", 10); (py "nov", 11); (py "dic", 12) ]%N
  /\ (forall k m, month_number k = Some m -> (1 <= m <= 12)%N)
  /\ map month_number
       [py "ene"; py "feb"; py "mar"; py "abr"; py "may"; py "jun"; py "jul";
        py "ago"; py "sep"; py "sept"; py "oct"; py "nov"; py "dic"]
     = map Some [1; 2; 3; 4; 5; 6; 7; 8; 9; 9; 10; 11; 12]%N
  /\ _periodo_key latin1 (Some (py "Jul-2025")) = Some 202507%N
  /\ _periodo_key latin1 (Some (py "sept. 2024")) = Some 202409%N
  /\ _periodo_key latin1 (Some (py "garbage")) = None
  /\ _periodo_key latin1 (Some (py "enero 2025")) = Some 202501%N
  /\ _periodo_key latin1 (Some (py "julio-2025")) = Some 202507%N
  /\ _periodo_key latin1 (Some (py "dicho 2025")) = Some 202512%N
  /\ _periodo_key latin1 (Some (py "xyz 2025")) = None
  /\ _periodo_key latin1 (Some (py "septiembre 2024")) = None.
Proof.
  split.
  { intros U laws label letters dot ws1 sep ws2 year rest E Hlen Hlet Hdot Hws1 Hsep
           Hws2 Hylen Hyear.
    change (dict_get MONTHS_ES
              (if startswith (py "sept") letters then firstn 4 letters
               else firstn 3 letters))
      with (month_number letters).
    apply periodo_key_of_match; [|exact Hlet]. unfold re_match. rewrite E.
    destruct Hsep as [-> | Hsep].
    - (* no separator: the white space is one run *)
      cbn [app]. rewrite (app_assoc ws1 ws2).
      change (letters ++ dot ++ (ws1 ++ ws2) ++ year ++ rest)
        with (letters ++ dot ++ (ws1 ++ ws2) ++ [] ++ [] ++ year ++ rest).
      apply re_periodo_match; try assumption.
      + rewrite forallb_app, Hws1, Hws2. reflexivity.
      + left. split; reflexivity.
      + reflexivity.
    - apply re_periodo_match; try assumption. right. exact Hsep. }
  split.
  { intros U label k H. unfold _periodo_key in H.
    destruct (re_match (RE_PERIODO U) (periodo_clean U label))
      as [[|g1 [|g2 [|g3 gs]]]|] eqn:Em; try discriminate.
    unfold re_match in Em. apply re_periodo_inv in Em.
    destruct Em as (dot & ws1 & sep & ws2 & rest & E & Hlen & Hlet & Hdot & Hws1
                    & Hsep & Hws2 & Hylen & Hyear).
    rewrite (replace_dot_letters _ Hlet) in H.
    destruct (month_number g1) as [m|] eqn:Emon; [|discriminate].
    destruct (N.eqb m 0); [discriminate|]. injection H as <-.
    exists g1, dot, ws1, sep, ws2, g2, rest, m.
    split; [exact E|]. split; [exact Hlen|]. split; [exact Hlet|].
    split; [exact Hdot|]. split; [exact Hws1|]. split; [exact Hsep|].
    split; [exact Hws2|]. split; [exact Hylen|]. split; [exact Hyear|].
    split; [exact Emon|reflexivity]. }
  split; [reflexivity|].
  split; [reflexivity|].
  split; [apply month_number_range|].
  repeat split; vm_compute; reflexivity.
Qed.

Lemma periodo_key_witness :
  _periodo_key latin1 (Some (py "  Ago. /  2023 (cierre)")) = Some 202308%N.
Proof.
  apply (proj1 periodo_key_spec latin1 latin1_re_laws
           (py "  Ago. /  2023 (cierre)")
           (py "ago") (py ".") (py " ") (py "/") (py "  ") (py "2023") (py " (cierre)"));
    try (vm_compute; reflexivity).
  - cbn [length]. vm_compute. lia.
  - right. reflexivity.
  - right. right. reflexivity.
Defined.

(* ================================================================== *)
(** * A reload is not one step *)

(** C9, as the code has it.  A reload ends in the state of a fresh load,
    where the four tables are the caches of the new record set; but it gets
    there by six assignments, and from the first of them the new record
    set is visible: after line 159 the globals hold the new record set with
    the four tables and the time stamp of the previous load, a state that
    is coherent only if the previous tables happen to be the caches of the
    new record set. *)
Theorem reload_is_stepwise (U : UCD) (L : PyLib) sheet now st :
  let new := load_data U L sheet now in
  let s1 := after_line_159 L sheet st in
  (exists s2 s3 s4 s5, reload_trace U L sheet now st = [s1; s2; s3; s4; s5; new])
  /\ coherent U L new
  /\ (forall s, In s (reload_trace U L sheet now st) -> DF s = DF new)
  /\ (G_BY_PERIOD s1 = G_BY_PERIOD st
      /\ G_BY_EMISORA s1 = G_BY_EMISORA st
      /\ G_SERVICES s1 = G_SERVICES st
      /\ TOP_CLIENTS s1 = TOP_CLIENTS st
      /\ LAST_LOAD_TS s1 = LAST_LOAD_TS st)
  /\ (coherent U L s1 <->
      (G_BY_PERIOD st, G_BY_EMISORA st, G_SERVICES st, TOP_CLIENTS st)
      = (G_BY_PERIOD new, G_BY_EMISORA new, G_SERVICES new, TOP_CLIENTS new)).
Proof.
  intros new s1. unfold new, s1, coherent, reload_trace, load_data.
  destruct (_build_caches U (float64 L) (map (coerce_row L) sheet))
    as [[[g1 g2] g3] g4] eqn:E.
  cbn [DF G_BY_PERIOD G_BY_EMISORA G_SERVICES TOP_CLIENTS LAST_LOAD_TS after_line_159].
  split; [do 4 eexists; reflexivity|].
  split; [symmetry; exact E|].
  split.
  { intros s Hs. cbn [In] in Hs.
    repeat (destruct Hs as [<-|Hs]; [reflexivity|]). destruct Hs. }
  split; [repeat split|].
  rewrite E. reflexivity.
Qed.

Lemma reload_is_stepwise_witness :
  DF (after_line_159 cpython mixed_sheet demo) = DF mixed
  /\ TOP_CLIENTS (after_line_159 cpython mixed_sheet demo) = TOP_CLIENTS demo.
Proof.
  split.
  - apply (proj1 (proj2 (proj2 (reload_is_stepwise latin1 cpython mixed_sheet
                                    demo_now demo)))).
    left. reflexivity.
  - apply (proj2 (proj2 (proj2 (reload_is_stepwise latin1 cpython mixed_sheet
                                   demo_now demo)))).
Defined.

(** A reload can be seen half done.  While the sheet [mixed] is loaded
    over the globals of [demo], a handler that runs after line 159 finds
    the record set of [mixed] with the tables of [demo]: it answers
    ["variacion"] from the new records and ["top 3 clientes"] from the old
    ranking. *)
Lemma reload_torn_state :
  In (after_line_159 cpython mixed_sheet demo)
     (reload_trace latin1 cpython mixed_sheet demo_now demo)
  /\ ~ coherent latin1 cpython (after_line_159 cpython mixed_sheet demo)
  /\ ask latin1 cpython (after_line_159 cpython mixed_sheet demo) (py "variacion")
     = ask latin1 cpython mixed (py "variacion")
  /\ ask latin1 cpython (after_line_159 cpython mixed_sheet demo) (py "variacion")
     <> ask latin1 cpython demo (py "variacion")
  /\ ask latin1 cpython (after_line_159 cpython mixed_sheet demo) (py "top 3 clientes")
     = ask latin1 cpython demo (py "top 3 clientes")
  /\ ask latin1 cpython (after_line_159 cpython mixed_sheet demo) (py "top 3 clientes")
     <> ask latin1 cpython mixed (py "top 3 clientes").
Proof.
  split.
  { unfold reload_trace.
    destruct (_build_caches latin1 (float64 cpython) (map (coerce_row cpython) mixed_sheet))
      as [[[g1 g2] g3] g4].
    left. reflexivity. }
  split.
  { unfold coherent. intros H.
    apply (f_equal (fun t => length (snd t))) in H. vm_compute in H. discriminate. }
  split; [vm_compute; reflexivity|].
  split.
  { intros H.
    apply (f_equal (fun o => match o with Return (Md s) => length s | _ => 0 end)) in H.
    vm_compute in H. discriminate. }
  split; [vm_compute; reflexivity|].
  intros H.
  apply (f_equal (fun o => match o with Return (Md s) => length s | _ => 0 end)) in H.
  vm_compute in H. discriminate.
Qed.

(* ================================================================== *)
(** * Further properties of the period keys *)

Lemma dropwhile_app f a b :
  dropwhile f (a ++ b) =
  match dropwhile f a with
  | [] => dropwhile f b
  | r => r ++ b
  end.
Proof.
  induction a as [|c a IH]; cbn [app dropwhile]; [reflexivity|].
  destruct (f c); [exact IH|reflexivity].
Qed.

Lemma dropwhile_all f a : forallb f a = true -> dropwhile f a = [].
Proof.
  induction a as [|c a IH]; cbn [forallb dropwhile]; [reflexivity|].
  intros H. apply andb_prop in H. destruct H as [-> H]. apply IH, H.
Qed.

Lemma rstrip_all_space (U : UCD) ws :
  forallb (is_space U) ws = true -> str_rstrip U ws = [].
Proof.
  induction ws as [|c ws IH]; cbn [forallb str_rstrip]; [reflexivity|].
  intros H. apply andb_prop in H. destruct H as [Hc H]. rewrite (IH H), Hc. reflexivity.
Qed.

Lemma rstrip_app_space (U : UCD) y ws :
  forallb (is_space U) ws = true -> str_rstrip U (y ++ ws) = str_rstrip U y.
Proof.
  intros H. induction y as [|c y IH]; cbn [app].
  - apply rstrip_all_space, H.
  - cbn [str_rstrip]. rewrite IH. reflexivity.
Qed.

(** White space around a string does not change what [strip] returns. *)
Lemma strip_padded (U : UCD) ws1 s ws2 :
  forallb (is_space U) ws1 = true ->
  forallb (is_space U) ws2 = true ->
  str_strip U (ws1 ++ s ++ ws2) = str_strip U s.
Proof.
  intros H1 H2. unfold str_strip, str_lstrip.
  rewrite dropwhile_app, (dropwhile_all _ _ H1), dropwhile_app.
  destruct (dropwhile (is_space U) s) as [|c r].
  - rewrite (dropwhile_all _ _ H2). reflexivity.
  - apply rstrip_app_space, H2.
Qed.

(** X1. White space before and after a period label does not change its key. *)
Theorem periodo_key_padding (U : UCD) ws1 label ws2 :
  forallb (is_space U) ws1 = true ->
  forallb (is_space U) ws2 = true ->
  _periodo_key U (Some (ws1 ++ label ++ ws2)) = _periodo_key U (Some label).
Proof.
  intros H1 H2. unfold _periodo_key, periodo_clean.
  rewrite (strip_padded U ws1 label ws2 H1 H2). reflexivity.
Qed.

Lemma periodo_key_padding_witness :
  _periodo_key latin1 (Some (py "  " ++ py "Ene-2024" ++ [9%N; 160%N; 10%N]))
  = Some 202401%N.
Proof.
  rewrite periodo_key_padding; vm_compute; reflexivity.
Defined.

Lemma div_mod_lex a b :
  (a < b <->
   a / 100 < b / 100 \/ (a / 100 = b / 100 /\ a mod 100 < b mod 100))%N.
Proof.
  pose proof (N.div_mod a 100 ltac:(discriminate)) as Ha.
  pose proof (N.div_mod b 100 ltac:(discriminate)) as Hb.
  assert (Hma : (a mod 100 < 100)%N) by (apply N.mod_upper_bound; discriminate).
  assert (Hmb : (b mod 100 < 100)%N) by (apply N.mod_upper_bound; discriminate).
  revert Ha Hb Hma Hmb.
  generalize (a / 100)%N (a mod 100)%N (b / 100)%N (b mod 100)%N.
  intros qa ra qb rb Ha Hb Hma Hmb. lia.
Qed.

(** X2. A key is [year * 100 + month]: dividing it by 100 gives back the
    number the four digits stand for, the remainder is the month of the
    letters, between 1 and 12.  Keys therefore compare as (year, month)
    pairs. *)
Theorem periodo_key_decode (U : UCD) label k :
  _periodo_key U (Some label) = Some k ->
  (exists letters year,
     re_match (RE_PERIODO U) (periodo_clean U label) = Some [letters; year]
     /\ (k / 100)%N = py_int U year
     /\ month_number (str_replace 46%N [] letters) = Some (k mod 100)%N
     /\ (1 <= k mod 100 <= 12)%N)
  /\ (forall label' k',
        _periodo_key U (Some label') = Some k' ->
        (k < k' <->
         k / 100 < k' / 100 \/ (k / 100 = k' / 100 /\ k mod 100 < k' mod 100))%N).
Proof.
  intros H. split; [|intros label' k' _; apply div_mod_lex].
  unfold _periodo_key in H.
  destruct (re_match (RE_PERIODO U) (periodo_clean U label))
    as [[|g1 [|g2 [|g3 gs]]]|]; try discriminate.
  destruct (month_number (str_replace 46%N [] g1)) as [n|] eqn:En; [|discriminate].
  pose proof (month_number_range _ En) as Hn.
  destruct (N.eqb n 0); [discriminate|]. injection H as <-.
  assert (Hd : ((py_int U g2 * 100 + n) / 100 = py_int U g2)%N).
  { symmetry. apply (N.div_unique _ 100 _ n); lia. }
  assert (Hm : ((py_int U g2 * 100 + n) mod 100 = n)%N).
  { symmetry. apply (N.mod_unique _ 100 (py_int U g2) n); lia. }
  exists g1, g2. rewrite Hd, Hm. repeat split; try reflexivity; try exact En; lia.
Qed.

Lemma periodo_key_decode_witness :
  (202409 / 100 = py_int latin1 (py "2024"))%N
  /\ month_number (py "sept") = Some (202409 mod 100)%N.
Proof.
  destruct (proj1 (@periodo_key_decode latin1 (py "Sept. 2024") 202409%N
                     ltac:(vm_compute; reflexivity)))
    as (letters & year & Hm & Hy & Hmon & _).
  assert (E : Some [letters; year] = Some [py "sept"; py "2024"])
    by (rewrite <- Hm; vm_compute; reflexivity).
  injection E as -> ->. split; [exact Hy|exact Hmon].
Defined.

(* ================================================================== *)
(** * The order of the monthly table *)

(** X3. The table of totals by period lists first the periods whose label
    parses, in the order of their keys, then the periods whose label does
    not parse. *)
Theorem by_period_order (U : UCD) (L : PyLib) sheet now :
  exists dated undated,
    G_BY_PERIOD (load_data U L sheet now) = dated ++ undated
    /\ StronglySorted (key_le N.leb (@period_key U float)) dated
    /\ (forall r, In r undated -> period_key U r = None)
    /\ (forall r, In r dated -> period_key U r <> None).
Proof.
  unfold load_data, _build_caches. cbn [G_BY_PERIOD].
  unfold sort_by_period, sort_values.
  eexists. eexists. split; [reflexivity|].
  split; [apply sort_keyed_sorted; [apply N_leb_total | apply N_leb_trans]|].
  split.
  - intros r Hr. apply filter_In in Hr. destruct Hr as [_ Hr].
    apply negb_true_iff in Hr. unfold has_key in Hr.
    destruct (period_key U r); [discriminate|reflexivity].
  - intros r Hr. apply sort_keyed_has_key in Hr. apply has_key_iff in Hr. exact Hr.
Qed.

(* ================================================================== *)
(** * The shape of a normalised text *)

Lemma rstrip_last (U : UCD) s pre c :
  str_rstrip U s = pre ++ [c] -> is_space U c = false.
Proof.
  revert pre; induction s as [|a s IH]; intros pre; cbn [str_rstrip].
  - intros H. destruct pre; discriminate H.
  - destruct (str_rstrip U s) as [|x r] eqn:Er.
    + destruct (is_space U a) eqn:Ea; [destruct pre; discriminate|].
      intros H. destruct pre as [|p [|q pre]]; try discriminate.
      injection H as <-. exact Ea.
    + intros H. destruct pre as [|p pre]; [discriminate|].
      injection H as _ H. apply (IH pre H).
Qed.

Lemma tidy_adjacent (U : UCD) b pre x y post :
  tidy_from U b (pre ++ x :: y :: post) ->
  is_space U x = true -> is_space U y = false.
Proof.
  revert b; induction pre as [|c pre IH]; intros b; cbn [app tidy_from].
  - intros H Hx. rewrite Hx in H. destruct H as (_ & _ & H).
    destruct (is_space U y); [|reflexivity]. destruct H as (_ & H & _). discriminate H.
  - destruct (is_space U c); [intros (_ & _ & H)|intros H]; apply (IH _ H).
Qed.

Lemma tidy_spaces (U : UCD) b s c :
  tidy_from U b s -> In c s -> is_space U c = true -> c = 32%N.
Proof.
  revert b; induction s as [|a s IH]; intros b; cbn [tidy_from]; [intros _ []|].
  destruct (is_space U a) eqn:Ea.
  - intros (-> & _ & H) [<-|Hc] Hs; [reflexivity|eapply IH; eassumption].
  - intros H [<-|Hc] Hs; [congruence|eapply IH; eassumption].
Qed.

(** X4. A normalised text has no white space at either end, no two white
    spaces in a row, no white space other than the space character, and
    nothing but word characters and spaces. *)
Theorem norm_shape (U : UCD) s :
  is_space U 32%N = true ->
  let o := _norm U s in
  head_ok U o
  /\ (forall pre c, o = pre ++ [c] -> is_space U c = false)
  /\ (forall pre x y post,
        o = pre ++ x :: y :: post -> is_space U x = true -> is_space U y = false)
  /\ (forall c, In c o -> is_space U c = true -> c = 32%N)
  /\ (forall c, In c o -> class_w U c || class_s U c = true).
Proof.
  intros Hsp o.
  assert (Ht : tidy_from U false o).
  { unfold o, _norm, str_strip, re_sub_runs.
    eapply rstrip_tidy, lstrip_tidy, runs_tidy. exact Hsp. }
  split; [unfold o, _norm, str_strip; apply rstrip_head_ok, lstrip_head_ok|].
  split; [intros pre c E; unfold o, _norm, str_strip in E; eapply rstrip_last; exact E|].
  split; [intros pre x y post E; rewrite E in Ht; eapply tidy_adjacent; exact Ht|].
  split; [intros c Hc; eapply tidy_spaces; [exact Ht|exact Hc]|].
  intros c Hc. unfold o, _norm in Hc. apply strip_In in Hc.
  apply runs_In in Hc. destruct Hc as [->|[Hc _]].
  { unfold class_s. rewrite Hsp. apply orb_true_r. }
  apply sub_each_In in Hc. destruct Hc as [->|[_ Hc]].
  { unfold class_s. rewrite Hsp. apply orb_true_r. }
  apply negb_false_iff in Hc. exact Hc.
Qed.

Lemma norm_shape_witness :
  is_space latin1 32%N = true
  /\ head_ok latin1 (_norm latin1 (Some (py " ¡Ventas   por  mes! "))).
Proof.
  split; [reflexivity|].
  apply (proj1 (@norm_shape latin1 (Some (py " ¡Ventas   por  mes! "))
                  ltac:(reflexivity))).
Defined.

(* ================================================================== *)
(** * The number of a "top N" query *)

Lemma countdown_some (A : Type) k low (try : nat -> option A) r :
  countdown k low try = Some r -> exists j, j <= k /\ try j = Some r.
Proof.
  induction k as [|k IH]; cbn [countdown].
  - destruct (try 0) eqn:E; [|discriminate]. intros [= <-]. exists 0. split; [lia|exact E].
  - destruct (try (S k)) eqn:E.
    + intros [= <-]. exists (S k). split; [lia|exact E].
    + destruct (k <? low); [discriminate|]. intros H.
      destruct (IH H) as (j & Hj & Hr). exists j. split; [lia|exact Hr].
Qed.

Lemma re_here_some_first p ps s gs :
  re_here (p :: ps) s = Some gs ->
  1 <= lo p ->
  exists c s', s = c :: s' /\ cls p c = true.
Proof.
  cbn [re_here]. intros H Hlo.
  destruct s as [|c s'].
  - replace (run_length (cls p) (hi p) []) with 0 in H
      by (destruct (hi p) as [[|h]|]; reflexivity).
    replace (0 <? lo p) with true in H by (symmetry; apply Nat.ltb_lt; lia).
    discriminate.
  - exists c, s'. split; [reflexivity|].
    destruct (cls p c) eqn:E; [reflexivity|].
    replace (run_length (cls p) (hi p) (c :: s')) with 0 in H
      by (destruct (hi p) as [[|h]|]; cbn [run_length]; rewrite ?E; reflexivity).
    replace (0 <? lo p) with true in H by (symmetry; apply Nat.ltb_lt; lia).
    discriminate.
Qed.

Lemma re_here_rest p ps s gs :
  re_here (p :: ps) s = Some gs ->
  exists j gs', re_here ps (skipn j s) = Some gs'.
Proof.
  cbn [re_here]. intros H.
  destruct (run_length (cls p) (hi p) s <? lo p); [discriminate|].
  apply countdown_some in H. destruct H as (j & _ & H).
  destruct (re_here ps (skipn j s)) as [gs'|] eqn:Em; [|discriminate].
  exists j, gs'. exact Em.
Qed.

Lemma In_skipn (A : Type) (x : A) k l : In x (skipn k l) -> In x l.
Proof.
  intros H. rewrite <- (firstn_skipn k l). apply in_or_app. right. exact H.
Qed.

(** A match of the pattern of "top N" starts with [top] and holds a digit. *)
Lemma re_here_top (U : UCD) s gs :
  re_here (RE_TOP U) s = Some gs ->
  startswith (py "top") s = true /\ exists c, In c s /\ class_d U c = true.
Proof.
  unfold RE_TOP.
  change (literal (py "top"))
    with [once (is_char 116%N); once (is_char 111%N); once (is_char 112%N)].
  cbn [app]. intros H.
  rewrite (re_here_once U) in H. destruct s as [|c1 s]; [discriminate|].
  destruct (is_char 116%N c1) eqn:E1; [|discriminate].
  rewrite (re_here_once U) in H. destruct s as [|c2 s]; [discriminate|].
  destruct (is_char 111%N c2) eqn:E2; [|discriminate].
  rewrite (re_here_once U) in H. destruct s as [|c3 s]; [discriminate|].
  destruct (is_char 112%N c3) eqn:E3; [|discriminate].
  split.
  { unfold is_char in E1, E2, E3. change (py "top") with [116%N; 111%N; 112%N].
    cbn [startswith]. unfold cp_eqb in *.
    apply N.eqb_eq in E1, E2, E3. subst. reflexivity. }
  apply re_here_rest in H. destruct H as (j & gs' & Em).
  apply re_here_some_first in Em; [|cbn; lia].
  destruct Em as (c & s' & Es & Hc).
  exists c. split; [|exact Hc].
  right. right. right. apply (In_skipn c j). rewrite Es. left. reflexivity.
Qed.

Lemma re_search_in ps s gs :
  re_search ps s = Some gs ->
  exists pre suf, s = pre ++ suf /\ re_here ps suf = Some gs.
Proof.
  induction s as [|c s IH]; cbn [re_search].
  - destruct (re_here ps []) eqn:E; [|discriminate].
    intros [= <-]. exists [], []. split; [reflexivity|exact E].
  - destruct (re_here ps (c :: s)) eqn:E.
    + intros [= <-]. exists [], (c :: s). split; [reflexivity|exact E].
    + intros H. destruct (IH H) as (pre & suf & -> & Hs).
      exists (c :: pre), suf. split; [reflexivity|exact Hs].
Qed.

Lemma re_search_here ps s gs :
  re_here ps s = Some gs -> re_search ps s = Some gs.
Proof. intros H. destruct s; cbn [re_search]; rewrite H; reflexivity. Qed.

Lemma top_n_five (U : UCD) t :
  (forall c, In c t -> class_d U c = false) ->
  top_n U t = 5.
Proof.
  intros H. unfold top_n.
  destruct (re_search (RE_TOP U) t) as [gs|] eqn:E; [|reflexivity].
  exfalso. apply re_search_in in E. destruct E as (pre & suf & -> & E).
  apply re_here_top in E. destruct E as (_ & c & Hc & Hd).
  rewrite (H c) in Hd; [discriminate|]. apply in_or_app. right. exact Hc.
Qed.

(** X5. Without a digit in the query the number N is the default 5; the
    head of a ranking that is then shown has five rows when the ranking
    has five or more, and all its rows otherwise. *)
Theorem top_n_default (U : UCD) t :
  (forall c, In c t -> class_d U c = false) ->
  top_n U t = 5
  /\ forall table : list (pystr * float),
       length (firstn (top_n U t) table) = Nat.min 5 (length table).
Proof.
  intros H. rewrite (top_n_five U t H). split; [reflexivity|].
  intros table. apply length_firstn.
Qed.

Lemma top_n_default_witness :
  top_n latin1 (py "top clientes") = 5
  /\ length (firstn (top_n latin1 (py "top clientes")) (TOP_CLIENTS demo)) = 3.
Proof.
  assert (H : forall c, In c (py "top clientes") -> class_d latin1 c = false).
  { intros c Hc. vm_compute in Hc.
    repeat (destruct Hc as [<-|Hc]; [reflexivity|]). destruct Hc. }
  split; [apply (proj1 (top_n_default latin1 (py "top clientes") H))|].
  rewrite (proj2 (top_n_default latin1 (py "top clientes") H) (TOP_CLIENTS demo)).
  vm_compute. reflexivity.
Defined.

Lemma startswith_top_pre c pre rest :
  startswith (py "top") (c :: pre ++ py "top" ++ rest)
  = startswith (py "top") (c :: pre ++ py "to").
Proof.
  change (py "top") with [116%N; 111%N; 112%N].
  change (py "to") with [116%N; 111%N].
  destruct pre as [|d [|e pre]]; cbn [app startswith].
  - unfold cp_eqb. cbn. rewrite !andb_false_r. reflexivity.
  - unfold cp_eqb. cbn. rewrite !andb_false_r. reflexivity.
  - reflexivity.
Qed.

Lemma re_search_skip (U : UCD) pre rest :
  str_in (py "top") (pre ++ py "to") = false ->
  re_search (RE_TOP U) (pre ++ py "top" ++ rest)
  = re_search (RE_TOP U) (py "top" ++ rest).
Proof.
  induction pre as [|c pre IH]; [reflexivity|].
  intros H. change ((c :: pre) ++ py "to") with (c :: (pre ++ py "to")) in H.
  cbn [str_in] in H. apply orb_false_elim in H. destruct H as [H1 H2].
  change ((c :: pre) ++ py "top" ++ rest) with (c :: (pre ++ py "top" ++ rest)).
  cbn [re_search].
  destruct (re_here (RE_TOP U) (c :: pre ++ py "top" ++ rest)) as [gs|] eqn:E.
  - apply re_here_top in E. destruct E as [E _].
    rewrite startswith_top_pre in E. congruence.
  - apply IH, H2.
Qed.

(** X6. The number is read from the digits that follow the first [top] of the
    query, with or without white space in between. *)
Theorem top_n_reads_digits (U : UCD) pre ws ds rest :
  re_laws U ->
  str_in (py "top") (pre ++ py "to") = false ->
  forallb (is_space U) ws = true ->
  ds <> [] ->
  forallb (class_d U) ds = true ->
  starts_outside (class_d U) rest ->
  top_n U (pre ++ py "top" ++ ws ++ ds ++ rest) = N.to_nat (py_int U ds).
Proof.
  intros laws Hpre Hws Hne Hds Hrest. unfold top_n.
  rewrite (re_search_skip U _ _ Hpre).
  assert (Hm : re_here (RE_TOP U) (py "top" ++ ws ++ ds ++ rest) = Some [ds]).
  { unfold RE_TOP.
    change (literal (py "top"))
      with [once (is_char 116%N); once (is_char 111%N); once (is_char 112%N)].
    change (py "top") with [116%N; 111%N; 112%N]. cbn [app].
    rewrite (re_here_once U). change (is_char 116%N 116%N) with true. cbv iota.
    rewrite (re_here_once U). change (is_char 111%N 111%N) with true. cbv iota.
    rewrite (re_here_once U). change (is_char 112%N 112%N) with true. cbv iota.
    apply (@re_here_greedy (star (class_s U)) [group (plus (class_d U))] ws
             (ds ++ rest) [ds]).
    - exact Hws.
    - exact I.
    - cbn. lia.
    - right. destruct ds as [|d ds]; [congruence|]. cbn [app starts_outside forallb] in *.
      apply andb_prop in Hds. destruct Hds as [Hd _].
      unfold class_s. apply (digit_not_space laws), Hd.
    - apply (@re_here_greedy (group (plus (class_d U))) [] ds rest []).
      + exact Hds.
      + exact I.
      + cbn. destruct ds; [congruence|cbn; lia].
      + right. exact Hrest.
      + reflexivity. }
  rewrite (re_search_here _ _ Hm). reflexivity.
Qed.

Lemma top_n_reads_digits_witness :
  top_n latin1 (py "dame el " ++ py "top" ++ py " " ++ py "12" ++ py " clientes") = 12.
Proof.
  rewrite (@top_n_reads_digits latin1 (py "dame el ") (py " ") (py "12") (py " clientes")).
  - reflexivity.
  - exact latin1_re_laws.
  - reflexivity.
  - reflexivity.
  - discriminate.
  - reflexivity.
  - reflexivity.
Defined.

(* ================================================================== *)
(** * Numerals *)

Lemma log2_div10 n : (10 <= n)%N -> (N.log2 (n / 10) < N.log2 n)%N.
Proof.
  intros H.
  assert (Hle : (n / 10 <= N.div2 n)%N).
  { rewrite N.div2_div. apply N.div_le_compat_l. lia. }
  apply N.le_lt_trans with (N.log2 (N.div2 n)); [apply N.log2_le_mono, Hle|].
  rewrite N.div2_spec, N.log2_shiftr. cbn [N.pred].
  assert (0 < N.log2 n)%N by (apply N.log2_pos; lia). lia.
Qed.

Lemma digits_rev_value (U : UCD) (Hd : ascii_digits U) fuel n :
  (N.to_nat (N.log2 n) < fuel)%nat ->
  fold_right (fun c acc => (acc * 10 + digit_value U c)%N) 0%N (digits_rev fuel n) = n.
Proof.
  revert n; induction fuel as [|fuel IH]; intros n Hf; [lia|].
  cbn [digits_rev]. destruct (N.ltb_spec n 10) as [Hn|Hn]; cbn [fold_right].
  - unfold digit_value. rewrite Hd by (unfold is_digit; lia). lia.
  - rewrite IH.
    + assert (Hm : (n mod 10 < 10)%N) by (apply N.mod_upper_bound; discriminate).
      pose proof (N.div_mod n 10 ltac:(discriminate)) as E.
      unfold digit_value.
      revert Hm E. generalize (n mod 10)%N (n / 10)%N. intros r q Hm E.
      rewrite Hd by (unfold is_digit; lia). lia.
    + pose proof (log2_div10 Hn). lia.
Qed.

(** X7. Reading the numeral of a number gives the number back. *)
Theorem int_of_str_of_N (U : UCD) n :
  ascii_digits U -> py_int U (str_of_N n) = n.
Proof.
  intros Hd. unfold py_int, str_of_N.
  rewrite <- (fold_left_rev_right (fun c acc => (acc * 10 + digit_value U c)%N)).
  rewrite rev_involutive. apply (digits_rev_value Hd). lia.
Qed.

Lemma latin1_ascii_digits : ascii_digits latin1.
Proof.
  intros c [H1 H2]. cbn [decimal latin1].
  replace ((48 <=? c)%N && (c <=? 57)%N) with true; [reflexivity|].
  symmetry. apply andb_true_intro. split; apply N.leb_le; assumption.
Qed.

Lemma int_of_str_of_N_witness : py_int latin1 (str_of_N 2025) = 2025%N.
Proof. apply int_of_str_of_N, latin1_ascii_digits. Defined.

(* ================================================================== *)
(** * The layout of a table *)

Lemma str_join_length sep (p1 p2 : list pystr) :
  map (@length cp) p1 = map (@length cp) p2 ->
  length (str_join sep p1) = length (str_join sep p2).
Proof.
  revert p2; induction p1 as [|a p1 IH]; intros [|b p2]; cbn [map];
    try discriminate; [reflexivity|].
  intros H. injection H as Hab Hrest. specialize (IH p2 Hrest).
  destruct p1 as [|a' p1]; destruct p2 as [|b' p2]; try discriminate Hrest.
  - exact Hab.
  - change (str_join sep (a :: a' :: p1)) with (a ++ sep ++ str_join sep (a' :: p1)).
    change (str_join sep (b :: b' :: p2)) with (b ++ sep ++ str_join sep (b' :: p2)).
    rewrite !length_app, Hab, IH. reflexivity.
Qed.

Lemma ljust_length w s : length s <= w -> length (ljust w s) = w.
Proof. intros H. unfold ljust. rewrite length_app, repeat_length. lia. Qed.

Lemma padded_lengths widths (cells : list pystr) :
  length cells = length widths ->
  (forall j, j < length widths -> length (nth j cells []) <= nth j widths 0) ->
  map (@length cp) (map (fun wc => ljust (fst wc) (snd wc)) (combine widths cells))
  = map (@length cp) (map (fun w => repeat 45%N w) widths).
Proof.
  revert cells; induction widths as [|w widths IH]; intros [|c cells] Hl Hj;
    try discriminate Hl; [reflexivity|].
  cbn [combine map fst snd]. f_equal.
  - rewrite repeat_length. apply ljust_length. apply (Hj 0). cbn. lia.
  - apply IH; [cbn in Hl; lia|]. intros j Hlt. apply (Hj (S j)). cbn. lia.
Qed.

Lemma fold_max_init l a : a <= fold_left Nat.max l a.
Proof.
  revert a; induction l as [|x l IH]; intros a; cbn [fold_left]; [lia|].
  specialize (IH (Nat.max a x)). lia.
Qed.

Lemma fold_max_In l a x : In x l -> x <= fold_left Nat.max l a.
Proof.
  revert a; induction l as [|y l IH]; intros a; cbn [fold_left]; [intros []|].
  intros [->|H]; [|apply IH, H].
  pose proof (fold_max_init l (Nat.max a x)). lia.
Qed.

Lemma nth_map_seq (f : nat -> nat) n j :
  j < n -> nth j (map f (seq 0 n)) 0 = f j.
Proof.
  intros H. rewrite (nth_indep _ 0 (f 0)) by (rewrite length_map, length_seq; exact H).
  rewrite map_nth, seq_nth by exact H. reflexivity.
Qed.

Lemma md_line_length widths (cells : list pystr) :
  length cells = length widths ->
  (forall j, j < length widths -> length (nth j cells []) <= nth j widths 0) ->
  length (md_line widths cells)
  = length (py "| " ++ str_join (py " | ") (map (fun w => repeat 45%N w) widths)
            ++ py " |").
Proof.
  intros Hl Hj. unfold md_line. rewrite !length_app.
  rewrite (str_join_length _ _ _ (padded_lengths _ _ Hl Hj)). reflexivity.
Qed.

(** X8. When every row has one cell per column, the table is a header, a rule
    and one line per row, joined by line feeds, and all these lines have
    the same length: the columns are aligned. *)
Theorem md_table_aligned cols rows :
  (forall r, In r rows -> length r = length cols) ->
  exists header rule body,
    _df_to_md_table cols rows = str_join [10%N] (header :: rule :: body)
    /\ length body = length rows
    /\ (forall l, In l (header :: rule :: body) -> length l = length rule).
Proof.
  intros Hrows. unfold _df_to_md_table.
  set (widths :=
         map (fun j =>
                fold_left Nat.max
                  (map (fun r : list pystr => length (nth j r [])) rows)
                  (length (nth j cols [])))
             (seq 0 (length cols))).
  assert (Hw : length widths = length cols)
    by (unfold widths; rewrite length_map, length_seq; reflexivity).
  eexists. eexists. eexists. split; [reflexivity|].
  split; [apply length_map|].
  intros l [<-|[<-|Hl]].
  - apply md_line_length; [symmetry; exact Hw|].
    intros j Hj. rewrite Hw in Hj. unfold widths. rewrite nth_map_seq by exact Hj.
    apply fold_max_init.
  - reflexivity.
  - apply in_map_iff in Hl. destruct Hl as (r & <- & Hr).
    apply md_line_length; [rewrite Hw; apply Hrows, Hr|].
    intros j Hj. rewrite Hw in Hj. unfold widths. rewrite nth_map_seq by exact Hj.
    apply fold_max_In. apply in_map_iff. exists r. split; [reflexivity|exact Hr].
Qed.

Lemma md_table_aligned_witness :
  exists header rule body,
    _df_to_md_table [py "Cliente"; py "Facturado"]
      [[py "ACME Corp"; py "$ 2.500,00"]; [py "Beta SA"; py "$ 800,00"]]
    = str_join [10%N] (header :: rule :: body)
    /\ length body = 2
    /\ (forall l, In l (header :: rule :: body) -> length l = length rule).
Proof.
  apply (@md_table_aligned [py "Cliente"; py "Facturado"]
           [[py "ACME Corp"; py "$ 2.500,00"]; [py "Beta SA"; py "$ 800,00"]]).
  intros r [<-|[<-|[]]]; reflexivity.
Defined.

(* ================================================================== *)
(** * One row per key *)

Lemma str_eqb_eq a b : str_eqb a b = true <-> a = b.
Proof.
  revert b; induction a as [|x a IH]; intros [|y b]; cbn [str_eqb];
    try (split; [discriminate|discriminate]); [tauto|].
  rewrite andb_true_iff, IH. unfold cp_eqb. rewrite N.eqb_eq.
  split; [intros [-> ->]; reflexivity | intros [= -> ->]; tauto].
Qed.

Section UniqueFacts.

Variable A : Type.
Variable eqb : A -> A -> bool.
Hypothesis eqb_eq : forall a b, eqb a b = true <-> a = b.

Lemma existsb_eqb x seen : existsb (eqb x) seen = true <-> In x seen.
Proof.
  rewrite existsb_exists. split.
  - intros (y & Hy & E). apply eqb_eq in E. subst. exact Hy.
  - intros H. exists x. split; [exact H | apply eqb_eq; reflexivity].
Qed.

Lemma unique_by_In seen l x :
  In x (unique_by eqb seen l) <-> In x l /\ ~ In x seen.
Proof.
  revert seen; induction l as [|y l IH]; intros seen; cbn [unique_by In]; [tauto|].
  destruct (existsb (eqb y) seen) eqn:E.
  - apply existsb_eqb in E. rewrite IH. split; [tauto|].
    intros [[->|H] Hn]; tauto.
  - assert (Hy : ~ In y seen).
    { intros H. apply existsb_eqb in H. congruence. }
    cbn [In]. rewrite IH. cbn [In]. split.
    + intros [->|[H Hn]]; tauto.
    + intros [[->|H] Hn]; [tauto|].
      destruct (eqb y x) eqn:Eyx; [apply eqb_eq in Eyx; tauto|].
      right. split; [exact H|]. intros [->|Hs]; [|tauto].
      assert (eqb x x = true) by (apply eqb_eq; reflexivity). congruence.
Qed.

Lemma unique_by_NoDup seen l : NoDup (unique_by eqb seen l).
Proof.
  revert seen; induction l as [|y l IH]; intros seen; cbn [unique_by]; [constructor|].
  destruct (existsb (eqb y) seen); [apply IH|].
  constructor; [|apply IH].
  rewrite unique_by_In. cbn [In]. tauto.
Qed.

End UniqueFacts.

Section GroupKeys.

Variables (K V R : Type).
Variable cmp : K -> K -> comparison.
Variable add : V -> V -> V.
Variable zero : V.
Variable keyf : R -> option K.
Variable valf : R -> V.

Hypothesis laws : order_laws cmp.

Lemma sorted_keys_NoDup (l : list (K * V)) :
  StronglySorted (@slot_lt K V cmp) l -> NoDup (map fst l).
Proof.
  induction 1 as [|x l Hs IH Hx]; cbn [map]; constructor; [|exact IH].
  intros Hin. apply in_map_iff in Hin. destruct Hin as (y & Ey & Hy).
  rewrite Forall_forall in Hx. specialize (Hx y Hy). unfold slot_lt in Hx.
  rewrite Ey, (cmp_refl laws) in Hx. discriminate.
Qed.

Lemma group_vals_nonempty k rows :
  group_vals cmp keyf valf k rows <> [] <-> exists r, In r rows /\ keyf r = Some k.
Proof.
  unfold group_vals. split.
  - intros H.
    destruct (filter _ rows) as [|r rs] eqn:E; [contradiction H; reflexivity|].
    assert (Hr : In r (r :: rs)) by (left; reflexivity).
    rewrite <- E in Hr. apply filter_In in Hr. destruct Hr as [Hr Hk].
    exists r. split; [exact Hr|].
    destruct (keyf r) as [k'|]; [|discriminate].
    destruct (cmp k k') eqn:Ec; try discriminate.
    apply (cmp_eq laws) in Ec. subst. reflexivity.
  - intros (r & Hr & Hk) E.
    apply map_eq_nil in E.
    assert (Hin : In r (filter
                          (fun r => match keyf r with
                                    | Some k' => match cmp k k' with Eq => true | _ => false end
                                    | None => false
                                    end) rows)).
    { apply filter_In. split; [exact Hr|]. rewrite Hk, (cmp_refl laws). reflexivity. }
    rewrite E in Hin. exact Hin.
Qed.

Lemma groupby_sum_keys k rows :
  In k (map fst (groupby_sum cmp add zero keyf valf rows))
  <-> exists r, In r rows /\ keyf r = Some k.
Proof.
  rewrite <- group_vals_nonempty. rewrite in_map_iff. split.
  - intros ([k' t] & E & H). cbn [fst] in E. subst k'.
    apply (groupby_sum_In add zero keyf valf laws) in H. tauto.
  - intros H. eexists (k, _). split; [reflexivity|].
    apply (groupby_sum_In add zero keyf valf laws). split; [exact H|reflexivity].
Qed.

Lemma groupby_sum_NoDup rows :
  NoDup (map fst (groupby_sum cmp add zero keyf valf rows)).
Proof. apply sorted_keys_NoDup, (groupby_sum_sorted add zero keyf valf laws). Qed.

End GroupKeys.

Lemma groupby_agg_fst (K V R A : Type) (cmp : K -> K -> comparison)
    (agg : list V -> A) (keyf : R -> option K) (valf : R -> V) rows :
  map fst (groupby_agg cmp agg keyf valf rows)
  = map fst (groupby_sum cmp (@app V) [] keyf (fun r => [valf r]) rows).
Proof. unfold groupby_agg. rewrite map_map. reflexivity. Qed.

Lemma groupby_agg_NoDup (K V R A : Type) (cmp : K -> K -> comparison)
    (agg : list V -> A) (keyf : R -> option K) (valf : R -> V)
    (laws : order_laws cmp) rows :
  NoDup (map fst (groupby_agg cmp agg keyf valf rows)).
Proof. rewrite groupby_agg_fst. apply groupby_sum_NoDup, laws. Qed.

Lemma groupby_agg_keys (K V R A : Type) (cmp : K -> K -> comparison)
    (agg : list V -> A) (keyf : R -> option K) (valf : R -> V)
    (laws : order_laws cmp) k rows :
  In k (map fst (groupby_agg cmp agg keyf valf rows))
  <-> exists r, In r rows /\ keyf r = Some k.
Proof.
  rewrite groupby_agg_fst.
  apply (groupby_sum_keys (@app V) [] keyf (fun r => [valf r]) laws).
Qed.

Lemma by_total_desc_perm (V : Type) (T : dtype V) l :
  Permutation (by_total_desc T l) l.
Proof. apply sort_values_perm. Qed.

Lemma sort_desc_perm (A : Type) (val : A -> float) l : Permutation (sort_desc val l) l.
Proof. apply sort_values_perm. Qed.

Lemma present_In (A : Type) (f : A -> option pystr) l c :
  In c (flat_map (fun r => match f r with Some c => [c] | None => [] end) l)
  <-> exists r, In r l /\ f r = Some c.
Proof.
  rewrite in_flat_map. split.
  - intros (r & Hr & Hc). exists r. split; [exact Hr|].
    destruct (f r); [destruct Hc as [->|[]]; reflexivity | destruct Hc].
  - intros (r & Hr & E). exists r. split; [exact Hr|]. rewrite E. left. reflexivity.
Qed.

(** X9. After a load each standing table has one row per key: no period, no
    emitter and no client is listed twice, and a key is listed exactly when
    a row of the sheet carries it. *)
Theorem caches_one_row_per_key (U : UCD) (L : PyLib) sheet now :
  let st := load_data U L sheet now in
  (NoDup (map fst (G_BY_PERIOD st))
   /\ forall k, In k (map fst (G_BY_PERIOD st))
                <-> exists r, In r sheet /\ rPeriodo r = Some k)
  /\ (NoDup (map fst (G_BY_EMISORA st))
      /\ forall k, In k (map fst (G_BY_EMISORA st))
                   <-> exists r, In r sheet /\ rEmisora r = Some k)
  /\ (NoDup (map fst (TOP_CLIENTS st))
      /\ forall k, In k (map fst (TOP_CLIENTS st))
                   <-> exists r, In r sheet /\ rCliente r = Some k).
Proof.
  intros st.
  assert (Hsheet : forall (f : record -> option pystr) (g : raw_record -> option pystr),
             (forall r, f (coerce_row L r) = g r) ->
             forall k, (exists r, In r (map (coerce_row L) sheet) /\ f r = Some k)
                       <-> exists r, In r sheet /\ g r = Some k).
  { intros f g Hfg k. split.
    - intros (r & Hr & E). apply in_map_iff in Hr. destruct Hr as (r0 & <- & Hr0).
      exists r0. split; [exact Hr0|]. rewrite <- Hfg. exact E.
    - intros (r & Hr & E). exists (coerce_row L r). split; [apply in_map, Hr|].
      rewrite Hfg. exact E. }
  unfold st, load_data, _build_caches.
  cbn [G_BY_PERIOD G_BY_EMISORA TOP_CLIENTS].
  unfold sort_by_period, by_total_desc.
  repeat split.
  - eapply Permutation_NoDup;
      [apply Permutation_map; symmetry; apply sort_values_perm|].
    apply groupby_agg_NoDup, str_order.
  - intros H. apply (Permutation_in _ (Permutation_map fst (sort_values_perm _ _ _))) in H.
    apply (groupby_agg_keys _ _ _ str_order) in H.
    apply (Hsheet Periodo rPeriodo) in H; [exact H|reflexivity].
  - intros H.
    apply (Permutation_in _ (Permutation_sym
                               (Permutation_map fst (sort_values_perm _ _ _)))).
    apply (groupby_agg_keys _ _ _ str_order).
    apply (Hsheet Periodo rPeriodo); [reflexivity|exact H].
  - eapply Permutation_NoDup;
      [apply Permutation_map; symmetry; apply by_total_desc_perm|].
    apply groupby_agg_NoDup, str_order.
  - intros H. apply (Permutation_in _ (Permutation_map fst (by_total_desc_perm _ _))) in H.
    apply (groupby_agg_keys _ _ _ str_order) in H.
    apply (Hsheet Emisora rEmisora) in H; [exact H|reflexivity].
  - intros H.
    apply (Permutation_in _ (Permutation_sym
                               (Permutation_map fst (by_total_desc_perm _ _)))).
    apply (groupby_agg_keys _ _ _ str_order).
    apply (Hsheet Emisora rEmisora); [reflexivity|exact H].
  - eapply Permutation_NoDup;
      [apply Permutation_map; symmetry; apply by_total_desc_perm|].
    apply groupby_agg_NoDup, str_order.
  - intros H. apply (Permutation_in _ (Permutation_map fst (by_total_desc_perm _ _))) in H.
    apply (groupby_agg_keys _ _ _ str_order) in H.
    apply (Hsheet Cliente rCliente) in H; [exact H|reflexivity].
  - intros H.
    apply (Permutation_in _ (Permutation_sym
                               (Permutation_map fst (by_total_desc_perm _ _)))).
    apply (groupby_agg_keys _ _ _ str_order).
    apply (Hsheet Cliente rCliente); [reflexivity|exact H].
Qed.

(** X10. The summary counts the rows of the sheet, and its number of distinct
    clients is the number of rows of the ranking of clients. *)
Theorem resumen_counts (U : UCD) (L : PyLib) sheet now :
  let st := load_data U L sheet now in
  exists total,
    resumen L st = Answer (length sheet) total (length (TOP_CLIENTS st)) now.
Proof.
  intros st. unfold resumen. eexists.
  replace (length (DF st)) with (length sheet)
    by (unfold st, load_data, _build_caches; cbn [DF]; rewrite length_map; reflexivity).
  replace (LAST_LOAD_TS st) with now by reflexivity.
  f_equal.
  rewrite <- (length_map fst (TOP_CLIENTS st)).
  apply Permutation_length, NoDup_Permutation.
  - apply unique_by_NoDup, str_eqb_eq.
  - unfold st, load_data, _build_caches. cbn [TOP_CLIENTS]. unfold by_total_desc.
    eapply Permutation_NoDup;
      [apply Permutation_map; symmetry; apply by_total_desc_perm|].
    apply groupby_agg_NoDup, str_order.
  - intros c. unfold unique. rewrite (@unique_by_In _ _ str_eqb_eq).
    rewrite present_In.
    unfold st, load_data, _build_caches. cbn [TOP_CLIENTS DF]. unfold by_total_desc.
    split.
    + intros [H _].
      apply (Permutation_in _ (Permutation_sym
                                 (Permutation_map fst (by_total_desc_perm _ _)))).
      apply (groupby_agg_keys _ _ _ str_order). exact H.
    + intros H. split; [|intros []].
      apply (Permutation_in _ (Permutation_map fst (by_total_desc_perm _ _))) in H.
      apply (groupby_agg_keys _ _ _ str_order) in H. exact H.
Qed.

(* ================================================================== *)
(** * The order of the rankings *)

(** [<=] on floats is transitive, and total on the floats that are not
    NaN. *)
Lemma fleb_trans a b c : fleb a b = true -> fleb b c = true -> fleb a c = true.
Proof.
  unfold fleb, SFleb.
  destruct a as [sa|sa| |sa ma ea]; destruct b as [sb|sb| |sb mb eb];
    destruct c as [sc|sc| |sc mc ec];
    try destruct sa; try destruct sb; try destruct sc;
    cbn [SFcompare]; try discriminate; try reflexivity;
    change (Pos.compare_cont Eq) with Pos.compare;
    destruct (Z.compare_spec ea eb); destruct (Z.compare_spec eb ec);
    destruct (Z.compare_spec ea ec); try discriminate; try reflexivity; try lia;
    destruct (Pos.compare_spec ma mb); destruct (Pos.compare_spec mb mc);
    destruct (Pos.compare_spec ma mc); cbn [CompOpp];
    try discriminate; try reflexivity; try lia.
Qed.

Lemma fleb_total a b :
  is_nan a = false -> is_nan b = false -> fleb a b = false -> fleb b a = true.
Proof.
  unfold fleb, SFleb.
  destruct a as [sa|sa| |sa ma ea]; destruct b as [sb|sb| |sb mb eb];
    try destruct sa; try destruct sb;
    cbn [SFcompare is_nan]; try discriminate; try reflexivity; intros _ _;
    change (Pos.compare_cont Eq) with Pos.compare;
    destruct (Z.compare_spec ea eb); destruct (Z.compare_spec eb ea);
    try discriminate; try reflexivity; try lia;
    destruct (Pos.compare_spec ma mb); destruct (Pos.compare_spec mb ma);
    cbn [CompOpp]; try discriminate; try reflexivity; try lia.
Qed.

Section DescendingOrder.

Variable A : Type.
Variable val : A -> float.

Local Abbreviation geb := (fun a b : float => fleb b a).
Local Abbreviation fkey := (fun r : A => float_key (val r)).

Lemma float_key_some r k : float_key (val r) = Some k -> k = val r /\ is_nan k = false.
Proof.
  unfold float_key. destruct (is_nan (val r)) eqn:E; [discriminate|].
  intros [= <-]. split; [reflexivity|exact E].
Qed.

Lemma insert_desc_sorted x l :
  is_nan (val x) = false ->
  (forall y, In y l -> is_nan (val y) = false) ->
  StronglySorted (fun a b => fleb (val b) (val a) = true) l ->
  StronglySorted (fun a b => fleb (val b) (val a) = true)
    (insert_sorted geb fkey x (val x) l).
Proof.
  intros Hx Hk Hs. induction Hs as [|y l Hs IH Hy]; cbn [insert_sorted].
  - repeat constructor.
  - assert (Hny : is_nan (val y) = false) by (apply Hk; left; reflexivity).
    unfold float_key at 1. rewrite Hny.
    destruct (fleb (val y) (val x)) eqn:Hle.
    + constructor; [constructor; assumption|].
      constructor; [exact Hle|].
      rewrite Forall_forall in *. intros z Hz.
      apply (fleb_trans _ (val y)); [apply Hy, Hz | exact Hle].
    + constructor.
      * apply IH. intros z Hz. apply Hk. right. exact Hz.
      * rewrite Forall_forall in *. intros z Hz.
        apply (Permutation_in _ (insert_sorted_perm geb fkey x (val x) l)) in Hz.
        destruct Hz as [<-|Hz]; [|apply Hy, Hz].
        apply fleb_total; assumption.
Qed.

Lemma sort_keyed_desc l :
  StronglySorted (fun a b => fleb (val b) (val a) = true) (sort_keyed geb fkey l)
  /\ forall r, In r (sort_keyed geb fkey l) -> is_nan (val r) = false.
Proof.
  assert (Hn : forall l r, In r (sort_keyed geb fkey l) -> is_nan (val r) = false).
  { intros l0 r Hr. apply sort_keyed_has_key in Hr. unfold has_key, float_key in Hr.
    destruct (is_nan (val r)); [discriminate|reflexivity]. }
  split; [|apply Hn].
  induction l as [|x l IH]; cbn [sort_keyed]; [constructor|].
  destruct (float_key (val x)) as [kx|] eqn:Ex; [|exact IH].
  apply float_key_some in Ex. destruct Ex as [-> Ex].
  apply insert_desc_sorted; [exact Ex | apply Hn | exact IH].
Qed.

Lemma sort_desc_ranked l : ranked_desc val (sort_desc val l).
Proof.
  unfold sort_desc, sort_values.
  exists (sort_keyed geb fkey l), (filter (fun x => negb (has_key fkey x)) l).
  split; [reflexivity|].
  split; [apply sort_keyed_desc|].
  split; [apply sort_keyed_desc|].
  intros r Hr. apply filter_In in Hr. destruct Hr as [_ Hr].
  unfold has_key, float_key in Hr. destruct (is_nan (val r)); [reflexivity|discriminate].
Qed.

Lemma sorted_firstn (R : A -> A -> Prop) n l :
  StronglySorted R l -> StronglySorted R (firstn n l).
Proof.
  intros Hs. revert n; induction Hs as [|x l Hs IH Hx]; intros [|n]; cbn [firstn];
    try constructor; [apply IH|].
  rewrite Forall_forall in *. intros y Hy. apply Hx.
  rewrite <- (firstn_skipn n l). apply in_or_app. left. exact Hy.
Qed.

Lemma ranked_firstn n l : ranked_desc val l -> ranked_desc val (firstn n l).
Proof.
  intros (ranked & rest & -> & Hs & Hr & Hn).
  exists (firstn n ranked), (firstn (n - length ranked) rest).
  split; [apply firstn_app|].
  split; [apply sorted_firstn, Hs|].
  split; intros r H; [apply Hr | apply Hn];
    match goal with
    | H : In r (firstn ?k ?l) |- In r ?l =>
        rewrite <- (firstn_skipn k l); apply in_or_app; left; exact H
    end.
Qed.

End DescendingOrder.

(** X11. The ranking of clients, any number of its first rows, and the table of
    emitters are in the order of their totals, largest first; a total that
    is NaN comes after all the others. *)
Theorem rankings_descending (U : UCD) (L : PyLib) sheet now n :
  let st := load_data U L sheet now in
  ranked_desc (@snd pystr float) (TOP_CLIENTS st)
  /\ ranked_desc (@snd pystr float) (firstn n (TOP_CLIENTS st))
  /\ ranked_desc (@snd pystr float) (G_BY_EMISORA st).
Proof.
  intros st. unfold st, load_data, _build_caches.
  cbn [TOP_CLIENTS G_BY_EMISORA]. unfold by_total_desc.
  split; [apply sort_desc_ranked|].
  split; [apply ranked_firstn, sort_desc_ranked | apply sort_desc_ranked].
Qed.

(* ================================================================== *)
(** * The periods of the ranking of the last month *)

Section KeyLists.

Local Abbreviation key_eqb :=
  (fun a b : option N =>
     match a, b with
     | None, None => true
     | _, _ => opt_eqb a b
     end).

Local Abbreviation max_step :=
  (fun (acc k : option N) =>
     match acc, k with
     | Some a, Some b => Some (N.max a b)
     | None, _ => k
     | _, None => acc
     end).

Local Abbreviation opt_ge :=
  (fun a b : option N =>
     match a, b with
     | Some x, Some y => (y <= x)%N
     | _, _ => False
     end).

Local Abbreviation present := (fun k : option N => k <> None).

Lemma key_eqb_eq (a b : option N) : key_eqb a b = true <-> a = b.
Proof.
  destruct a as [x|], b as [y|]; cbn [opt_eqb].
  - rewrite N.eqb_eq. split; [intros ->; reflexivity | intros [= ->]; reflexivity].
  - split; discriminate.
  - split; discriminate.
  - tauto.
Qed.

(** [Series.max()] *)
Lemma max_fold_ge keys acc k :
  In (Some k) keys \/ acc = Some k ->
  exists M, fold_left max_step keys acc = Some M /\ (k <= M)%N.
Proof.
  revert acc k; induction keys as [|x keys IH]; intros acc k; cbn [fold_left In].
  - intros [[] | ->]. exists k. split; [reflexivity|lia].
  - intros [[-> | H] | ->].
    + destruct acc as [a|].
      * destruct (IH (Some (N.max a k)) (N.max a k) (or_intror eq_refl)) as (M & E & HM).
        exists M. split; [exact E|lia].
      * apply IH. right. reflexivity.
    + apply IH. left. exact H.
    + destruct x as [b|].
      * destruct (IH (Some (N.max k b)) (N.max k b) (or_intror eq_refl)) as (M & E & HM).
        exists M. split; [exact E|lia].
      * apply IH. right. reflexivity.
Qed.

Lemma max_fold_in keys acc M :
  fold_left max_step keys acc = Some M -> In (Some M) keys \/ acc = Some M.
Proof.
  revert acc; induction keys as [|x keys IH]; intros acc; cbn [fold_left In];
    [tauto|].
  intros H. apply IH in H. destruct H as [H|H]; [tauto|].
  destruct acc as [a|], x as [b|]; try tauto.
  injection H as H. destruct (N.max_spec a b) as [[_ E]|[_ E]]; rewrite E in H; subst; tauto.
Qed.

Lemma max_key_spec keys M :
  max_key keys = Some M <->
  In (Some M) keys /\ forall k, In (Some k) keys -> (k <= M)%N.
Proof.
  unfold max_key. split.
  - intros H. split.
    + apply max_fold_in in H. destruct H as [H|H]; [exact H|discriminate].
    + intros k Hk.
      destruct (@max_fold_ge keys None k (or_introl Hk)) as (M' & E & Hle).
      rewrite H in E. injection E as <-. exact Hle.
  - intros [Hin Hmax].
    destruct (@max_fold_ge keys None M (or_introl Hin)) as (M' & E & Hle).
    rewrite E. f_equal.
    apply max_fold_in in E. destruct E as [E|E]; [|discriminate].
    specialize (Hmax M' E). lia.
Qed.

Lemma max_key_none keys : max_key keys = None <-> forall k, ~ In (Some k) keys.
Proof.
  split.
  - intros H k Hk. unfold max_key in H.
    destruct (@max_fold_ge keys None k (or_introl Hk)) as (M & E & _). congruence.
  - intros H. destruct (max_key keys) as [M|] eqn:E; [|reflexivity].
    apply max_key_spec in E. destruct E as [E _]. destruct (H M E).
Qed.

(** [Series.unique()] *)
Lemma unique_by_ext (A : Type) (eqb : A -> A -> bool) seen seen' l :
  (forall x, existsb (eqb x) seen = existsb (eqb x) seen') ->
  unique_by eqb seen l = unique_by eqb seen' l.
Proof.
  revert seen seen'; induction l as [|x l IH]; intros seen seen' H;
    cbn [unique_by]; [reflexivity|].
  rewrite <- H. destruct (existsb (eqb x) seen) eqn:E; [apply IH, H|].
  f_equal. apply IH. intros y. cbn [existsb]. rewrite H. reflexivity.
Qed.

Lemma unique_by_app (A : Type) (eqb : A -> A -> bool)
    (eqb_eq : forall a b, eqb a b = true <-> a = b) seen a b :
  unique_by eqb seen (a ++ b)
  = unique_by eqb seen a ++ unique_by eqb (a ++ seen) b.
Proof.
  revert seen; induction a as [|x a IH]; intros seen; cbn [app unique_by];
    [reflexivity|].
  assert (Hx : eqb x x = true) by (apply eqb_eq; reflexivity).
  destruct (existsb (eqb x) seen) eqn:E.
  - rewrite IH. f_equal. apply unique_by_ext. intros y.
    cbn [app existsb]. rewrite !existsb_app.
    destruct (eqb y x) eqn:Eyx; [|reflexivity].
    apply eqb_eq in Eyx. subst y. rewrite E, orb_true_r. reflexivity.
  - cbn [app]. f_equal. rewrite IH. f_equal. apply unique_by_ext. intros y.
    cbn [app existsb]. rewrite !existsb_app. cbn [existsb].
    destruct (eqb y x); destruct (existsb (eqb y) a); destruct (existsb (eqb y) seen);
      reflexivity.
Qed.

Lemma unique_by_nones seen nones :
  Forall (fun k : option N => k = None) nones ->
  existsb (key_eqb None) seen = false ->
  unique_by key_eqb seen nones = match nones with [] => [] | _ => [None] end.
Proof.
  intros Hn Hs. destruct Hn as [|k nones -> Hn]; [reflexivity|].
  cbn [unique_by]. rewrite Hs. f_equal.
  induction Hn as [|k nones -> Hn IH]; cbn [unique_by existsb]; [reflexivity|].
  exact IH.
Qed.

Lemma existsb_none_present l :
  Forall present l -> existsb (key_eqb None) l = false.
Proof.
  induction 1 as [|k l Hk _ IH]; cbn [existsb]; [reflexivity|].
  destruct k; [exact IH|congruence].
Qed.

Lemma unique_keys_split somes nones :
  Forall present somes ->
  Forall (fun k : option N => k = None) nones ->
  unique_keys (somes ++ nones)
  = unique key_eqb somes ++ match nones with [] => [] | _ => [None] end.
Proof.
  intros Hs Hn. unfold unique_keys, unique.
  rewrite (@unique_by_app _ _ key_eqb_eq). f_equal.
  apply unique_by_nones; [exact Hn|].
  rewrite app_nil_r. apply existsb_none_present, Hs.
Qed.

(** [sorted] *)
Lemma sorted_insert_perm x acc : Permutation (sorted_insert x acc) (x :: acc).
Proof.
  induction acc as [|y acc IH]; cbn [sorted_insert]; [reflexivity|].
  destruct (key_lt x y); [|reflexivity].
  rewrite IH. apply perm_swap.
Qed.

Lemma sorted_insert_none acc : sorted_insert None acc = None :: acc.
Proof. destruct acc; reflexivity. Qed.

Lemma sorted_insert_desc x acc :
  Forall present acc ->
  StronglySorted opt_ge acc ->
  StronglySorted opt_ge (sorted_insert (Some x) acc).
Proof.
  intros Hp Hs. induction Hs as [|y acc Hs IH Hy]; cbn [sorted_insert].
  - repeat constructor.
  - apply Forall_cons_iff in Hp. destruct Hp as [Hy0 Hp].
    destruct y as [y|]; [|congruence]. cbn [key_lt].
    destruct (N.ltb_spec x y) as [Hlt|Hge].
    + constructor; [apply IH, Hp|].
      rewrite Forall_forall in *. intros z Hz.
      apply (Permutation_in _ (sorted_insert_perm (Some x) acc)) in Hz.
      destruct Hz as [<-|Hz]; [lia|apply Hy, Hz].
    + constructor; [constructor; assumption|].
      constructor; [exact Hge|].
      rewrite Forall_forall in *. intros z Hz. specialize (Hy z Hz).
      destruct z as [z|]; [lia|exact Hy].
Qed.

Lemma fold_insert_desc l acc :
  Forall present l ->
  Forall present acc ->
  StronglySorted opt_ge acc ->
  let r := fold_left (fun acc x => sorted_insert x acc) l acc in
  StronglySorted opt_ge r /\ Forall present r /\ Permutation r (l ++ acc).
Proof.
  revert acc; induction l as [|x l IH]; intros acc Hl Ha Hs; cbn [fold_left app].
  - repeat split; [exact Hs | exact Ha | reflexivity].
  - apply Forall_cons_iff in Hl. destruct Hl as [Hx Hl].
    destruct x as [x|]; [|congruence].
    assert (Ha' : Forall present (sorted_insert (Some x) acc)).
    { rewrite Forall_forall in *. intros z Hz.
      apply (Permutation_in _ (sorted_insert_perm (Some x) acc)) in Hz.
      destruct Hz as [<-|Hz]; [discriminate|apply Ha, Hz]. }
    destruct (IH _ Hl Ha' (sorted_insert_desc x Ha Hs)) as (H1 & H2 & H3).
    repeat split; [exact H1 | exact H2 |].
    rewrite H3, sorted_insert_perm. symmetry. apply Permutation_middle.
Qed.

Lemma nth_rev_second (A : Type) (l : list A) d :
  2 <= length l -> nth (length (rev l) - 2) (rev l) d = nth 1 l d.
Proof.
  intros H. rewrite length_rev, rev_nth by lia. f_equal. lia.
Qed.

(** The entry before the last of the sorted distinct keys, for keys that
    come as the numbers followed by the NaNs. *)
Lemma before_last_key somes nones :
  Forall present somes ->
  Forall (fun k : option N => k = None) nones ->
  let keys := somes ++ nones in
  let u := py_sorted (unique_keys keys) in
  2 <= length u ->
  exists p,
    nth (length u - 2) u None = Some p
    /\ In (Some p) somes
    /\ (nones <> [] -> forall k, In (Some k) somes -> (k <= p)%N)
    /\ (nones = [] ->
        exists h, In (Some h) somes /\ (p < h)%N
                  /\ forall k, In (Some k) somes -> k = h \/ (k <= p)%N).
Proof.
  intros Hs Hn keys u. unfold u, keys.
  rewrite (unique_keys_split Hs Hn). unfold py_sorted. rewrite fold_left_app.
  set (us := unique key_eqb somes).
  assert (Hus : forall k, In k us <-> In k somes).
  { intros k. unfold us, unique. rewrite (@unique_by_In _ _ key_eqb_eq). cbn [In]. tauto. }
  assert (Hnd : NoDup us) by (apply unique_by_NoDup, key_eqb_eq).
  assert (Hup : Forall present us).
  { rewrite Forall_forall in *. intros k Hk. apply Hs, Hus, Hk. }
  destruct (@fold_insert_desc us [] Hup (Forall_nil _) (SSorted_nil _))
    as (Hsort & Hpres & Hperm).
  rewrite app_nil_r in Hperm.
  set (acc := fold_left (fun acc x => sorted_insert x acc) us []) in *.
  assert (Hacc : forall k, In k acc <-> In k somes).
  { intros k. rewrite <- Hus. split; apply Permutation_in; [|symmetry]; exact Hperm. }
  destruct nones as [|n0 nones].
  - cbn [fold_left]. intros Hlen. rewrite nth_rev_second by (rewrite length_rev in Hlen; exact Hlen).
    rewrite length_rev in Hlen.
    destruct acc as [|a [|b rest]] eqn:Eacc; cbn [length] in Hlen; try lia.
    assert (Ha : present a) by (rewrite Forall_forall in Hpres; apply Hpres; left; reflexivity).
    assert (Hb : present b)
      by (rewrite Forall_forall in Hpres; apply Hpres; right; left; reflexivity).
    destruct a as [h|]; [|congruence]. destruct b as [p|]; [|congruence].
    exists p. cbn [nth].
    split; [reflexivity|].
    split; [apply Hacc; right; left; reflexivity|].
    split; [congruence|]. intros _.
    assert (Hnd' : NoDup (Some h :: Some p :: rest))
      by (apply (Permutation_NoDup (Permutation_sym Hperm)), Hnd).
    inversion Hsort as [|? ? Hs1 Hf1]; subst.
    inversion Hs1 as [|? ? Hs2 Hf2]; subst.
    rewrite Forall_forall in Hf1, Hf2.
    exists h. split; [apply Hacc; left; reflexivity|].
    split.
    + assert (p <= h)%N by (apply (Hf1 (Some p)); left; reflexivity).
      assert (p <> h).
      { intros ->. inversion Hnd' as [|? ? Hni _]. apply Hni. left. reflexivity. }
      lia.
    + intros k Hk. apply Hacc in Hk. destruct Hk as [[= <-]|[[= <-]|Hk]].
      * left. reflexivity.
      * right. lia.
      * right. apply (Hf2 (Some k) Hk).
  - assert (Hn0 : n0 = None) by (inversion Hn; assumption). subst n0.
    cbn [fold_left]. rewrite sorted_insert_none.
    intros Hlen. rewrite nth_rev_second by (rewrite length_rev in Hlen; exact Hlen).
    rewrite length_rev in Hlen.
    destruct acc as [|a rest] eqn:Eacc; cbn [length] in Hlen; try lia.
    assert (Ha : present a) by (rewrite Forall_forall in Hpres; apply Hpres; left; reflexivity).
    destruct a as [p|]; [|congruence].
    exists p. cbn [nth].
    split; [reflexivity|].
    split; [apply Hacc; left; reflexivity|].
    split; [|discriminate]. intros _ k Hk.
    apply Hacc in Hk. destruct Hk as [[= <-]|Hk]; [lia|].
    inversion Hsort as [|? ? _ Hf1]; subst. rewrite Forall_forall in Hf1.
    apply (Hf1 (Some k) Hk).
Qed.

End KeyLists.

Lemma py_sorted_perm keys : Permutation (py_sorted keys) keys.
Proof.
  unfold py_sorted. rewrite <- Permutation_rev.
  assert (H : forall l acc,
             Permutation (fold_left (fun acc x => sorted_insert x acc) l acc) (l ++ acc)).
  { induction l as [|x l IH]; intros acc; cbn [fold_left app]; [reflexivity|].
    rewrite IH, sorted_insert_perm. symmetry. apply Permutation_middle. }
  rewrite H, app_nil_r. reflexivity.
Qed.

Section LastMonth.

Variable U : UCD.

(** The keys of [tdf] are numbers followed by NaNs. *)
Lemma tdf_keys_split df :
  exists somes nones,
    map (tdf_key U) (client_period_totals U df) = somes ++ nones
    /\ Forall (fun k : option N => k <> None) somes
    /\ Forall (fun k : option N => k = None) nones.
Proof.
  unfold client_period_totals, sort_values. rewrite map_app.
  eexists. eexists. split; [reflexivity|]. split.
  - apply Forall_forall. intros k Hk. apply in_map_iff in Hk.
    destruct Hk as (r & <- & Hr). apply sort_keyed_has_key in Hr.
    apply has_key_iff in Hr. exact Hr.
  - apply Forall_forall. intros k Hk. apply in_map_iff in Hk.
    destruct Hk as (r & <- & Hr). apply filter_In in Hr. destruct Hr as [_ Hr].
    unfold has_key in Hr. destruct (tdf_key U r); [discriminate|reflexivity].
Qed.

Lemma in_keys_somes (tdf : list tdf_row) somes nones k :
  map (tdf_key U) tdf = somes ++ nones ->
  Forall (fun k : option N => k = None) nones ->
  (In (Some k) somes <-> exists r, In r tdf /\ tdf_key U r = Some k).
Proof.
  intros E Hn. split.
  - intros H. assert (Hin : In (Some k) (map (tdf_key U) tdf))
      by (rewrite E; apply in_or_app; left; exact H).
    apply in_map_iff in Hin. destruct Hin as (r & Hk & Hr). exists r. tauto.
  - intros (r & Hr & Hk).
    assert (Hin : In (Some k) (map (tdf_key U) tdf))
      by (rewrite <- Hk; apply in_map, Hr).
    rewrite E in Hin. apply in_app_or in Hin. destruct Hin as [H|H]; [exact H|].
    rewrite Forall_forall in Hn. apply Hn in H. discriminate.
Qed.

Lemma opt_eqb_refl k : opt_eqb (Some k) (Some k) = true.
Proof. apply N.eqb_refl. Qed.

Lemma no_nones (tdf : list tdf_row) somes nones :
  map (tdf_key U) tdf = somes ++ nones ->
  Forall (fun k : option N => k <> None) somes ->
  Forall (fun k : option N => k = None) nones ->
  (nones <> [] <-> exists r, In r tdf /\ tdf_key U r = None).
Proof.
  intros E Hs Hn. split.
  - intros H. destruct nones as [|k nones]; [congruence|].
    assert (Hk : k = None) by (inversion Hn; assumption). subst k.
    assert (Hin : In None (map (tdf_key U) tdf))
      by (rewrite E; apply in_or_app; right; left; reflexivity).
    apply in_map_iff in Hin. destruct Hin as (r & Hk & Hr). exists r. tauto.
  - intros (r & Hr & Hk) ->. rewrite app_nil_r in E.
    assert (Hin : In None somes) by (rewrite <- E, <- Hk; apply in_map, Hr).
    rewrite Forall_forall in Hs. apply (Hs None Hin). reflexivity.
Qed.

(** What [prev_key] is when it is defined. *)
Lemma prev_key_some df q :
  let tdf := client_period_totals U df in
  prev_key U tdf = Some q ->
  exists p,
    q = Some p
    /\ (exists r, In r tdf /\ tdf_key U r = Some p)
    /\ ((exists r, In r tdf /\ tdf_key U r = None) ->
        forall r k, In r tdf -> tdf_key U r = Some k -> (k <= p)%N)
    /\ ((forall r, In r tdf -> tdf_key U r <> None) ->
        exists h,
          (exists r, In r tdf /\ tdf_key U r = Some h) /\ (p < h)%N
          /\ forall r k, In r tdf -> tdf_key U r = Some k -> k = h \/ (k <= p)%N).
Proof.
  intros tdf. destruct (tdf_keys_split df) as (somes & nones & E & Hs & Hn).
  fold tdf in E. unfold prev_key. rewrite E.
  destruct (2 <=? length (py_sorted (unique_keys (somes ++ nones)))) eqn:Hlen;
    [|discriminate].
  apply Nat.leb_le in Hlen.
  destruct (before_last_key Hs Hn Hlen) as (p & Hp & Hin & Hmix & Hclean).
  intros [= <-]. exists p. split; [exact Hp|].
  split; [apply (@in_keys_somes _ _ _ _ E Hn), Hin|].
  split.
  - intros Hex r k Hr Hk. apply Hmix.
    + apply (@no_nones _ _ _ E Hs Hn), Hex.
    + apply (@in_keys_somes _ _ _ _ E Hn). exists r. tauto.
  - intros Hall.
    assert (Hnil : nones = []).
    { destruct nones as [|k0 nones0] eqn:En; [reflexivity|exfalso].
      assert (Hne : nones <> []) by (rewrite En; discriminate).
      rewrite <- En in E, Hn. apply (@no_nones _ _ _ E Hs Hn) in Hne.
      destruct Hne as (r & Hr & Hk). apply (Hall r Hr Hk). }
    destruct (Hclean Hnil) as (h & Hh & Hlt & Hrest).
    exists h. split; [apply (@in_keys_somes _ _ _ _ E Hn), Hh|].
    split; [exact Hlt|]. intros r k Hr Hk. apply Hrest.
    apply (@in_keys_somes _ _ _ _ E Hn). exists r. tauto.
Qed.

Lemma short_list_eq (A : Type) (l : list A) a b :
  length l < 2 -> In a l -> In b l -> a = b.
Proof.
  destruct l as [|x [|y l]]; cbn [length In].
  - intros _ [].
  - intros _ [<-|[]] [<-|[]]. reflexivity.
  - intros H. lia.
Qed.

(** Without [prev_key] all the rows have the same key. *)
Lemma prev_key_none (tdf : list tdf_row) r r' :
  prev_key U tdf = None -> In r tdf -> In r' tdf -> tdf_key U r = tdf_key U r'.
Proof.
  unfold prev_key.
  destruct (2 <=? length (py_sorted (unique_keys (map (tdf_key U) tdf)))) eqn:Hlen;
    [discriminate|].
  apply Nat.leb_gt in Hlen. rewrite (Permutation_length (py_sorted_perm _)) in Hlen.
  intros _ Hr Hr'. eapply short_list_eq; [exact Hlen| |]; unfold unique_keys, unique;
    rewrite (@unique_by_In _ _ key_eqb_eq); (split; [apply in_map; assumption|intros []]).
Qed.

(** X12. The ranking of the last month takes as current period the largest
    key.  When every label parses, the period it compares with is the
    largest key below it, and there is none exactly when all the rows are of
    one period. *)
Theorem last_month_periods df :
  let tdf := client_period_totals U df in
  (forall M, last_key U tdf = Some M <->
             (exists r, In r tdf /\ tdf_key U r = Some M)
             /\ forall r k, In r tdf -> tdf_key U r = Some k -> (k <= M)%N)
  /\ ((forall r, In r tdf -> tdf_key U r <> None) ->
      (forall q, prev_key U tdf = Some q ->
         exists P M,
           q = Some P /\ last_key U tdf = Some M /\ (P < M)%N
           /\ (exists r, In r tdf /\ tdf_key U r = Some P)
           /\ forall r k, In r tdf -> tdf_key U r = Some k -> k = M \/ (k <= P)%N)
      /\ (prev_key U tdf = None ->
          forall r r', In r tdf -> In r' tdf -> tdf_key U r = tdf_key U r')).
Proof.
  intros tdf.
  assert (Hlast : forall M, last_key U tdf = Some M <->
             (exists r, In r tdf /\ tdf_key U r = Some M)
             /\ forall r k, In r tdf -> tdf_key U r = Some k -> (k <= M)%N).
  { intros M. unfold last_key. rewrite max_key_spec. split.
    - intros [Hin Hmax]. split.
      + apply in_map_iff in Hin. destruct Hin as (r & Hk & Hr). exists r. tauto.
      + intros r k Hr Hk. apply Hmax. rewrite <- Hk. apply in_map, Hr.
    - intros [(r & Hr & Hk) Hmax]. split.
      + rewrite <- Hk. apply in_map, Hr.
      + intros k Hin. apply in_map_iff in Hin. destruct Hin as (r' & Hk' & Hr').
        apply (Hmax r' k Hr' Hk'). }
  split; [exact Hlast|]. intros Hall. split.
  - intros q Hq. destruct (prev_key_some df Hq) as (P & -> & HP & _ & Hclean).
    destruct (Hclean Hall) as (h & Hh & Hlt & Hrest).
    exists P, h. split; [reflexivity|].
    split.
    { apply Hlast. split; [exact Hh|]. intros r k Hr Hk.
      destruct (Hrest r k Hr Hk) as [->|Hle]; lia. }
    split; [exact Hlt|]. split; [exact HP|exact Hrest].
  - intros Hnone r r'. apply (@prev_key_none _ _ _ Hnone).
Qed.

(** X13. When the label of some row does not parse and the label of another
    does, the period taken as previous is the current one: the ranking
    compares the latest period with itself. *)
Theorem last_month_unparseable df M :
  let tdf := client_period_totals U df in
  (exists r, In r tdf /\ tdf_key U r = None) ->
  last_key U tdf = Some M ->
  prev_key U tdf = Some (Some M) /\ prev_per U tdf = cur_per U tdf.
Proof.
  intros tdf Hex HM.
  assert (Hprev : prev_key U tdf = Some (Some M)).
  { destruct (prev_key U tdf) as [q|] eqn:Hq.
    - destruct (prev_key_some df Hq) as (p & -> & (r & Hr & Hk) & Hmix & _).
      specialize (Hmix Hex).
      unfold last_key in HM. apply max_key_spec in HM. destruct HM as [Hin Hmax].
      apply in_map_iff in Hin. destruct Hin as (r' & Hk' & Hr').
      assert (M <= p)%N by (apply (Hmix r' M Hr' Hk')).
      assert (p <= M)%N by (apply Hmax; rewrite <- Hk; apply in_map, Hr).
      repeat f_equal. lia.
    - exfalso. destruct Hex as (r & Hr & Hk).
      unfold last_key in HM. apply max_key_spec in HM. destruct HM as [Hin _].
      apply in_map_iff in Hin. destruct Hin as (r' & Hk' & Hr').
      pose proof (@prev_key_none _ _ _ Hq Hr Hr') as E. congruence. }
  split; [exact Hprev|].
  unfold prev_per, cur_per. rewrite Hprev, HM. reflexivity.
Qed.

End LastMonth.

Lemma last_month_periods_witness :
  exists P M,
    Some 202506%N = Some P
    /\ last_key latin1 (client_period_totals latin1 (DF demo)) = Some M
    /\ (P < M)%N
    /\ (exists r, In r (client_period_totals latin1 (DF demo))
                  /\ tdf_key latin1 r = Some P)
    /\ forall r k, In r (client_period_totals latin1 (DF demo)) ->
                   tdf_key latin1 r = Some k -> k = M \/ (k <= P)%N.
Proof.
  apply (proj1 (proj2 (@last_month_periods latin1 (DF demo))
                  ltac:(intros r Hr; vm_compute in Hr;
                        repeat (destruct Hr as [<-|Hr]; [vm_compute; discriminate|]);
                        destruct Hr))).
  vm_compute. reflexivity.
Defined.

Lemma last_month_unparseable_witness :
  prev_key latin1 (client_period_totals latin1 (DF mixed)) = Some (Some 202507%N)
  /\ prev_per latin1 (client_period_totals latin1 (DF mixed))
     = cur_per latin1 (client_period_totals latin1 (DF mixed)).
Proof.
  apply (@last_month_unparseable latin1 (DF mixed) 202507%N).
  - exists (last (client_period_totals latin1 (DF mixed)) ([], [], fzero)).
    split; vm_compute; [|reflexivity].
    repeat (try (left; reflexivity); right).
  - vm_compute. reflexivity.
Defined.

(* ================================================================== *)
(** * When the ranking of the last month answers *)

Section LastMonthOutcome.

Variable U : UCD.
Variable L : PyLib.

Lemma key2_none (a b : record -> option pystr) r :
  key2 a b r = None <-> a r = None \/ b r = None.
Proof.
  unfold key2. destruct (a r), (b r); split; try tauto; try discriminate;
    intros [H|H]; discriminate.
Qed.

Lemma client_period_totals_nil df :
  client_period_totals U df = []
  <-> forall r, In r df -> Cliente r = None \/ Periodo r = None.
Proof.
  unfold client_period_totals. split.
  - intros E r Hr. apply key2_none.
    destruct (key2 Cliente Periodo r) eqn:Ek; [exfalso|reflexivity].
    apply (f_equal (@length _)) in E. rewrite sort_values_length in E.
    apply length_zero_iff_nil in E. revert E.
    apply fold_gb_step_not_nil. right. exists r. split; [exact Hr|congruence].
  - intros H. apply length_zero_iff_nil. rewrite sort_values_length.
    apply length_zero_iff_nil.
    destruct (groupby_sum pair_compare fadd fzero (key2 Cliente Periodo) Total df)
      as [|x l] eqn:E; [reflexivity|exfalso].
    assert (Hx : In x (groupby_sum pair_compare fadd fzero
                         (key2 Cliente Periodo) Total df))
      by (rewrite E; left; reflexivity).
    unfold groupby_sum in Hx. apply fold_gb_step_keys in Hx.
    destruct Hx as [(y & [] & _)|(r & Hr & Hk)].
    apply H, key2_none in Hr. congruence.
Qed.

Lemma merged_rows_zero (tdf : list tdf_row) : merged_rows U tdf 0 = [].
Proof. unfold merged_rows. cbn [firstn flat_map map]. destruct (truthy _); reflexivity. Qed.

Lemma merged_rows_no_key (tdf : list tdf_row) n :
  (forall r, In r tdf -> tdf_key U r = None) -> merged_rows U tdf n = [].
Proof.
  intros H. unfold merged_rows.
  replace (cur_per U tdf) with (@nil tdf_row).
  - unfold sort_desc, sort_values. cbn [sort_keyed filter app]. rewrite firstn_nil.
    destruct (truthy _); reflexivity.
  - symmetry. unfold cur_per. apply filter_none. intros x Hx.
    rewrite (H x Hx). reflexivity.
Qed.

Lemma cur_per_not_nil (tdf : list tdf_row) M :
  last_key U tdf = Some M -> cur_per U tdf <> [].
Proof.
  intros HM E. unfold last_key in HM. pose proof HM as HM'.
  apply max_key_spec in HM'. destruct HM' as [Hin _].
  apply in_map_iff in Hin. destruct Hin as (r & Hk & Hr).
  assert (H : In r (cur_per U tdf)).
  { unfold cur_per. apply filter_In. split; [exact Hr|].
    unfold last_key. rewrite HM, Hk. apply opt_eqb_refl. }
  rewrite E in H. exact H.
Qed.

Lemma merged_rows_not_nil (tdf : list tdf_row) M n :
  last_key U tdf = Some M -> merged_rows U tdf (S n) <> [].
Proof.
  intros HM. apply cur_per_not_nil in HM. unfold merged_rows.
  destruct (sort_desc (@snd (pystr * pystr) float) (cur_per U tdf)) as [|a l] eqn:E.
  - exfalso. apply HM.
    pose proof (sort_desc_perm (@snd (pystr * pystr) float) (cur_per U tdf)) as P.
    rewrite E in P. apply Permutation_nil in P. exact P.
  - cbn [firstn]. destruct (truthy (prev_key U tdf)); cbn [flat_map map]; [|discriminate].
    match goal with
    | |- context [filter ?f (prev_per U tdf)] => destruct (filter f (prev_per U tdf))
    end; cbn [map app]; discriminate.
Qed.

Lemma prev_per_not_nil df :
  let tdf := client_period_totals U df in
  truthy (prev_key U tdf) = true -> prev_per U tdf <> [].
Proof.
  intros tdf Ht E. unfold prev_per in E.
  destruct (prev_key U tdf) as [q|] eqn:Hq; [|discriminate Ht].
  destruct (@prev_key_some U df q Hq) as (p & -> & (r & Hr & Hk) & _).
  assert (H : In r (filter (fun r => opt_eqb (tdf_key U r) (Some p)) tdf)).
  { apply filter_In. split; [exact Hr|]. rewrite Hk. apply opt_eqb_refl. }
  fold tdf in E. rewrite E in H. exact H.
Qed.

(** X14. The ranking of the last month answers "No hay datos suficientes."
    when no row has both a client and a period label.  Otherwise it raises
    exactly when zero rows are asked for or no label parses; in every other
    case it returns a table. *)
Theorem top_clients_outcome df n :
  let tdf := client_period_totals U df in
  ((forall r, In r df -> Cliente r = None \/ Periodo r = None) ->
   top_clients_last_month U L df n = Return (Md (py "No hay datos suficientes.")))
  /\ ((exists r, In r df /\ Cliente r <> None /\ Periodo r <> None) ->
      (top_clients_last_month U L df n = Raises
       <-> n = 0 \/ forall r, In r tdf -> tdf_key U r = None)
      /\ (top_clients_last_month U L df n <> Raises ->
          exists md, top_clients_last_month U L df n = Return (Md md))).
Proof.
  intros tdf. split.
  { intros H. apply client_period_totals_nil in H.
    unfold top_clients_last_month. rewrite H. reflexivity. }
  intros (r0 & Hr0 & Hc & Hp).
  assert (Hne : tdf <> []).
  { intros E. destruct (proj1 (client_period_totals_nil df) E r0 Hr0); contradiction. }
  assert (Hprev : truthy (prev_key U tdf) = true -> prev_per U tdf <> [])
    by apply prev_per_not_nil.
  assert (Hzero : merged_rows U tdf 0 = []) by apply merged_rows_zero.
  assert (Hnokey : (forall r, In r tdf -> tdf_key U r = None) ->
                   merged_rows U tdf n = []) by apply merged_rows_no_key.
  assert (Hsome : forall M k, last_key U tdf = Some M -> n = S k ->
                              merged_rows U tdf n <> []).
  { intros M k HM ->. apply (merged_rows_not_nil _ _ HM). }
  assert (Hlast : last_key U tdf = None -> forall r, In r tdf -> tdf_key U r = None).
  { intros HN r Hr. unfold last_key in HN.
    destruct (tdf_key U r) as [k|] eqn:Ek; [exfalso|reflexivity].
    apply (proj1 (max_key_none _) HN k). rewrite <- Ek. apply in_map, Hr. }
  unfold top_clients_last_month.
  revert Hne Hprev Hzero Hnokey Hsome Hlast. subst tdf.
  generalize (client_period_totals U df). intros tdf.
  destruct tdf as [|x l]; [contradiction|].
  generalize (x :: l). clear x l. intros tdf _ Hprev Hzero Hnokey Hsome Hlast.
  destruct (merged_rows U tdf n) as [|[[r1 p1] v1] ms] eqn:Em.
  - split; [|intros H; contradiction H; reflexivity].
    split; [intros _|reflexivity].
    destruct n as [|k]; [left; reflexivity|right].
    destruct (last_key U tdf) as [M|] eqn:HM; [|apply Hlast; reflexivity].
    destruct (Hsome M k eq_refl eq_refl). reflexivity.
  - assert (Hbad : ~ (n = 0 \/ forall r, In r tdf -> tdf_key U r = None)).
    { intros [->|Hall]; [rewrite Hzero in Em; discriminate|].
      discriminate (Hnokey Hall). }
    destruct (truthy (prev_key U tdf)) eqn:Et.
    + destruct (prev_per U tdf) as [|m pp] eqn:Ep; [destruct (Hprev eq_refl eq_refl)|].
      cbv beta zeta iota.
      split; [split; [discriminate|intros H; destruct (Hbad H)]|].
      intros _. eexists. reflexivity.
    + cbv beta zeta iota.
      split; [split; [discriminate|intros H; destruct (Hbad H)]|].
      intros _. eexists. reflexivity.
Qed.

End LastMonthOutcome.

Lemma top_clients_outcome_witness :
  exists md, top_clients_last_month latin1 cpython (DF mixed) 3 = Return (Md md).
Proof.
  apply (proj2 (@top_clients_outcome latin1 cpython (DF mixed) 3)).
  - eexists. split; [left; reflexivity|]. split; vm_compute; discriminate.
  - vm_compute. discriminate.
Defined.

(* ================================================================== *)
(** * Locating the workbook *)

Lemma find_first (A : Type) (f : A -> bool) l :
  match find f l with
  | Some c =>
      exists pre post,
        l = pre ++ c :: post /\ f c = true /\ forall p, In p pre -> f p = false
  | None => forall c, In c l -> f c = false
  end.
Proof.
  induction l as [|x l IH]; cbn [find]; [intros c []|].
  destruct (f x) eqn:E.
  - exists [], l. split; [reflexivity|]. split; [exact E|intros p []].
  - destruct (find f l) as [c|].
    + destruct IH as (pre & post & -> & Hc & Hpre).
      exists (x :: pre), post. split; [reflexivity|]. split; [exact Hc|].
      intros p [<-|Hp]; [exact E|apply Hpre, Hp].
    + intros c [<-|Hc]; [exact E|apply IH, Hc].
Qed.

(** X15. [resolve_excel_path] returns the first candidate that exists, in the
    order: the path of [EXCEL_PATH], the directory of the program, its
    [data] directory, the working directory; it raises exactly when none
    exists. *)
Theorem resolve_excel_path_first (U : UCD) (FS : FileSystem) env here :
  match resolve_excel_path U FS env here with
  | Found c =>
      exists pre post,
        candidates U FS env here = pre ++ c :: post
        /\ path_exists FS c = true
        /\ forall p, In p pre -> path_exists FS p = false
  | FileNotFoundError _ =>
      forall c, In c (candidates U FS env here) -> path_exists FS c = false
  end.
Proof.
  unfold resolve_excel_path.
  pose proof (find_first (path_exists FS) (candidates U FS env here)) as H.
  destruct (find (path_exists FS) (candidates U FS env here)); exact H.
Qed.

Lemma strip_blank (U : UCD) s : forallb (is_space U) s = true -> str_strip U s = [].
Proof.
  intros H. unfold str_strip, str_lstrip. rewrite (dropwhile_all _ _ H). reflexivity.
Qed.

(** X16. The variable [EXCEL_PATH] counts only when it holds more than white
    space: unset or blank, the three default places are tried.  When it is
    set, its value without the white space around it comes first, and a
    value that names no file is passed over without notice when a default
    place has the workbook. *)
Theorem resolve_excel_path_env (U : UCD) (FS : FileSystem) here :
  (forall env,
     env = None \/ (exists s, env = Some s /\ forallb (is_space U) s = true) ->
     candidates U FS env here
     = [ joinpath FS here DEFAULT_EXCEL_NAME;
         joinpath FS (joinpath FS here (py "data")) DEFAULT_EXCEL_NAME;
         joinpath FS (cwd FS) DEFAULT_EXCEL_NAME ])
  /\ (forall env,
        EXCEL_ENV U env <> [] ->
        (path_exists FS (Path FS (EXCEL_ENV U env)) = true ->
         resolve_excel_path U FS env here = Found (Path FS (EXCEL_ENV U env)))
        /\ (path_exists FS (Path FS (EXCEL_ENV U env)) = false ->
            forall c, resolve_excel_path U FS None here = Found c ->
                      resolve_excel_path U FS env here = Found c)).
Proof.
  split.
  - intros env [->|(s & -> & Hs)]; unfold candidates, EXCEL_ENV.
    + reflexivity.
    + rewrite (strip_blank U s Hs). reflexivity.
  - intros env Hne. unfold resolve_excel_path, candidates.
    replace (EXCEL_ENV U None) with (@nil cp) by reflexivity.
    destruct (EXCEL_ENV U env) as [|c0 s0] eqn:E; [congruence|].
    cbn [app find]. split.
    + intros ->. reflexivity.
    + intros ->. intros c.
      destruct (path_exists FS (joinpath FS here DEFAULT_EXCEL_NAME)); [tauto|].
      destruct (path_exists FS
                  (joinpath FS (joinpath FS here (py "data")) DEFAULT_EXCEL_NAME));
        [tauto|].
      destruct (path_exists FS (joinpath FS (cwd FS) DEFAULT_EXCEL_NAME)); [tauto|].
      discriminate.
Qed.

Lemma resolve_excel_path_env_witness :
  resolve_excel_path latin1 one_file_fs (Some (py "  /tmp/ventas.xlsx ")) (py "/srv/app")
  = Found (py "/srv/app/data/Analisis_Ventas_TELCO_Demo.xlsx").
Proof.
  apply (proj2 (proj2 (@resolve_excel_path_env latin1 one_file_fs (py "/srv/app"))
                  (Some (py "  /tmp/ventas.xlsx "))
                  ltac:(vm_compute; discriminate))).
  - vm_compute. reflexivity.
  - vm_compute. reflexivity.
Defined.

(* ================================================================== *)
(** * Variations need two periods *)

Lemma groupby_short (K V R : Type) (cmp : K -> K -> comparison)
    (add : V -> V -> V) (zero : V) (keyf : R -> option K) (valf : R -> V)
    (laws : order_laws cmp) rows :
  length (groupby_sum cmp add zero keyf valf rows) < 2
  <-> forall r r' k k',
        In r rows -> In r' rows -> keyf r = Some k -> keyf r' = Some k' -> k = k'.
Proof.
  pose proof (@groupby_sum_NoDup K V R cmp add zero keyf valf laws rows) as Hnd.
  pose proof (fun k => @groupby_sum_keys K V R cmp add zero keyf valf laws k rows) as Hk.
  rewrite <- (length_map fst). split.
  - intros Hlen r r' k k' Hr Hr' Ek Ek'.
    eapply short_list_eq; [exact Hlen| |]; apply Hk;
      [exists r|exists r']; split; assumption.
  - intros Hone.
    destruct (map fst (groupby_sum cmp add zero keyf valf rows)) as [|a [|b l]];
      cbn [length]; try lia.
    exfalso.
    assert (Ha : exists r, In r rows /\ keyf r = Some a) by (apply Hk; left; reflexivity).
    assert (Hb : exists r, In r rows /\ keyf r = Some b)
      by (apply Hk; right; left; reflexivity).
    destruct Ha as (r & Hr & Ea). destruct Hb as (r' & Hr' & Eb).
    assert (a = b) by (apply (Hone r r'); assumption). subst b.
    inversion Hnd as [|? ? Hni _]. apply Hni. left. reflexivity.
Qed.

Lemma mom_simple_none (U : UCD) df : _mom_simple U df = None <-> length df < 2.
Proof.
  unfold _mom_simple, sort_by_period.
  rewrite <- (sort_values_length N.leb (@period_key U float) df).
  destruct (Nat.ltb_spec (length (sort_values N.leb (@period_key U float) df)) 2)
    as [Hlt|Hge]; [tauto|].
  split; [|lia].
  destruct (last_two _ Hge) as (front & q & p & ->). rewrite rev_last_two. discriminate.
Qed.

(** X17. The total variation and the variation by service answer that there are
    not enough months exactly when the rows of the sheet carry at most one
    period label, whether it parses or not. *)
Theorem variation_needs_two_periods (U : UCD) (L : PyLib) st :
  (total_variation U L st
   = Md (py "No hay suficientes meses para calcular la variación.")
   <-> one_period (DF st))
  /\ (servicio_variation U L (DF st)
      = Md (py "No hay suficientes meses para variación por servicio.")
      <-> one_period (DF st)).
Proof.
  split.
  - unfold one_period.
    rewrite <- (@groupby_short _ _ _ str_compare fadd fzero Periodo Total str_order).
    rewrite <- (mom_simple_none U). unfold total_variation.
    destruct (_mom_simple U _) as [m|]; [|tauto].
    split; [|discriminate]. intros H. exfalso.
    apply (f_equal (fun r => match r with Md s => hd 0%N s | _ => 0%N end)) in H.
    vm_compute in H. discriminate.
  - unfold one_period.
    rewrite <- (@groupby_short _ _ _ str_compare add_vec
                  (map (fun _ => fzero) SERVICE_COLS) Periodo
                  (fun r => map (fun col => snd col r) SERVICE_COLS) str_order).
    unfold servicio_variation, service_totals, sort_by_period.
    rewrite sort_values_length.
    match goal with
    | |- context [length ?g <? 2] => destruct (Nat.ltb_spec (length g) 2) as [Hlt|Hge]
    end; [tauto|].
    split; [|lia]. intros H. exfalso.
    rewrite <- (sort_values_length N.leb
                  (@period_key U (list float))) in Hge.
    destruct (last_two _ Hge) as (front & q & p & E).
    rewrite E, rev_last_two in H.
    apply (f_equal (fun r => match r with Md s => hd 0%N s | _ => 0%N end)) in H.
    vm_compute in H. discriminate.
Qed.

(* ================================================================== *)
(** * A query for a client without a name *)

Lemma re_here_literal_i (U : UCD) name word ps s :
  Forall2 (fun a c => ci_eq U a c = true) name word ->
  re_here (literal_i U name ++ ps) (word ++ s) = re_here ps s.
Proof.
  induction 1 as [|a c name word Hac _ IH]; [reflexivity|].
  unfold literal_i. cbn [map app]. rewrite (re_here_once U), Hac. exact IH.
Qed.

Lemma countdown_next (A : Type) k low (try : nat -> option A) :
  try (S k) = None -> low <= k -> countdown (S k) low try = countdown k low try.
Proof.
  intros H Hlow. cbn [countdown]. rewrite H.
  replace (k <? low) with false; [reflexivity|].
  symmetry. apply Nat.ltb_ge. exact Hlow.
Qed.

Lemma re_here_cons p ps s :
  re_here (p :: ps) s =
  let n := run_length (cls p) (hi p) s in
  if n <? lo p then None
  else
    countdown n (lo p)
      (fun k =>
         match re_here ps (skipn k s) with
         | Some gs => Some (if cap p then firstn k s :: gs else gs)
         | None => None
         end).
Proof. reflexivity. Qed.

(** White space after [cliente], and nothing else: the pattern gives the
    last white space to the group. *)
Lemma re_cliente_blank (U : UCD) word ws c :
  Forall2 (fun a c => ci_eq U a c = true) (py "cliente") word ->
  forallb (is_space U) (ws ++ [c]) = true ->
  re_here (RE_CLIENTE U) (word ++ ws ++ [c]) = Some [[c]].
Proof.
  intros Hw Hs. unfold RE_CLIENTE. rewrite (re_here_literal_i U _ _ Hw).
  assert (Hc : is_space U c = true).
  { rewrite forallb_app in Hs. apply andb_prop in Hs. destruct Hs as [_ Hs].
    cbn [forallb] in Hs. rewrite andb_true_r in Hs. exact Hs. }
  set (C := fun c0 : cp =>
              class_w U c0 || class_s U c0 || cp_eqb c0 45%N || cp_eqb c0 35%N).
  assert (Hlast : re_here [group (plus C)] [c] = Some [[c]]).
  { apply (@re_here_greedy (group (plus C)) [] [c] [] []).
    - cbn [forallb cls group plus]. unfold C, class_s. rewrite Hc.
      rewrite orb_true_r. reflexivity.
    - exact I.
    - cbn. lia.
    - right. exact I.
    - reflexivity. }
  assert (Hnone : re_here [group (plus C)] [] = None) by reflexivity.
  rewrite re_here_cons.
  change (cls (star (class_s U))) with (is_space U).
  change (hi (star (class_s U))) with (@None nat).
  change (lo (star (class_s U))) with 0.
  change (cap (star (class_s U))) with false.
  replace (run_length (is_space U) None (ws ++ [c])) with (S (length ws)).
  2:{ symmetry. rewrite <- (app_nil_r (ws ++ [c])).
      rewrite (@run_length_app (is_space U) None (ws ++ [c]) [] Hs I (or_intror I)).
      rewrite length_app. cbn [length]. lia. }
  cbv zeta. cbn [Nat.ltb Nat.leb].
  rewrite countdown_next; [|
    rewrite skipn_all2 by (rewrite length_app; cbn [length]; lia);
    rewrite Hnone; reflexivity | lia].
  apply countdown_first.
  rewrite skipn_app, skipn_all, Nat.sub_diag. cbn [skipn app].
  rewrite Hlast. reflexivity.
Qed.

Lemma str_contains_empty (U : UCD) s : str_contains U [] (Some s) = true.
Proof. unfold str_contains, literal_i. destruct s; reflexivity. Qed.

(** X19. A query that is the word [cliente], in any case, followed by white
    space only names the empty client; the empty name is found in every
    client identifier, so that the rows selected are all the rows that have
    a client. *)
Theorem blank_client_name (U : UCD) word ws :
  Forall2 (fun a c => ci_eq U a c = true) (py "cliente") word ->
  ws <> [] ->
  forallb (is_space U) ws = true ->
  client_name U (word ++ ws) = Some []
  /\ forall df : list record,
       filter (fun r => str_contains U [] (Cliente r)) df
       = filter (fun r => match Cliente r with Some _ => true | None => false end) df.
Proof.
  intros Hw Hne Hs. split.
  - destruct (exists_last Hne) as (ws' & c & ->).
    unfold client_name. rewrite (re_search_here _ _ (re_cliente_blank U _ _ Hw Hs)).
    f_equal. apply strip_blank.
    rewrite forallb_app in Hs. apply andb_prop in Hs. exact (proj2 Hs).
  - intros df. apply filter_ext. intros r.
    destruct (Cliente r); [apply str_contains_empty|reflexivity].
Qed.

Lemma blank_client_name_witness :
  client_name latin1 (py "Cliente" ++ py "  ") = Some [].
Proof.
  apply (@blank_client_name latin1 (py "Cliente") (py "  ")).
  - repeat constructor.
  - discriminate.
  - reflexivity.
Defined.

(* ================================================================== *)
(** * The variation by emitter *)

Lemma str_compare_refl a : str_compare a a = Eq.
Proof. apply str_compare_eq. reflexivity. Qed.

Lemma pair_order : order_laws pair_compare.
Proof.
  constructor.
  - intros [a1 a2] [b1 b2]. unfold pair_compare. cbn [fst snd].
    destruct (str_compare a1 b1) eqn:E1.
    + apply str_compare_eq in E1. subst b1. rewrite str_compare_eq.
      split; [intros ->; reflexivity | intros [= ->]; reflexivity].
    + split; [discriminate|]. intros [= -> ->].
      rewrite str_compare_refl in E1. discriminate.
    + split; [discriminate|]. intros [= -> ->].
      rewrite str_compare_refl in E1. discriminate.
  - intros [a1 a2] [b1 b2]. unfold pair_compare. cbn [fst snd].
    destruct (str_compare a1 b1) eqn:E1.
    + apply str_compare_eq in E1. subst b1. rewrite str_compare_refl.
      apply str_compare_gt.
    + discriminate.
    + intros _. rewrite (str_compare_gt _ _ E1). reflexivity.
  - intros [a1 a2] [b1 b2] [c1 c2]. unfold pair_compare. cbn [fst snd].
    destruct (str_compare a1 b1) eqn:E1; try discriminate.
    + apply str_compare_eq in E1. subst b1.
      destruct (str_compare a1 c1) eqn:E2; try discriminate; [|reflexivity].
      apply str_compare_trans.
    + destruct (str_compare b1 c1) eqn:E2; try discriminate.
      * apply str_compare_eq in E2. subst c1. rewrite E1. reflexivity.
      * rewrite (str_compare_trans _ _ _ E1 E2). reflexivity.
Qed.

Lemma flat_map_nil (A B : Type) (f : A -> list B) l :
  flat_map f l = [] <-> forall x, In x l -> f x = [].
Proof.
  induction l as [|a l IH]; cbn [flat_map In]; [tauto|].
  split.
  - intros H. apply app_eq_nil in H. destruct H as [Ha Hl].
    intros x [<-|Hx]; [exact Ha|apply IH; assumption].
  - intros H. rewrite (H a (or_introl eq_refl)).
    apply IH. intros x Hx. apply H. right. exact Hx.
Qed.

Lemma nodup_all_eq_short (A : Type) (l : list A) :
  NoDup l -> (forall x y, In x l -> In y l -> x = y) -> length l < 2.
Proof.
  intros Hnd H. destruct l as [|a [|b l]]; cbn [length]; try lia.
  exfalso. assert (a = b) by (apply H; [left|right; left]; reflexivity). subst b.
  inversion Hnd as [|? ? Hni _]. apply Hni. left. reflexivity.
Qed.

Lemma nodup_keys_eq (K V : Type) (l : list (K * V)) x y :
  NoDup (map fst l) -> In x l -> In y l -> fst x = fst y -> x = y.
Proof.
  induction l as [|a l IH]; cbn [map In]; [intros _ []|].
  intros Hnd Hx Hy E. inversion Hnd as [|? ? Hni Hnd']; subst.
  destruct Hx as [<-|Hx], Hy as [<-|Hy].
  - reflexivity.
  - exfalso. apply Hni. rewrite E. apply in_map, Hy.
  - exfalso. apply Hni. rewrite <- E. apply in_map, Hx.
  - apply IH; assumption.
Qed.

Lemma nodup_keys_nodup (K V : Type) (l : list (K * V)) :
  NoDup (map fst l) -> NoDup l.
Proof. apply NoDup_map_inv. Qed.

Lemma key2_some (a b : record -> option pystr) r x y :
  key2 a b r = Some (x, y) <-> a r = Some x /\ b r = Some y.
Proof.
  unfold key2. destruct (a r), (b r); split; try discriminate;
    try (intros [H1 H2]; discriminate).
  - intros [= -> ->]. tauto.
  - intros [[= ->] [= ->]]. reflexivity.
Qed.

(** X18. The variation by emitter answers that there are not enough months
    exactly when no emitter has rows with two different period labels. *)
Theorem emisora_variation_needs_two_periods (U : UCD) (L : PyLib) df :
  emisora_variation U L df
  = Md (py "No hay suficientes meses para variación por emisora.")
  <-> forall r r' e p p',
        In r df -> In r' df ->
        Emisora r = Some e -> Emisora r' = Some e ->
        Periodo r = Some p -> Periodo r' = Some p' -> p = p'.
Proof.
  unfold emisora_variation.
  set (dd := groupby_sum pair_compare fadd fzero (key2 Emisora Periodo) Total df).
  assert (Hnd : NoDup (map fst dd)) by apply groupby_sum_NoDup, pair_order.
  assert (Hk : forall e p, In (e, p) (map fst dd)
                           <-> exists r, In r df /\ Emisora r = Some e /\ Periodo r = Some p).
  { intros e p. unfold dd.
    rewrite (groupby_sum_keys fadd fzero (key2 Emisora Periodo) Total pair_order).
    split; intros (r & Hr & H); exists r; (split; [exact Hr|]); apply key2_some; exact H. }
  set (sub := fun em => filter (fun r : pystr * pystr * float => str_eqb (fst (fst r)) em) dd).
  set (rows := flat_map _ _).
  assert (Hrows : rows = [] <-> forall em, In em (map (fun r => fst (fst r)) dd) ->
                                           length (sub em) < 2).
  { unfold rows. rewrite flat_map_nil. unfold unique.
    split; intros H em Hem.
    - specialize (H em). rewrite (@unique_by_In _ _ str_eqb_eq) in H.
      specialize (H (conj Hem (fun x => x))). fold (sub em) in H.
      destruct (_mom_simple U (map (fun r => (snd (fst r), snd r)) (sub em))) eqn:Em;
        [discriminate|].
      apply mom_simple_none in Em. rewrite length_map in Em. exact Em.
    - apply (@unique_by_In _ _ str_eqb_eq) in Hem. destruct Hem as [Hem _].
      specialize (H em Hem). fold (sub em).
      rewrite <- (length_map (fun r => (snd (fst r), snd r))) in H.
      apply (mom_simple_none U) in H. rewrite H. reflexivity. }
  assert (Hmsg : match rows with
                 | [] => Md (py "No hay suficientes meses para variación por emisora.")
                 | _ :: _ =>
                     Md (py "Variación mensual por emisora (últimos 2 meses)" ++ [10%N]
                         ++ _df_to_md_table (py "Emisora" :: MOM_COLS)
                              (map (fun r => fst r :: mom_cells L (snd r))
                                 (sort_desc (fun r : pystr * mom_row => var_float (snd r))
                                    rows)))
                 end = Md (py "No hay suficientes meses para variación por emisora.")
                 <-> rows = []).
  { destruct rows; [tauto|]. split; [|discriminate]. intros H. exfalso.
    apply (f_equal (fun r => match r with Md s => hd 0%N s | _ => 0%N end)) in H.
    vm_compute in H. discriminate. }
  rewrite Hmsg, Hrows. clear Hmsg Hrows. split.
  - intros H r r' e p p' Hr Hr' He He' Hp Hp'.
    assert (H1 : In (e, p) (map fst dd)) by (apply Hk; exists r; tauto).
    assert (H2 : In (e, p') (map fst dd)) by (apply Hk; exists r'; tauto).
    apply in_map_iff in H1. destruct H1 as ([[e1 p1] t1] & [= -> ->] & Hx).
    apply in_map_iff in H2. destruct H2 as ([[e2 p2] t2] & [= -> ->] & Hy).
    assert (Hem : In e (map (fun r => fst (fst r)) dd))
      by (apply in_map_iff; exists (e, p, t1); split; [reflexivity|exact Hx]).
    specialize (H e Hem).
    assert (E : (e, p, t1) = (e, p', t2)).
    { eapply short_list_eq; [exact H| |]; unfold sub; apply filter_In;
        (split; [assumption|cbn [fst]; apply str_eqb_eq; reflexivity]). }
    injection E as -> _. reflexivity.
  - intros H em _. apply nodup_all_eq_short.
    + unfold sub. apply NoDup_filter, nodup_keys_nodup, Hnd.
    + intros [[e1 p1] t1] [[e2 p2] t2] Hx Hy.
      unfold sub in Hx, Hy. apply filter_In in Hx, Hy.
      destruct Hx as [Hx Ex], Hy as [Hy Ey]. cbn [fst] in Ex, Ey.
      apply str_eqb_eq in Ex, Ey. subst e1 e2.
      apply (@nodup_keys_eq _ _ dd _ _ Hnd Hx Hy). cbn [fst]. f_equal.
      assert (H1 : In (em, p1) (map fst dd))
        by (apply in_map_iff; exists (em, p1, t1); split; [reflexivity|exact Hx]).
      assert (H2 : In (em, p2) (map fst dd))
        by (apply in_map_iff; exists (em, p2, t2); split; [reflexivity|exact Hy]).
      apply Hk in H1, H2. destruct H1 as (r & Hr & He & Hp), H2 as (r' & Hr' & He' & Hp').
      apply (H r r' em p1 p2); assumption.
Qed.
